(** * The planner of the terminal coding agent (src/src/api.ts)

    A shallow embedding of the plan-generation-and-application pipeline:
    keyword extraction, relevance filter, intent classifier, plan parser,
    LLM client and plan executor, followed by the properties of each.

    Conventions of the embedding.
    - A JavaScript string is the list of its UTF-16 code units, each a
      number in [N].  [lit] turns an ASCII literal of the source into such
      a list.
    - [String.prototype.toLowerCase] follows the case tables of Unicode,
      which are not written out.  The functions that keep lowered text or
      compare it with text of any script ([extractKeywords],
      [filterRelevantFiles], [searchFiles]) take the lowering of the engine
      as their argument [lowerCase], and what is proved of them holds
      whatever that function is.  [toLowerCase] is the lowering of the
      Basic Latin and Latin-1 blocks; it stands where the lowered text is
      only compared with fixed words of unaccented Latin letters (the
      intent classifier, the exit test): beyond these blocks the tables
      lower to such a letter only the Kelvin sign, to k, and the dotted
      capital I, to i followed by a combining dot, and no word compared
      holds a k or ends in i.
    - Console output is not part of the model. *)

From Stdlib Require Import String Ascii QArith Qabs.
From stdpp Require Import base list gmap sorting.

Set Default Proof Using "Type".

(** ** Strings *)

Abbreviation jsstring := (list N).

Definition lit (s : string) : jsstring :=
  map N_of_ascii (list_ascii_of_string s).
Arguments lit s%_string.

(** A literal in which the apostrophe stands for the double quote, to
    write JSON texts. *)
Definition jlit (s : string) : jsstring :=
  map (λ c, if (c =? 39)%N then 34%N else c) (lit s).
Arguments jlit s%_string.

(** Code units that the source names. *)
Abbreviation c_tab := 9%N.
Abbreviation c_lf := 10%N.
Abbreviation c_cr := 13%N.
Abbreviation c_space := 32%N.
Abbreviation c_quote := 34%N.
Abbreviation c_plus := 43%N.
Abbreviation c_comma := 44%N.
Abbreviation c_minus := 45%N.
Abbreviation c_dot := 46%N.
Abbreviation c_slash := 47%N.
Abbreviation c_colon := 58%N.
Abbreviation c_lbracket := 91%N.
Abbreviation c_backslash := 92%N.
Abbreviation c_rbracket := 93%N.
Abbreviation c_underscore := 95%N.
Abbreviation c_backtick := 96%N.
Abbreviation c_lbrace := 123%N.
Abbreviation c_rbrace := 125%N.

Definition in_range (lo hi c : N) : bool := (lo <=? c)%N && (c <=? hi)%N.

(** [\s] of a regular expression, and the characters [trim] removes:
    WhiteSpace and LineTerminator of ECMAScript. *)
Definition isWhiteSpace (c : N) : bool :=
  in_range 9 13 c || (c =? 32)%N || (c =? 160)%N || (c =? 5760)%N
  || in_range 8192 8202 c || (c =? 8232)%N || (c =? 8233)%N
  || (c =? 8239)%N || (c =? 8287)%N || (c =? 12288)%N || (c =? 65279)%N.

(** [\w] of a regular expression without flags: [A-Za-z0-9_]. *)
Definition isWordChar (c : N) : bool :=
  in_range 65 90 c || in_range 97 122 c || in_range 48 57 c || (c =? c_underscore)%N.

Definition toLowerUnit (c : N) : N :=
  if in_range 65 90 c || in_range 192 214 c || in_range 216 222 c
  then (c + 32)%N else c.

Definition toLowerCase (s : jsstring) : jsstring := map toLowerUnit s.

Definition str_eqb (a b : jsstring) : bool := bool_decide (a = b).

Fixpoint startsWith (p s : jsstring) : bool :=
  match p, s with
  | [], _ => true
  | _ :: _, [] => false
  | a :: p', b :: s' => (a =? b)%N && startsWith p' s'
  end.

(** [s.includes(sub)] *)
Fixpoint includes (sub s : jsstring) : bool :=
  startsWith sub s ||
  match s with
  | [] => false
  | _ :: s' => includes sub s'
  end.

(** [arr.includes(x)] on an array of strings. *)
Definition arr_includes (x : jsstring) (arr : list jsstring) : bool :=
  existsb (str_eqb x) arr.

Fixpoint dropWhile {A} (f : A → bool) (l : list A) : list A :=
  match l with
  | [] => []
  | x :: r => if f x then dropWhile f r else l
  end.

(** [s.trim()] *)
Definition trim (s : jsstring) : jsstring :=
  reverse (dropWhile isWhiteSpace (reverse (dropWhile isWhiteSpace s))).

(** Decimal digits of a natural number, as in [String(n)]. *)
Fixpoint digits_fuel (fuel : nat) (n : N) (acc : jsstring) : jsstring :=
  match fuel with
  | O => acc
  | S f =>
      let acc' := (48 + n mod 10)%N :: acc in
      if (n <? 10)%N then acc' else digits_fuel f (n / 10)%N acc'
  end.

Definition N_to_string (n : N) : jsstring :=
  digits_fuel (S (N.to_nat (N.log2 n))) n [].

Definition Z_to_string (z : Z) : jsstring :=
  match z with
  | Z0 => [48%N]
  | Zpos p => N_to_string (Npos p)
  | Zneg p => c_minus :: N_to_string (Npos p)
  end.

(** ** Keyword extraction ([extractKeywords]) *)

(** The character class [[\s,.-]] of the splitting expression. *)
Definition isSeparator (c : N) : bool :=
  isWhiteSpace c || (c =? c_comma)%N || (c =? c_dot)%N || (c =? c_minus)%N.

(** [s.split(/[\s,.-]+/)]: the pieces of [s] between the maximal runs of
    separators.  [cur] is the piece being read, [inRun] tells whether the
    previous code unit belonged to a run; a run at either end of the text
    leaves an empty piece there, as in JavaScript. *)
Fixpoint split_loop (inRun : bool) (cur : jsstring) (s : jsstring) : list jsstring :=
  match s with
  | [] => [cur]
  | c :: r =>
      if isSeparator c then
        if inRun then split_loop true cur r
        else cur :: split_loop true [] r
      else split_loop false (cur ++ [c]) r
  end.

Definition split_separators (s : jsstring) : list jsstring :=
  split_loop false [] s.

Definition commonWords : list jsstring :=
  map lit
    ["the"; "a"; "an"; "and"; "or"; "but"; "in"; "on"; "at"; "to"; "for"; "of"; "with"; "by";
     "is"; "are"; "was"; "were"; "be"; "been"; "have"; "has"; "had"; "do"; "does"; "did";
     "will"; "would"; "could"; "should"; "may"; "might"; "can"; "must"; "shall";
     "this"; "that"; "these"; "those"; "i"; "you"; "he"; "she"; "it"; "we"; "they";
     "me"; "him"; "her"; "us"; "them"; "my"; "your"; "his"; "her"; "its"; "our"; "their"]%string.

(** [commonWords.has(word)] *)
Definition isCommonWord (word : jsstring) : bool := arr_includes word commonWords.

Definition keepWord (word : jsstring) : bool :=
  (2 <? length word)%nat && negb (isCommonWord word).

Section Lowering.
(** [s.toLowerCase()] of the engine. *)
Variable lowerCase : jsstring → jsstring.

Definition extractKeywords (input : jsstring) : list jsstring :=
  take 10 (List.filter keepWord (split_separators (lowerCase input))).

(** ** Relevance filter ([filterRelevantFiles]) *)

Definition hasKeyword (keywords : list jsstring) (file : jsstring) : bool :=
  let fileName := lowerCase file in
  existsb (λ keyword, includes (lowerCase keyword) fileName) keywords.

(** The [for (const file of allFiles)] loop, pushing onto [relevantFiles]. *)
Fixpoint scanFiles (keywords referencedFiles relevantFiles allFiles : list jsstring)
  : list jsstring :=
  match allFiles with
  | [] => relevantFiles
  | file :: rest =>
      if arr_includes file referencedFiles
      then scanFiles keywords referencedFiles relevantFiles rest
      else if hasKeyword keywords file
      then scanFiles keywords referencedFiles (relevantFiles ++ [file]) rest
      else scanFiles keywords referencedFiles relevantFiles rest
  end.

Definition filterRelevantFiles (userInput : jsstring)
    (referencedFiles allFiles : list jsstring) : list jsstring :=
  let keywords := extractKeywords userInput in
  let relevantFiles := [] ++ referencedFiles in
  take 20 (scanFiles keywords referencedFiles relevantFiles allFiles).

End Lowering.

(** ** Intent classifier ([extractIntent]) *)

Definition extractIntent (input : jsstring) : jsstring :=
  let lowerInput := toLowerCase input in
  let has (w : string) := includes (lit w) lowerInput in
  (if has "add" || has "create" || has "new" then lit "Create/Add new functionality"
  else if has "modify" || has "change" || has "update" then lit "Modify existing functionality"
  else if has "fix" || has "bug" || has "error" then lit "Fix bugs or errors"
  else if has "remove" || has "delete" || has "clean" then lit "Remove/Delete functionality"
  else if has "refactor" || has "improve" || has "optimize" then lit "Refactor/Improve code"
  else if has "test" || has "testing" then lit "Add or modify tests"
  else if has "document" || has "comment" || has "readme" then lit "Add or update documentation"
  else lit "General code changes")%string.

(** The classifier as the specification words it: an ordered table of
    trigger-word groups, the label of the first group with a hit, and a
    fallback label. *)
Definition intentGroups : list (list string * string) :=
  [ (["add"; "create"; "new"], "Create/Add new functionality");
    (["modify"; "change"; "update"], "Modify existing functionality");
    (["fix"; "bug"; "error"], "Fix bugs or errors");
    (["remove"; "delete"; "clean"], "Remove/Delete functionality");
    (["refactor"; "improve"; "optimize"], "Refactor/Improve code");
    (["test"; "testing"], "Add or modify tests");
    (["document"; "comment"; "readme"], "Add or update documentation") ]%string.

Definition groupHit (text : jsstring) (g : list string * string) : bool :=
  existsb (λ w, includes (lit w) text) (fst g).

Definition classifyIntent_spec (text : jsstring) : jsstring :=
  match List.find (groupHit (toLowerCase text)) intentGroups with
  | Some g => lit (snd g)
  | None => lit "General code changes"
  end.

(** ** JSON values

    The value of a number is the exact rational its literal denotes, in
    lowest terms; the rounding to a binary64 that JavaScript performs is
    modelled only where the program depends on it, in [isZeroNumber].  An
    object keeps its properties in insertion order, the order in which
    JavaScript lists the names that are not array indices. *)

#[local] Unset Elimination Schemes.
Inductive json : Type :=
| JNull
| JBool (b : bool)
| JNum (q : Q)
| JStr (s : jsstring)
| JArr (items : list json)
| JObj (fields : list (jsstring * json)).
#[local] Set Elimination Schemes.

(** A JavaScript value read out of parsed JSON: [None] is [undefined]. *)
Abbreviation jsvalue := (option json).

(** A literal rounds to zero when its magnitude is at most 2^-1075, half
    of the least positive binary64. *)
Definition isZeroNumber (q : Q) : bool :=
  Qle_bool (Qabs q) (Qmake 1 (Pos.pow 2 1075)).

(** ToBoolean *)
Definition truthy (v : jsvalue) : bool :=
  match v with
  | None => false
  | Some JNull => false
  | Some (JBool b) => b
  | Some (JNum q) => negb (isZeroNumber q)
  | Some (JStr s) => negb (bool_decide (s = []))
  | Some (JArr _) => true
  | Some (JObj _) => true
  end.

Fixpoint lookupField (name : jsstring) (fields : list (jsstring * json)) : jsvalue :=
  match fields with
  | [] => None
  | (k, v) :: rest => if str_eqb k name then Some v else lookupField name rest
  end.

(** [v.name] for a name that no prototype defines ([summary], [steps],
    [candidates], [content], [parts], [text]) and a [v] other than [null]. *)
Definition member (name : jsstring) (v : json) : jsvalue :=
  match v with
  | JObj fields => lookupField name fields
  | _ => None
  end.

(** [v[0]] for a [v] other than [null]. *)
Definition index0 (v : json) : jsvalue :=
  match v with
  | JArr items => head items
  | JStr s => match s with [] => None | c :: _ => Some (JStr [c]) end
  | JObj fields => lookupField (lit "0") fields
  | _ => None
  end.

(** Optional chaining [v?.name] and [v?.[0]]: [undefined] when [v] is
    [undefined] or [null]. *)
Definition optMember (name : jsstring) (v : jsvalue) : jsvalue :=
  match v with
  | None | Some JNull => None
  | Some x => member name x
  end.

Definition optIndex0 (v : jsvalue) : jsvalue :=
  match v with
  | None | Some JNull => None
  | Some x => index0 x
  end.

(** [Array.isArray] *)
Definition isArray (v : jsvalue) : bool :=
  match v with
  | Some (JArr _) => true
  | _ => false
  end.

(** Defining a property: a repeated name keeps its place and takes the new
    value. *)
Fixpoint obj_set (name : jsstring) (v : json) (fields : list (jsstring * json))
  : list (jsstring * json) :=
  match fields with
  | [] => [(name, v)]
  | (k, w) :: rest =>
      if str_eqb k name then (k, v) :: rest else (k, w) :: obj_set name v rest
  end.

(** ** [JSON.parse]

    The built-in of the language, written out after its grammar
    (ECMA-404): insignificant whitespace, the literals, numbers, strings
    with their escapes, arrays and objects. *)

Definition isJsonSpace (c : N) : bool :=
  (c =? c_tab)%N || (c =? c_lf)%N || (c =? c_cr)%N || (c =? c_space)%N.

Definition skip_ws (s : jsstring) : jsstring := dropWhile isJsonSpace s.

Definition isDigit (c : N) : bool := in_range 48 57 c.

Definition hexValue (c : N) : option N :=
  if isDigit c then Some (c - 48)%N
  else if in_range 97 102 c then Some (c - 87)%N
  else if in_range 65 70 c then Some (c - 55)%N
  else None.

(** The code unit a single-character escape stands for. *)
Definition unescape (e : N) : option N :=
  if (e =? c_quote)%N then Some c_quote
  else if (e =? c_backslash)%N then Some c_backslash
  else if (e =? c_slash)%N then Some c_slash
  else if (e =? 98)%N then Some 8%N
  else if (e =? 102)%N then Some 12%N
  else if (e =? 110)%N then Some c_lf
  else if (e =? 114)%N then Some c_cr
  else if (e =? 116)%N then Some c_tab
  else None.

(** The characters of a string literal after its opening quote, and what
    follows the closing quote. *)
Fixpoint parse_chars (s : jsstring) : option (jsstring * jsstring) :=
  match s with
  | [] => None
  | c :: r =>
      if (c =? c_quote)%N then Some ([], r)
      else if (c =? c_backslash)%N then
        match r with
        | [] => None
        | e :: r1 =>
            if (e =? 117)%N then
              match r1 with
              | h1 :: h2 :: h3 :: h4 :: r2 =>
                  match hexValue h1, hexValue h2, hexValue h3, hexValue h4 with
                  | Some a, Some b, Some c', Some d =>
                      match parse_chars r2 with
                      | Some (cs, rest) =>
                          Some ((a * 4096 + b * 256 + c' * 16 + d)%N :: cs, rest)
                      | None => None
                      end
                  | _, _, _, _ => None
                  end
              | _ => None
              end
            else
              match unescape e with
              | Some u =>
                  match parse_chars r1 with
                  | Some (cs, rest) => Some (u :: cs, rest)
                  | None => None
                  end
              | None => None
              end
        end
      else if (c <? 32)%N then None
      else
        match parse_chars r with
        | Some (cs, rest) => Some (c :: cs, rest)
        | None => None
        end
  end.

(** The values of a maximal run of decimal digits, and what follows. *)
Fixpoint takeDigits (s : jsstring) : list N * jsstring :=
  match s with
  | [] => ([], [])
  | c :: r =>
      if isDigit c
      then let '(ds, rest) := takeDigits r in ((c - 48)%N :: ds, rest)
      else ([], s)
  end.

Definition digitsValue (ds : list N) : N :=
  fold_left (λ acc d, acc * 10 + d)%N ds 0%N.

(** The rational [(-1)^neg * mant * 10^ex], in lowest terms. *)
Definition decimalValue (neg : bool) (mant : N) (ex : Z) : Q :=
  let m := if neg then (- Z.of_N mant)%Z else Z.of_N mant in
  Qred (if (0 <=? ex)%Z then Qmake (m * 10 ^ ex) 1
        else Qmake m (Pos.pow 10 (Z.to_pos (- ex)))).

Definition parse_sign (s : jsstring) : bool * jsstring :=
  match s with
  | c :: r => if (c =? c_minus)%N then (true, r) else (false, s)
  | [] => (false, s)
  end.

Definition parse_int (s : jsstring) : option (list N * jsstring) :=
  match s with
  | c :: r =>
      if (c =? 48)%N then Some ([0%N], r)
      else if isDigit c then Some (takeDigits s)
      else None
  | [] => None
  end.

Definition parse_frac (s : jsstring) : option (list N * jsstring) :=
  match s with
  | c :: r =>
      if (c =? c_dot)%N then
        match takeDigits r with
        | ([], _) => None
        | (ds, rest) => Some (ds, rest)
        end
      else Some ([], s)
  | [] => Some ([], s)
  end.

Definition parse_exp_sign (s : jsstring) : bool * jsstring :=
  match s with
  | c :: r =>
      if (c =? c_minus)%N then (true, r)
      else if (c =? c_plus)%N then (false, r)
      else (false, s)
  | [] => (false, s)
  end.

Definition parse_exp (s : jsstring) : option (Z * jsstring) :=
  match s with
  | c :: r =>
      if (c =? 101)%N || (c =? 69)%N then
        let '(eneg, r1) := parse_exp_sign r in
        match takeDigits r1 with
        | ([], _) => None
        | (ds, rest) =>
            let e := Z.of_N (digitsValue ds) in
            Some (if eneg then (- e)%Z else e, rest)
        end
      else Some (0%Z, s)
  | [] => Some (0%Z, s)
  end.

Definition parse_number (s : jsstring) : option (json * jsstring) :=
  let '(neg, s1) := parse_sign s in
  match parse_int s1 with
  | None => None
  | Some (ids, s2) =>
      match parse_frac s2 with
      | None => None
      | Some (fds, s3) =>
          match parse_exp s3 with
          | None => None
          | Some (ex, s4) =>
              Some (JNum (decimalValue neg (digitsValue (ids ++ fds))
                            (ex - Z.of_nat (length fds))), s4)
          end
      end
  end.

Definition parse_keyword (s : jsstring) : option (json * jsstring) :=
  if startsWith (lit "true") s then Some (JBool true, drop 4 s)
  else if startsWith (lit "false") s then Some (JBool false, drop 5 s)
  else if startsWith (lit "null") s then Some (JNull, drop 4 s)
  else None.

(** A value, the elements of an array after its first bracket, and the
    members of an object after its first brace.  Every call spends one
    unit of [fuel]; [JSON_parse] provides more than a text can use. *)
Fixpoint parse_value (fuel : nat) (s : jsstring) : option (json * jsstring) :=
  match fuel with
  | O => None
  | S f =>
      match skip_ws s with
      | [] => None
      | c :: r =>
          if (c =? c_lbrace)%N then
            match skip_ws r with
            | [] => None
            | c1 :: r1 =>
                if (c1 =? c_rbrace)%N then Some (JObj [], r1)
                else parse_members f [] r
            end
          else if (c =? c_lbracket)%N then
            match skip_ws r with
            | [] => None
            | c1 :: r1 =>
                if (c1 =? c_rbracket)%N then Some (JArr [], r1)
                else parse_elements f [] r
            end
          else if (c =? c_quote)%N then
            match parse_chars r with
            | Some (str, rest) => Some (JStr str, rest)
            | None => None
            end
          else if (c =? c_minus)%N || isDigit c then parse_number (c :: r)
          else parse_keyword (c :: r)
      end
  end
with parse_elements (fuel : nat) (acc : list json) (s : jsstring)
  : option (json * jsstring) :=
  match fuel with
  | O => None
  | S f =>
      match parse_value f s with
      | None => None
      | Some (v, rest) =>
          match skip_ws rest with
          | [] => None
          | c :: r =>
              if (c =? c_comma)%N then parse_elements f (acc ++ [v]) r
              else if (c =? c_rbracket)%N then Some (JArr (acc ++ [v]), r)
              else None
          end
      end
  end
with parse_members (fuel : nat) (acc : list (jsstring * json)) (s : jsstring)
  : option (json * jsstring) :=
  match fuel with
  | O => None
  | S f =>
      match skip_ws s with
      | [] => None
      | c :: r =>
          if (c =? c_quote)%N then
            match parse_chars r with
            | None => None
            | Some (key, rest) =>
                match skip_ws rest with
                | [] => None
                | c1 :: r1 =>
                    if (c1 =? c_colon)%N then
                      match parse_value f r1 with
                      | None => None
                      | Some (v, rest1) =>
                          match skip_ws rest1 with
                          | [] => None
                          | c2 :: r2 =>
                              if (c2 =? c_comma)%N
                              then parse_members f (obj_set key v acc) r2
                              else if (c2 =? c_rbrace)%N
                              then Some (JObj (obj_set key v acc), r2)
                              else None
                          end
                      end
                    else None
                end
            end
          else None
      end
  end.

(** [JSON.parse(text)]; [None] stands for the SyntaxError it raises. *)
Definition JSON_parse (text : jsstring) : option json :=
  match parse_value (2 * length text + 1) text with
  | Some (v, rest) =>
      match skip_ws rest with
      | [] => Some v
      | _ :: _ => None
      end
  | None => None
  end.

(** ** [JSON.stringify]

    The built-in of the language, without indentation; strings are quoted
    as QuoteJSONString of ECMAScript does. *)

Definition hexDigit (d : N) : N := if (d <? 10)%N then (48 + d)%N else (87 + d)%N.

(** [\uXXXX] with lower-case digits. *)
Definition unicodeEscape (c : N) : jsstring :=
  [c_backslash; 117%N; hexDigit (c / 4096 mod 16); hexDigit (c / 256 mod 16);
   hexDigit (c / 16 mod 16); hexDigit (c mod 16)].

Definition isHighSurrogate (c : N) : bool := in_range 55296 56319 c.
Definition isLowSurrogate (c : N) : bool := in_range 56320 57343 c.

(** One code unit that is not the first half of a surrogate pair. *)
Definition quoteUnit (c : N) : jsstring :=
  if (c =? 8)%N then [c_backslash; 98%N]
  else if (c =? c_tab)%N then [c_backslash; 116%N]
  else if (c =? c_lf)%N then [c_backslash; 110%N]
  else if (c =? 12)%N then [c_backslash; 102%N]
  else if (c =? c_cr)%N then [c_backslash; 114%N]
  else if (c =? c_quote)%N then [c_backslash; c_quote]
  else if (c =? c_backslash)%N then [c_backslash; c_backslash]
  else if (c <? 32)%N || isHighSurrogate c || isLowSurrogate c then unicodeEscape c
  else [c].

(** A surrogate pair is copied, a lone surrogate escaped. *)
Fixpoint quoteUnits (s : jsstring) : jsstring :=
  match s with
  | [] => []
  | c :: r =>
      if isHighSurrogate c then
        match r with
        | d :: r' =>
            if isLowSurrogate d then c :: d :: quoteUnits r'
            else unicodeEscape c ++ quoteUnits r
        | [] => unicodeEscape c
        end
      else quoteUnit c ++ quoteUnits r
  end.

(** QuoteJSONString *)
Definition quoteJSON (s : jsstring) : jsstring :=
  [c_quote] ++ quoteUnits s ++ [c_quote].

Fixpoint join (sep : jsstring) (parts : list jsstring) : jsstring :=
  match parts with
  | [] => []
  | [p] => p
  | p :: rest => p ++ sep ++ join sep rest
  end.

(** The integers every one of which is a binary64 and prints as its
    decimal digits. *)
Definition inSafeRange (z : Z) : bool :=
  (- (2 ^ 53 - 1) <=? z)%Z && (z <=? 2 ^ 53 - 1)%Z.

(** Number::toString on the safe integers; other numbers need the
    shortest-digits algorithm on binary64 and have no text here. *)
Definition numberToString (q : Q) : option jsstring :=
  if bool_decide (Qden q = 1%positive) && inSafeRange (Qnum q)
  then Some (Z_to_string (Qnum q))
  else None.

(** [JSON.stringify(v)] without indentation. *)
Fixpoint JSON_stringify (v : json) : option jsstring :=
  match v with
  | JNull => Some (lit "null")
  | JBool true => Some (lit "true")
  | JBool false => Some (lit "false")
  | JNum q => numberToString q
  | JStr s => Some (quoteJSON s)
  | JArr items =>
      let fix go (l : list json) : option (list jsstring) :=
        match l with
        | [] => Some []
        | x :: r =>
            match JSON_stringify x, go r with
            | Some a, Some b => Some (a :: b)
            | _, _ => None
            end
        end in
      match go items with
      | Some parts => Some ([c_lbracket] ++ join [c_comma] parts ++ [c_rbracket])
      | None => None
      end
  | JObj fields =>
      let fix go (l : list (jsstring * json)) : option (list jsstring) :=
        match l with
        | [] => Some []
        | (k, x) :: r =>
            match JSON_stringify x, go r with
            | Some a, Some b => Some ((quoteJSON k ++ [c_colon] ++ a) :: b)
            | _, _ => None
            end
        end in
      match go fields with
      | Some parts => Some ([c_lbrace] ++ join [c_comma] parts ++ [c_rbrace])
      | None => None
      end
  end.

(** ** Numbers in memory

    A number of the language is a finite value, given exactly, or one of
    the four values that have no digits.  [JSON.stringify] writes [null]
    for [NaN] and the infinities, and [0] for [-0]. *)

Inductive number : Type :=
| Finite (q : Q)
| NegativeZero
| NotANumber
| PositiveInfinity
| NegativeInfinity.

Definition integer (z : Z) : number := Finite (inject_Z z).
Coercion integer : Z >-> number.

(** The integers from [-(2^53 - 1)] to [2^53 - 1], [-0] apart. *)
Definition isSafeInteger (n : number) : bool :=
  match n with
  | Finite q => bool_decide (Qden q = 1%positive) && inSafeRange (Qnum q)
  | _ => false
  end.

(** What SerializeJSONProperty writes for a number. *)
Definition numberJSON (n : number) : json :=
  match n with
  | Finite q => JNum q
  | NegativeZero => JNum 0
  | NotANumber | PositiveInfinity | NegativeInfinity => JNull
  end.

(** ** Plans *)

Record PlanStep : Type := {
  step : number;
  action : jsstring;
  description : jsstring;
  files : option (list jsstring);
  reasoning : jsstring
}.

Inductive Complexity : Type := low | medium | high.

Record ExecutionPlan : Type := {
  summary : jsstring;
  steps : list PlanStep;
  estimatedComplexity : Complexity;
  prerequisites : list jsstring;
  risks : list jsstring
}.

Definition complexityName (c : Complexity) : jsstring :=
  match c with
  | low => lit "low"
  | medium => lit "medium"
  | high => lit "high"
  end.

(** The JSON value of a typed plan, with the keys of the wire format in
    the order of the schema; an absent [files] is an absent property.  It
    is what [JSON.stringify] writes for the plan, and the object of the
    plan itself when every step number is finite and not [-0]. *)
Definition strings_to_json (l : list jsstring) : json := JArr (map JStr l).

Definition step_to_json (s : PlanStep) : json :=
  JObj ([(lit "step", numberJSON (step s));
         (lit "action", JStr (action s));
         (lit "description", JStr (description s))]
        ++ match files s with
           | Some fs => [(lit "files", strings_to_json fs)]
           | None => []
           end
        ++ [(lit "reasoning", JStr (reasoning s))]).

Definition plan_to_json (p : ExecutionPlan) : json :=
  JObj [(lit "summary", JStr (summary p));
        (lit "steps", JArr (map step_to_json (steps p)));
        (lit "estimatedComplexity", JStr (complexityName (estimatedComplexity p)));
        (lit "prerequisites", strings_to_json (prerequisites p));
        (lit "risks", strings_to_json (risks p))].

(** ** Plan parser ([parsePlanResponse]) *)

(** [[\s\S]*\}] read greedily: the longest prefix of [s] that ends with a
    closing brace. *)
Fixpoint greedyToBrace (s : jsstring) : option jsstring :=
  match s with
  | [] => None
  | c :: r =>
      match greedyToBrace r with
      | Some t => Some (c :: t)
      | None => if (c =? c_rbrace)%N then Some [c] else None
      end
  end.

(** [llmResponse.match(/\{[\s\S]*\}/)]: the match at the leftmost position
    where one exists. *)
Fixpoint matchBraces (s : jsstring) : option jsstring :=
  match s with
  | [] => None
  | c :: r =>
      if (c =? c_lbrace)%N then
        match greedyToBrace r with
        | Some t => Some (c :: t)
        | None => matchBraces r
        end
      else matchBraces r
  end.

(** The body of the [try] block; every [throw], and the TypeError of a
    property access on [null], ends in the [catch] that returns [null]. *)
Definition parsePlanResponse (llmResponse : jsstring) : option json :=
  match matchBraces llmResponse with
  | None => None
  | Some text =>
      match JSON_parse text with
      | None => None
      | Some JNull => None
      | Some plan =>
          if negb (truthy (member (lit "summary") plan))
             || negb (truthy (member (lit "steps") plan))
             || negb (isArray (member (lit "steps") plan))
          then None
          else Some plan
      end
  end.

(** The parser as the specification words it: the span from the first
    opening brace to the last closing brace. *)
Fixpoint indexOf (c : N) (s : jsstring) : option nat :=
  match s with
  | [] => None
  | x :: r => if (x =? c)%N then Some O else S <$> indexOf c r
  end.

Fixpoint lastIndexOf (c : N) (s : jsstring) : option nat :=
  match s with
  | [] => None
  | x :: r =>
      match lastIndexOf c r with
      | Some i => Some (S i)
      | None => if (x =? c)%N then Some O else None
      end
  end.

Definition braceSpan (s : jsstring) : option jsstring :=
  match indexOf c_lbrace s, lastIndexOf c_rbrace s with
  | Some i, Some j => if (i <? j)%nat then Some (take (S j - i) (drop i s)) else None
  | _, _ => None
  end.

Definition validPlanShape (v : json) : bool :=
  truthy (member (lit "summary") v) && isArray (member (lit "steps") v).

Definition parsePlan_spec (rawText : jsstring) : option json :=
  match braceSpan rawText with
  | None => None
  | Some span =>
      match JSON_parse span with
      | Some v => if validPlanShape v then Some v else None
      | None => None
      end
  end.

(** ** The platform

    What the program reaches outside itself: the environment variable,
    the file system, the network and the tree renderer of [context.ts].
    Every call is recorded as an [Event]; the answer of a call is a
    function of the calls made so far (latest first), so that the model
    fits any file system and any upstream service.  A response of the
    upstream comes with its whole body. *)

(** A thrown value: an [Error] with its message, or some other value with
    its [String(...)] form. *)
Inductive thrown : Type :=
| ErrorObject (message : jsstring)
| OtherValue (text : jsstring).

Inductive Event : Type :=
| EvExists (path : jsstring)
| EvRead (path : jsstring)
| EvTree (rootDir : jsstring)
| EvFetch (url : jsstring) (prompt : jsstring)
| EvMkdir (dir : jsstring)
| EvWrite (path : jsstring) (content : jsstring).

Abbreviation history := (list Event).

Inductive FetchOutcome : Type :=
| Rejected (e : thrown)
| Response (status : N) (body : jsstring).

Record Platform : Type := {
  apiKey : option jsstring;
  existsSync : history → jsstring → bool;
  readFileSync : history → jsstring → thrown + jsstring;
  getFileTreeString : history → jsstring → thrown + jsstring;
  fetch : history → jsstring → jsstring → FetchOutcome;
  mkdirSync : history → jsstring → option thrown;
  writeFileSync : history → jsstring → jsstring → option thrown;
  dirname : jsstring → jsstring;
  syntaxErrorMessage : jsstring → jsstring;
  typeErrorMessage : jsstring → jsstring
}.

(** A computation that performs calls and returns or throws. *)
Definition Exec (A : Type) : Type := history → (thrown + A) * history.

Definition ret {A} (x : A) : Exec A := λ h, (inr x, h).
Definition throw {A} (e : thrown) : Exec A := λ h, (inl e, h).
Definition bind {A B} (m : Exec A) (k : A → Exec B) : Exec B :=
  λ h, match m h with
       | (inr x, h') => k x h'
       | (inl e, h') => (inl e, h')
       end.
Definition try_catch {A} (m : Exec A) (handler : thrown → Exec A) : Exec A :=
  λ h, match m h with
       | (inr x, h') => (inr x, h')
       | (inl e, h') => handler e h'
       end.

(** A platform call: the event is recorded, the answer depends on the
    calls before it. *)
Definition call {A} (ev : Event) (answer : history → thrown + A) : Exec A :=
  λ h, (answer h, ev :: h).

Declare Scope exec_scope.
Delimit Scope exec_scope with exec.
Notation "'let!' x ':=' m 'in' k" := (bind m (λ x, k))
  (at level 10, x name, m at level 200, k at level 200) : exec_scope.
Notation "'run!' m 'in' k" := (bind m (λ _, k))
  (at level 10, m at level 200, k at level 200) : exec_scope.

Definition unit_answer (o : option thrown) : thrown + unit :=
  match o with
  | Some e => inl e
  | None => inr tt
  end.

(** [error instanceof Error ? error.message : String(error)] *)
Definition errorText (e : thrown) : jsstring :=
  match e with
  | ErrorObject m => m
  | OtherValue t => t
  end.

(** ** Fence removal (shared by [createFile] and [modifyFile]) *)

Definition fence : jsstring := [c_backtick; c_backtick; c_backtick].

(** [s.replace(/^```[\w]*\n/, '')] *)
Definition removeOpeningFence (s : jsstring) : jsstring :=
  if startsWith fence s then
    match dropWhile isWordChar (drop 3 s) with
    | c :: r => if (c =? c_lf)%N then r else s
    | [] => s
    end
  else s.

Definition endsWith (p s : jsstring) : bool := startsWith (reverse p) (reverse s).

(** [s.replace(/\n```$/, '')] *)
Definition removeClosingFence (s : jsstring) : jsstring :=
  if endsWith (c_lf :: fence) s then take (length s - 4) s else s.

Definition cleanContent (content : jsstring) : jsstring :=
  let trimmed := trim content in
  if startsWith fence trimmed
  then removeClosingFence (removeOpeningFence trimmed)
  else trimmed.

Record ExecutionResult : Type := {
  totalSteps : nat;
  successCount : nat;
  failedSteps : list number
}.

Record StepResult : Type := {
  success : bool;
  message : jsstring
}.

Section Executor.
Variable pf : Platform.

Local Open Scope exec_scope.

(** *** LLM client ([callOpenRouter]) *)

Definition responseOk (status : N) : bool := in_range 200 299 status.

(** [data.candidates?.[0]?.content?.parts?.[0]?.text] *)
Definition extractContent (data : json) : jsvalue :=
  optMember (lit "text")
    (optIndex0
       (optMember (lit "parts")
          (optMember (lit "content")
             (optIndex0 (member (lit "candidates") data))))).

(** What the [try] block makes of the outcome of [fetch]. *)
Definition readResponse (outcome : FetchOutcome) : thrown + json :=
  match outcome with
  | Rejected e => inl e
  | Response status body =>
      if negb (responseOk status) then
        inl (ErrorObject (lit "Gemini API request failed (" ++ N_to_string status
                          ++ lit "): " ++ body))
      else
        match JSON_parse body with
        | None => inl (ErrorObject (syntaxErrorMessage pf body))
        | Some JNull => inl (ErrorObject (typeErrorMessage pf (lit "candidates")))
        | Some data =>
            match extractContent data with
            | Some content =>
                if truthy (Some content) then inr content
                else inl (ErrorObject (lit "No content in Gemini response"))
            | None => inl (ErrorObject (lit "No content in Gemini response"))
            end
        end
  end.

(** The [catch] block around the request. *)
Definition rethrow (e : thrown) : thrown :=
  match e with
  | ErrorObject m => ErrorObject (lit "Failed to call Gemini API: " ++ m)
  | OtherValue _ => e
  end.

(** The request body carries [prompt] and the fixed generation
    parameters (temperature 0.7, topK 40, topP 0.95, maxOutputTokens
    8192); the event records the address and the prompt. *)
Definition callOpenRouter (systemPrompt userPrompt model : jsstring) : Exec json :=
  match apiKey pf with
  | None | Some [] =>
      throw (ErrorObject (lit "GEMINI_API_KEY environment variable is not set"))
  | Some key =>
      let combinedPrompt := systemPrompt ++ [c_lf; c_lf] ++ userPrompt in
      let url := lit "https://generativelanguage.googleapis.com/v1/models/"
                 ++ model ++ lit ":generateContent?key=" ++ key in
      call (EvFetch url combinedPrompt)
        (λ h, match readResponse (fetch pf h url combinedPrompt) with
              | inl e => inl (rethrow e)
              | inr content => inr content
              end)
  end.

Definition defaultModel : jsstring := lit "gemini-2.5-pro".

(** [content.trim()] on what the client returned: a TypeError when it
    is not a string. *)
Definition trimmedClean (content : json) : Exec jsstring :=
  match content with
  | JStr s => ret (cleanContent s)
  | _ => throw (ErrorObject (typeErrorMessage pf (lit "trim")))
  end.

(** *** [createFile] *)

Definition createSystemPrompt : jsstring :=
  lit "You are a code generation assistant. Generate ONLY the code content for the file, with no explanations, markdown formatting, or comments outside the code itself. The code should be production-ready and follow best practices.".

Definition createUserPrompt (filePath : jsstring) (s : PlanStep) (fileContext : jsstring)
  : jsstring :=
  lit "Create a new file at: " ++ filePath ++ lit "

Task: " ++ action s ++ lit "
Description: " ++ description s ++ lit "
Reasoning: " ++ reasoning s ++ lit "

Project context:
" ++ fileContext ++ lit "

Generate the complete file content. Output ONLY the raw code with no markdown fences, no explanations, just the file content.".

Definition createFile (filePath : jsstring) (s : PlanStep) (rootDir : jsstring)
  : Exec unit :=
  let! fileContext := call (EvTree rootDir) (λ h, getFileTreeString pf h rootDir) in
  let! content := callOpenRouter createSystemPrompt
               (createUserPrompt filePath s fileContext) defaultModel in
  let! clean := trimmedClean content in
  let dir := dirname pf filePath in
  let! dirExists := call (EvExists dir) (λ h, inr (existsSync pf h dir)) in
  run! (if dirExists then ret tt
        else call (EvMkdir dir) (λ h, unit_answer (mkdirSync pf h dir))) in
  call (EvWrite filePath clean) (λ h, unit_answer (writeFileSync pf h filePath clean)).

(** *** [modifyFile] *)

Definition modifySystemPrompt : jsstring :=
  lit "You are a code modification assistant. You will receive the current content of a file and instructions for how to modify it. 

IMPORTANT: Return ONLY the complete, modified file content. Do not use markdown code fences, do not add explanations, do not add comments about what you changed. Just output the raw, complete file content with the modifications applied.".

Definition modifyUserPrompt (filePath : jsstring) (s : PlanStep)
    (fileContext currentContent : jsstring) : jsstring :=
  lit "Modify the file at: " ++ filePath ++ lit "

Task: " ++ action s ++ lit "
Description: " ++ description s ++ lit "
Reasoning: " ++ reasoning s ++ lit "

Project context:
" ++ fileContext ++ lit "

Current file content:
" ++ currentContent ++ lit "

Generate the COMPLETE modified file content with the requested changes applied. Output ONLY the raw code with no markdown fences, no explanations, just the complete file content.".

Definition modifyFile (filePath : jsstring) (s : PlanStep) (rootDir : jsstring)
  : Exec unit :=
  let! currentContent := call (EvRead filePath) (λ h, readFileSync pf h filePath) in
  let! fileContext := call (EvTree rootDir) (λ h, getFileTreeString pf h rootDir) in
  let! modifiedContent := callOpenRouter modifySystemPrompt
                       (modifyUserPrompt filePath s fileContext currentContent)
                       defaultModel in
  let! clean := trimmedClean modifiedContent in
  call (EvWrite filePath clean) (λ h, unit_answer (writeFileSync pf h filePath clean)).

(** *** [executeStep] *)

(** The [for (const filePath of step.files)] loop. *)
Fixpoint processFiles (s : PlanStep) (rootDir : jsstring) (paths : list jsstring)
  : Exec unit :=
  match paths with
  | [] => ret tt
  | filePath :: rest =>
      let fullPath := rootDir ++ [c_slash] ++ filePath in
      let! fileExists := call (EvExists fullPath) (λ h, inr (existsSync pf h fullPath)) in
      run! (if fileExists then modifyFile fullPath s rootDir
            else createFile fullPath s rootDir) in
      processFiles s rootDir rest
  end.

Definition executeStep (s : PlanStep) (rootDir : jsstring) : Exec StepResult :=
  try_catch
    (match files s with
     | None | Some [] =>
         ret {| success := true;
                message := lit "No files to modify (documentation or verification step)" |}
     | Some paths =>
         run! processFiles s rootDir paths in
         ret {| success := true;
                message := lit "Successfully completed: " ++ action s |}
     end)
    (λ error, ret {| success := false; message := errorText error |}).

(** *** [executePlan] *)

(** The [for (const step of plan.steps)] loop with its [break]. *)
Fixpoint runSteps (rootDir : jsstring) (continueOnError : bool)
    (results : ExecutionResult) (remaining : list PlanStep) : Exec ExecutionResult :=
  match remaining with
  | [] => ret results
  | s :: rest =>
      let! result := executeStep s rootDir in
      if success result then
        runSteps rootDir continueOnError
          {| totalSteps := totalSteps results;
             successCount := S (successCount results);
             failedSteps := failedSteps results |} rest
      else
        let results' :=
          {| totalSteps := totalSteps results;
             successCount := successCount results;
             failedSteps := failedSteps results ++ [step s] |} in
        if negb continueOnError then ret results'
        else runSteps rootDir continueOnError results' rest
  end.

Definition executePlan (plan : ExecutionPlan) (rootDir : jsstring)
    (continueOnError : bool) : Exec ExecutionResult :=
  runSteps rootDir continueOnError
    {| totalSteps := length (steps plan); successCount := 0; failedSteps := [] |}
    (steps plan).

End Executor.

(** ** Splitting on runs, as the specification words it

    A text splits into pieces free of separators, two consecutive pieces
    being parted by one maximal, non-empty run of separators. *)

Definition unseparated (piece : jsstring) : Prop :=
  Forall (λ c, isSeparator c = false) piece.

Definition startsUnseparated (s : jsstring) : Prop :=
  match s with
  | [] => True
  | c :: _ => isSeparator c = false
  end.

Inductive SplitOnRuns : jsstring → list jsstring → Prop :=
| split_last piece :
    unseparated piece → SplitOnRuns piece [piece]
| split_run piece run rest pieces :
    unseparated piece →
    run ≠ [] →
    Forall (λ c, isSeparator c = true) run →
    startsUnseparated rest →
    SplitOnRuns rest pieces →
    SplitOnRuns (piece ++ run ++ rest) (piece :: pieces).

(** A token survives when it is longer than two code units and is no
    stop word. *)
Definition survives (word : jsstring) : Prop :=
  2 < length word ∧ word ∉ commonWords.

#[local] Instance survives_dec word : Decision (survives word) :=
  and_dec (decide (2 < length word)) (decide (word ∉ commonWords)).

(** ** What the executor writes *)

Definition noEdgeWhitespace (content : jsstring) : Prop :=
  (∀ c, head content = Some c → isWhiteSpace c = false)
  ∧ (∀ c, last content = Some c → isWhiteSpace c = false).

(** [raw] is a text the client obtained from the upstream during the run
    that led to the history [h]. *)
Definition llmReturned (pf : Platform) (h : history) (raw : jsstring) : Prop :=
  ∃ before url prompt,
    (EvFetch url prompt :: before) `suffix_of` h
    ∧ readResponse pf (fetch pf before url prompt) = inr (JStr raw).

(** The calls made from [h] to [h']: every file written holds the cleaned
    form of a text the upstream returned. *)
Definition writesCleaned (pf : Platform) (h h' : history) : Prop :=
  ∃ new, h' = new ++ h
    ∧ ∀ p c, EvWrite p c ∈ new →
        ∃ raw, llmReturned pf h' raw ∧ c = cleanContent raw.

(** An error message embeds the status and the body of the response. *)
Definition embedsStatusAndBody (msg : jsstring) (status : N) (body : jsstring) : bool :=
  includes (N_to_string status) msg && includes body msg.

(** ** Serialization: auxiliary notions *)

(** A code unit that the serializer copies and the parser takes as it
    is. *)
Definition plainUnit (c : N) : bool :=
  negb (c =? c_quote)%N && negb (c =? c_backslash)%N && negb (c <? 32)%N.

(** What may follow a value inside a serialized document. *)
Definition delimited (rest : jsstring) : Prop :=
  match rest with
  | [] => True
  | c :: _ => c = c_comma ∨ c = c_rbracket ∨ c = c_rbrace
  end.

Definition digitOf (c : N) : N := (c - 48)%N.

(** The texts of the items of an array and of the members of an object,
    as [JSON_stringify] computes them. *)
Definition stringifyAll (items : list json) : option (list jsstring) :=
  (fix go (l : list json) : option (list jsstring) :=
     match l with
     | [] => Some []
     | x :: r =>
         match JSON_stringify x, go r with
         | Some a, Some b => Some (a :: b)
         | _, _ => None
         end
     end) items.

Definition stringifyFields (fields : list (jsstring * json)) : option (list jsstring) :=
  (fix go (l : list (jsstring * json)) : option (list jsstring) :=
     match l with
     | [] => Some []
     | (k, x) :: r =>
         match JSON_stringify x, go r with
         | Some a, Some b => Some ((quoteJSON k ++ [c_colon] ++ a) :: b)
         | _, _ => None
         end
     end) fields.

(** An object of JavaScript has no two properties of one name. *)
#[local] Unset Elimination Schemes.
Inductive json_wf : json → Prop :=
| wf_null : json_wf JNull
| wf_bool b : json_wf (JBool b)
| wf_num q : json_wf (JNum q)
| wf_str s : json_wf (JStr s)
| wf_arr items : Forall json_wf items → json_wf (JArr items)
| wf_obj fields :
    NoDup (map fst fields) →
    Forall (λ kv, json_wf (snd kv)) fields →
    json_wf (JObj fields).
#[local] Set Elimination Schemes.

(** Induction on a JSON value, with the hypothesis on every item of an
    array and on every member of an object. *)
Definition json_nested_ind (P : json → Prop)
    (Hnull : P JNull) (Hbool : ∀ b, P (JBool b)) (Hnum : ∀ q, P (JNum q))
    (Hstr : ∀ s, P (JStr s))
    (Harr : ∀ items, Forall P items → P (JArr items))
    (Hobj : ∀ fields, Forall (λ kv, P (snd kv)) fields → P (JObj fields))
  : ∀ v, P v :=
  fix F (v : json) : P v :=
    match v with
    | JNull => Hnull
    | JBool b => Hbool b
    | JNum q => Hnum q
    | JStr s => Hstr s
    | JArr items =>
        Harr items
          ((fix G (l : list json) : Forall P l :=
              match l with
              | [] => @List.Forall_nil _ P
              | x :: r => @List.Forall_cons _ P x r (F x) (G r)
              end) items)
    | JObj fields =>
        Hobj fields
          ((fix G (l : list (jsstring * json)) : Forall (λ kv, P (snd kv)) l :=
              match l with
              | [] => @List.Forall_nil _ (λ kv, P (snd kv))
              | (k, x) :: r =>
                  @List.Forall_cons _ (λ kv, P (snd kv)) (k, x) r (F x) (G r)
              end) fields)
    end.

(** A code unit a serialized value may begin with. *)
Definition valueStart (c : N) : Prop :=
  isJsonSpace c = false ∧ c ≠ c_rbracket ∧ c ≠ c_rbrace.

(** Serializing [v] and parsing the text, whatever delimiter follows,
    gives [v] back, with any fuel beyond twice the length of the text. *)
Definition roundtrips (v : json) : Prop :=
  ∀ t, JSON_stringify v = Some t →
  ∀ rest fuel, delimited rest → 2 * length t + 1 ≤ fuel →
  parse_value fuel (t ++ rest) = Some (v, rest).

(** ** A simulated platform

    A file system replayed from the recorded writes over an initial
    content, a fixed credential and an upstream that answers every
    request alike.  It serves to run the executor on concrete plans. *)

Fixpoint replayFiles (initial : gmap jsstring jsstring) (h : history)
  : gmap jsstring jsstring :=
  match h with
  | [] => initial
  | EvWrite p c :: older => <[p := c]> (replayFiles initial older)
  | _ :: older => replayFiles initial older
  end.

Fixpoint replayDirs (initial : gset jsstring) (h : history) : gset jsstring :=
  match h with
  | [] => initial
  | EvMkdir d :: older => {[d]} ∪ replayDirs initial older
  | _ :: older => replayDirs initial older
  end.

(** The path up to its last slash. *)
Definition simDirname (p : jsstring) : jsstring :=
  match dropWhile (λ c, negb (c =? c_slash)%N) (reverse p) with
  | [] => lit "."
  | _ :: r => reverse r
  end.

Definition simPlatform (key : option jsstring) (files : gmap jsstring jsstring)
    (dirs : gset jsstring) (reply : FetchOutcome) : Platform :=
  {| apiKey := key;
     existsSync h p :=
       bool_decide (is_Some (replayFiles files h !! p))
       || bool_decide (p ∈ replayDirs dirs h);
     readFileSync h p :=
       match replayFiles files h !! p with
       | Some c => inr c
       | None => inl (ErrorObject (lit "ENOENT: no such file or directory"))
       end;
     getFileTreeString h root := inr (lit "File Tree");
     fetch h url prompt := reply;
     mkdirSync h d := None;
     writeFileSync h p c :=
       if bool_decide (simDirname p ∈ replayDirs dirs h) then None
       else Some (ErrorObject (lit "ENOENT: no such file or directory"));
     dirname := simDirname;
     syntaxErrorMessage text := lit "Unexpected token";
     typeErrorMessage what := lit "not a function" |}.

(** A platform without a credential and an empty work tree. *)
Definition noKeyPlatform : Platform :=
  simPlatform None ∅ {[lit "/w/src"]} (Rejected (ErrorObject (lit "fetch failed"))).

(** A platform with a credential whose upstream answers every request
    with [reply]; the directory [/w/src] exists. *)
Definition replyPlatform (reply : FetchOutcome) : Platform :=
  simPlatform (Some (lit "k")) ∅ {[lit "/w/src"]} reply.

(** An answer that wraps the code in a fence, with a blank line after the
    opening fence. *)
Definition fencedAnswer : jsstring :=
  lit "```ts

 let x = 1;
```
".

(** The body of a successful upstream answer whose text is [text]. *)
Definition geminiBody (text : jsstring) : jsstring :=
  jlit "{'candidates':[{'content':{'parts':[{'text':" ++ quoteJSON text ++ lit "}]}}]}".

Definition docStep (n : Z) : PlanStep :=
  {| step := n; action := lit "Review"; description := lit "Read the notes";
     files := Some []; reasoning := lit "Nothing to write" |}.

Definition fileStep (n : Z) (path : string) : PlanStep :=
  {| step := n; action := lit "Write"; description := lit "Write the file";
     files := Some [lit path]; reasoning := lit "It is needed" |}.


Definition samplePlan : ExecutionPlan :=
  {| summary := lit "x";
     steps := [docStep 1; fileStep 2 "src/a.ts"; docStep 3];
     estimatedComplexity := low;
     prerequisites := [];
     risks := [lit "none"] |}.

(** ** The calls of a computation *)

(** From any history, every call [m] makes satisfies [P]. *)
Definition callsOnly {A} (P : Event → Prop) (m : Exec A) : Prop :=
  ∀ h, ∃ new, snd (m h) = new ++ h ∧ Forall P new.

(** Calls that change nothing and reach no upstream. *)
Definition readOnlyEvent (ev : Event) : Prop :=
  match ev with
  | EvExists _ | EvRead _ | EvTree _ => True
  | EvFetch _ _ | EvMkdir _ | EvWrite _ _ => False
  end.

(** The address of a request for [model] with the credential [key]. *)
Definition geminiUrl (model key : jsstring) : jsstring :=
  lit "https://generativelanguage.googleapis.com/v1/models/"
  ++ model ++ lit ":generateContent?key=" ++ key.

(** The calls that concern the paths [listed] only: a check, a read or a
    write of such a path, a check or a creation of its directory, the
    tree of [rootDir], a request for the default model. *)
Definition touchesOnly (pf : Platform) (listed : jsstring → Prop) (rootDir : jsstring)
    (ev : Event) : Prop :=
  match ev with
  | EvExists p => listed p ∨ ∃ q, listed q ∧ p = dirname pf q
  | EvRead p => listed p
  | EvTree r => r = rootDir
  | EvFetch url _ => ∃ key, apiKey pf = Some key ∧ url = geminiUrl defaultModel key
  | EvMkdir d => ∃ q, listed q ∧ d = dirname pf q
  | EvWrite p _ => listed p
  end.

(** The paths a plan lists, under [rootDir]. *)
Definition listedPath (plan : ExecutionPlan) (rootDir path : jsstring) : Prop :=
  ∃ s fs f, s ∈ steps plan ∧ files s = Some fs ∧ f ∈ fs
            ∧ path = rootDir ++ [c_slash] ++ f.

(** The answer of the upstream, as a value: one candidate whose content
    has one part with the text. *)
Definition geminiAnswer (text : jsstring) : json :=
  JObj [(lit "candidates",
         JArr [JObj [(lit "content",
                      JObj [(lit "parts", JArr [JObj [(lit "text", JStr text)]])])]])].

(** A step that lists at least one file. *)
Definition listsFiles (s : PlanStep) : bool :=
  match files s with
  | Some (_ :: _) => true
  | _ => false
  end.

(** A platform with a credential, the file [/w/src/a.ts] in place, and an
    upstream that answers every request with [reply]. *)
Definition editPlatform (reply : FetchOutcome) : Platform :=
  simPlatform (Some (lit "k")) {[ lit "/w/src/a.ts" := lit "let x = 0;" ]}
    {[lit "/w/src"]} reply.

(** A step on three paths, the second of which is a directory. *)
Definition threeFileStep : PlanStep :=
  {| step := 1%Z; action := lit "Write"; description := lit "Write the files";
     files := Some [lit "src/a.ts"; lit "src"; lit "src/b.ts"];
     reasoning := lit "They are needed" |}.

(** ** The line editor ([smartInput] of src/src/index.ts)

    The handler of the [data] events of the terminal in raw mode, on the
    state it closes over: the text typed so far and the place of the
    cursor in it.  The file the autocomplete prompt answers when [@] is
    typed is given with the key.  Redrawing the line is console output. *)

Abbreviation c_at := 64%N.

Record LineState : Type := {
  buffer : jsstring;
  cursorPos : nat
}.

(** How a call of the handler ends: the process exits (Ctrl+C), the
    promise of [smartInput] resolves with the line (Enter), or the handler
    returns and keeps listening. *)
Inductive KeyOutcome : Type :=
| ProcessExit
| Resolved (line : jsstring)
| Listening (st : LineState).

(** [key.length === 1 && key >= ' ' && key <= '~'] *)
Definition isRegularKey (key : jsstring) : bool :=
  match key with
  | [c] => (c_space <=? c)%N && (c <=? 126)%N
  | _ => false
  end.

Definition keyCtrlC : jsstring := [3%N].
Definition keyDelete : jsstring := [127%N].
Definition keyBackspace : jsstring := [8%N].
Definition keyLeft : jsstring := [27%N; 91%N; 68%N].
Definition keyRight : jsstring := [27%N; 91%N; 67%N].

Definition keyHandler (selectedFile : jsstring) (st : LineState) (key : jsstring)
  : KeyOutcome :=
  let buf := buffer st in
  let pos := cursorPos st in
  if str_eqb key keyCtrlC then ProcessExit
  else if str_eqb key [c_cr] || str_eqb key [c_lf] then Resolved buf
  else if str_eqb key keyDelete || str_eqb key keyBackspace then
    if (0 <? pos)%nat
    then Listening {| buffer := take (pos - 1) buf ++ drop pos buf; cursorPos := pos - 1 |}
    else Listening st
  else if str_eqb key keyLeft then
    Listening {| buffer := buf; cursorPos := if (0 <? pos)%nat then pos - 1 else pos |}
  else if str_eqb key keyRight then
    Listening {| buffer := buf;
                 cursorPos := if (pos <? length buf)%nat then pos + 1 else pos |}
  else if str_eqb key [c_at] then
    Listening {| buffer := take pos buf ++ [c_at] ++ selectedFile ++ drop pos buf;
                 cursorPos := pos + (length selectedFile + 1) |}
  else if isRegularKey key then
    Listening {| buffer := take pos buf ++ key ++ drop pos buf; cursorPos := pos + 1 |}
  else Listening st.

(** The handler on the keys of a session, each with the answer the
    autocomplete prompt would give; the listener is removed when the
    process exits or the promise resolves. *)
Fixpoint handleKeys (st : LineState) (keys : list (jsstring * jsstring)) : KeyOutcome :=
  match keys with
  | [] => Listening st
  | (key, selectedFile) :: rest =>
      match keyHandler selectedFile st key with
      | Listening st' => handleKeys st' rest
      | ended => ended
      end
  end.

Definition smartInput (keys : list (jsstring * jsstring)) : KeyOutcome :=
  handleKeys {| buffer := []; cursorPos := 0 |} keys.

(** The keys that type [text], a code unit at a time. *)
Definition typed (text : jsstring) : list (jsstring * jsstring) :=
  map (λ c, ([c], [])) text.

(** A code unit that a key can type: printable and not the [@] that
    opens the prompt. *)
Definition typable (c : N) : bool :=
  (c_space <=? c)%N && (c <=? 126)%N && negb (c =? c_at)%N.

Definition printable (c : N) : Prop := (c_space ≤ c ≤ 126)%N.

(** ** File mentions ([interactivePrompt] of src/src/index.ts) *)

(** [userInput.match(/@([^\s]+)/g)], the empty list standing for [null]:
    the scan from left to right, [cur] being the match that is open.  A
    match opens at an [@] that a code unit other than whitespace follows
    and runs up to the next whitespace. *)
Fixpoint scanMentions (cur : option jsstring) (s : jsstring) : list jsstring :=
  match s with
  | [] => match cur with Some m => [m] | None => [] end
  | c :: r =>
      match cur with
      | Some m =>
          if isWhiteSpace c then m :: scanMentions None r
          else scanMentions (Some (m ++ [c])) r
      | None =>
          if (c =? c_at)%N then
            match r with
            | c' :: _ =>
                if isWhiteSpace c' then scanMentions None r
                else scanMentions (Some [c]) r
            | [] => []
            end
          else scanMentions None r
      end
  end.

Definition matchMentions (userInput : jsstring) : list jsstring :=
  scanMentions None userInput.

(** [fileMatches.map(match => match.substring(1))] *)
Definition referencedFilesOf (userInput : jsstring) : list jsstring :=
  map (drop 1) (matchMentions userInput).

(** What the loop of [interactivePrompt] does with a line: it ends the
    session, asks again, or plans the request with the files the line
    mentions. *)
Inductive Command : Type :=
| EndSession
| AskAgain
| PlanRequest (userInput : jsstring) (referencedFiles : list jsstring).

Definition interpretInput (userInput : jsstring) : Command :=
  let trimmedInput := toLowerCase (trim userInput) in
  if str_eqb trimmedInput (lit "exit") || str_eqb trimmedInput (lit "quit")
  then EndSession
  else if bool_decide (trim userInput = []) then AskAgain
  else PlanRequest userInput (referencedFilesOf userInput).

(** ** The work tree ([context.ts], and [getAllFiles] of [index.ts])

    What [readdirSync] and [statSync] tell: a directory is the list of its
    entries in the order [readdirSync] gives them, every entry a file or a
    directory again.  The tree is finite and every directory can be read.
    The functions are taken at the working directory, where every caller
    runs them, so that [relative(process.cwd(), join(dirPath, item))] is
    the names from the root down, joined by slashes. *)

#[local] Unset Elimination Schemes.
Inductive Node : Type :=
| FileNode
| DirNode (entries : list (jsstring * Node)).
#[local] Set Elimination Schemes.

Abbreviation Entries := (list (jsstring * Node)).

Definition Node_nested_ind (P : Node → Prop)
    (Hfile : P FileNode)
    (Hdir : ∀ entries, Forall (λ e, P (snd e)) entries → P (DirNode entries))
  : ∀ n, P n :=
  fix F (n : Node) : P n :=
    match n with
    | FileNode => Hfile
    | DirNode entries =>
        Hdir entries
          ((fix G (l : Entries) : Forall (λ e, P (snd e)) l :=
              match l with
              | [] => @List.Forall_nil _ (λ e, P (snd e))
              | (k, x) :: r => @List.Forall_cons _ (λ e, P (snd e)) (k, x) r (F x) (G r)
              end) entries)
    end.

(** The path of [item] in the directory of path [rel]; the root has the
    empty path. *)
Definition childPath (rel item : jsstring) : jsstring :=
  match rel with
  | [] => item
  | _ :: _ => rel ++ [c_slash] ++ item
  end.

(** [!['node_modules', 'dist', '.git'].includes(item) && !item.startsWith('.')] *)
Definition keepsItem (item : jsstring) : bool :=
  negb (arr_includes item [lit "node_modules"; lit "dist"; lit ".git"])
  && negb (startsWith (lit ".") item).

(** [items.forEach((item, index) => ...)] on the entries the filter keeps,
    [count] being [items.length]: [body] gets whether
    [index === items.length - 1], the name and the entry. *)
Fixpoint eachKept {B} (body : bool → jsstring → Node → list B) (count index : nat)
    (items : Entries) : list B :=
  match items with
  | [] => []
  | (item, child) :: rest =>
      if keepsItem item
      then body (index =? count - 1)%nat item child ++ eachKept body count (S index) rest
      else eachKept body count index rest
  end.

Definition forEachKept {B} (body : bool → jsstring → Node → list B) (entries : Entries)
  : list B :=
  eachKept body (length (List.filter (λ e, keepsItem (fst e)) entries)) 0 entries.

(** *** [getFileList] *)

(** What [scanDir] does with the item at [path]. *)
Fixpoint scanItem (path : jsstring) (n : Node) : list jsstring :=
  match n with
  | DirNode entries =>
      forEachKept (λ _ item child, scanItem (childPath path item) child) entries
  | FileNode => [path]
  end.

Definition scanDir (rel : jsstring) (entries : Entries) : list jsstring :=
  forEachKept (λ _ item child, scanItem (childPath rel item) child) entries.

(** The order of the default comparison of [sort]: by code units. *)
Fixpoint str_leb (a b : jsstring) : bool :=
  match a, b with
  | [], _ => true
  | _ :: _, [] => false
  | x :: a', y :: b' => (x <? y)%N || ((x =? y)%N && str_leb a' b')
  end.

Definition str_le (a b : jsstring) : Prop := str_leb a b = true.

#[local] Instance str_le_dec a b : Decision (str_le a b) :=
  decide (str_leb a b = true).

Definition getFileList (root : Entries) : list jsstring :=
  merge_sort str_le (scanDir [] root).

(** *** [getFileTreeString] *)

Definition connectorLast : jsstring := [9492%N; 9472%N; 9472%N; c_space].
Definition connectorMiddle : jsstring := [9500%N; 9472%N; 9472%N; c_space].
Definition prefixLast : jsstring := lit "    ".
Definition prefixMiddle : jsstring := [9474%N; c_space; c_space; c_space].
Definition folderIcon : jsstring := [55357%N; 56513%N].
Definition pageIcon : jsstring := [55357%N; 56516%N].

(** What the loop of [buildTree] adds for an item. *)
Fixpoint treeItem (prefix : jsstring) (isLast : bool) (item : jsstring) (n : Node)
  : jsstring :=
  let connector := if isLast then connectorLast else connectorMiddle in
  let nextPrefix := prefix ++ (if isLast then prefixLast else prefixMiddle) in
  match n with
  | DirNode entries =>
      (prefix ++ connector ++ folderIcon ++ [c_space] ++ item ++ [c_lf])
      ++ forEachKept (treeItem nextPrefix) entries
  | FileNode => prefix ++ connector ++ pageIcon ++ [c_space] ++ item ++ [c_lf]
  end.

Definition buildTreeString (prefix : jsstring) (entries : Entries) : jsstring :=
  forEachKept (treeItem prefix) entries.

(** [getFileTreeString] on the work tree; the field of that name of the
    platform is what the executor sees of it. *)
Definition fileTreeString (rootDir : jsstring) (root : Entries) : jsstring :=
  lit "File Tree (" ++ rootDir ++ lit ")" ++ [c_lf]
  ++ replicate 50 61%N ++ [c_lf] ++ buildTreeString [] root.

(** *** [getFileTree] *)

(** The object of an item. *)
Fixpoint treeObject (path item : jsstring) (n : Node) : json :=
  match n with
  | DirNode entries =>
      JObj [(lit "name", JStr item); (lit "path", JStr path);
            (lit "isDirectory", JBool true);
            (lit "children",
             JArr (forEachKept
                     (λ _ name child, [treeObject (childPath path name) name child])
                     entries))]
  | FileNode =>
      JObj [(lit "name", JStr item); (lit "path", JStr path);
            (lit "isDirectory", JBool false)]
  end.

Definition getFileTree (root : Entries) : list json :=
  forEachKept (λ _ name child, [treeObject (childPath [] name) name child]) root.

(** *** [getAllFiles] and [searchFiles] of [index.ts] *)







(** The tree without the entries the filter of [context.ts] drops. *)
Fixpoint pruneNode (n : Node) : Node :=
  match n with
  | DirNode entries =>
      DirNode (forEachKept (λ _ item child, [(item, pruneNode child)]) entries)
  | FileNode => FileNode
  end.

Definition pruneHidden (root : Entries) : Entries :=
  forEachKept (λ _ item child, [(item, pruneNode child)]) root.

(** A work tree with housekeeping entries, and the same tree without
    them. *)
Definition sampleTree : Entries :=
  [(lit "src", DirNode [(lit "index.ts", FileNode); (lit "api.ts", FileNode);
                        (lit ".cache", DirNode [(lit "x.json", FileNode)])]);
   (lit "node_modules", DirNode [(lit "chalk", DirNode [(lit "index.js", FileNode)])]);
   (lit ".env", FileNode);
   (lit "README.md", FileNode);
   (lit "dist", DirNode [(lit "index.js", FileNode)])].

Definition sampleTreeBare : Entries :=
  [(lit "src", DirNode [(lit "index.ts", FileNode); (lit "api.ts", FileNode)]);
   (lit "README.md", FileNode)].

(** ** Prompts of the planner ([generatePlanPrompts]) *)

Record LLMPrompts : Type := {
  systemPrompt : jsstring;
  userPrompt : jsstring
}.

Abbreviation c_arrow := 8594%N.

(** [files.map(f => `- ${f}`).join('\n')] *)
Definition bulletList (files : list jsstring) : jsstring :=
  join [c_lf] (map (λ f, lit "- " ++ f) files).

Definition planSystemPrompt (fileTree fileContext relevantFilesContext : jsstring)
  : jsstring :=
  lit "You are an expert software development assistant. Produce a precise, actionable implementation plan for code changes.

Codebase context (file tree):

" ++ fileTree ++ lit "

Additional context:
" ++ fileContext ++ relevantFilesContext ++ lit "

Strict requirements for your plan:
- Output MUST be valid JSON matching the schema below (no extra text).
- Reference concrete file paths that exist in the tree when modifying files.
- If creating files, include full relative paths and initial content outline.
- Order steps to resolve dependencies first (types " ++ [c_arrow] ++ lit " utils "
  ++ [c_arrow] ++ lit " features " ++ [c_arrow] ++ lit " CLI/UI " ++ [c_arrow]
  ++ jlit " docs/tests).
- Call out risky operations and how to validate success after each step.
- Prefer minimal edits with maximum impact; avoid speculative changes.

JSON schema (use exactly these keys):
{
  'summary': string,
  'steps': [
    {
      'step': number,
      'action': string,
      'description': string,
      'files': string[],
      'reasoning': string
    }
  ],
  'estimatedComplexity': 'low' | 'medium' | 'high',
  'prerequisites': string[],
  'risks': string[]
}".

Definition planUserPrompt (userInput intent : jsstring) : jsstring :=
  jlit "User Request: '" ++ userInput ++ jlit "'

Intent: " ++ intent ++ jlit "

Please return ONLY the JSON object adhering to the schema. When you list files, prefer those under src/, and reference exact paths from the provided tree. For each step, include a brief validation note inside 'description' about how to verify the change (e.g., build command, type-check, or quick runtime test). If you are uncertain about a file, propose the safest minimal change and note assumptions in 'reasoning'.".

(** Called without [rootDir], as [index.ts] calls it: the directory is
    the working directory [cwd], whose work tree is [root]. *)
Definition generatePlanPrompts (lowerCase : jsstring → jsstring) (root : Entries)
    (cwd userInput : jsstring) (referencedFiles : list jsstring) : LLMPrompts :=
  let fileTree := fileTreeString cwd root in
  let allFiles := getFileList root in
  let relevantFiles := filterRelevantFiles lowerCase userInput referencedFiles allFiles in
  let intent := extractIntent userInput in
  let fileContext :=
    match referencedFiles with
    | [] => []
    | _ :: _ => [c_lf; c_lf] ++ lit "Referenced Files:" ++ [c_lf]
                ++ bulletList referencedFiles
    end in
  let relevantFilesContext :=
    match relevantFiles with
    | [] => []
    | _ :: _ => [c_lf; c_lf] ++ lit "Potentially Relevant Files:" ++ [c_lf]
                ++ bulletList relevantFiles
    end in
  {| systemPrompt := planSystemPrompt fileTree fileContext relevantFilesContext;
     userPrompt := planUserPrompt userInput intent |}.

(** ** Stored configuration (src/unnamed/part_000)

    [configDir] and [configFile] are the paths the module computes when it
    is loaded, [envApiUrl] is [process.env.CODEBANGER_API_URL]. *)

Section Config.
Variable pf : Platform.
Variables configDir configFile : jsstring.
Variable envApiUrl : option jsstring.

Local Open Scope exec_scope.

Definition ensureConfigDir : Exec unit :=
  let! present := call (EvExists configDir) (λ h, inr (existsSync pf h configDir)) in
  if negb present
  then call (EvMkdir configDir) (λ h, unit_answer (mkdirSync pf h configDir))
  else ret tt.

(** The [catch] logs the error and returns the empty object. *)
Definition readConfig : Exec json :=
  run! ensureConfigDir in
  let! present := call (EvExists configFile) (λ h, inr (existsSync pf h configFile)) in
  if negb present then ret (JObj [])
  else
    try_catch
      (let! data := call (EvRead configFile) (λ h, readFileSync pf h configFile) in
       match JSON_parse data with
       | Some config => ret config
       | None => throw (ErrorObject (syntaxErrorMessage pf data))
       end)
      (λ _, ret (JObj [])).

(** [config.name]: a TypeError on [null]. *)
Definition configProperty (name : jsstring) (config : json) : Exec jsvalue :=
  match config with
  | JNull => throw (ErrorObject (typeErrorMessage pf name))
  | _ => ret (member name config)
  end.

(** [v || w] *)
Definition orElse (v : jsvalue) (w : jsvalue) : jsvalue :=
  if truthy v then v else w.

(** [config.authToken || null] *)
Definition getAuthToken : Exec json :=
  let! config := readConfig in
  let! authToken := configProperty (lit "authToken") config in
  ret (default JNull (orElse authToken (Some JNull))).

(** [config.apiUrl || process.env.CODEBANGER_API_URL || 'http://localhost:3000'] *)
Definition getApiUrl : Exec json :=
  let! config := readConfig in
  let! apiUrl := configProperty (lit "apiUrl") config in
  ret (default JNull
         (orElse (orElse apiUrl (JStr <$> envApiUrl))
            (Some (JStr (lit "http://localhost:3000"))))).

(** [getAuthToken() !== null] *)
Definition isAuthenticated : Exec bool :=
  let! token := getAuthToken in
  ret (match token with JNull => false | _ => true end).

(** [{...(config.email ? { email: config.email } : {})}] *)
Definition getUserInfo : Exec json :=
  let! config := readConfig in
  let! email := configProperty (lit "email") config in
  ret (JObj (match email with
             | Some v => if truthy email then [(lit "email", v)] else []
             | None => []
             end)).

End Config.

Definition isWrite (ev : Event) : Prop :=
  match ev with EvWrite _ _ => True | _ => False end.

(** ** Polling for the login ([pollForAuth] of src/src/api.ts)

    From the address [apiUrl] that [getApiUrl] gave.  A request without a
    body is recorded with an empty text; the wait of two seconds before
    each request is not recorded. *)

Section Poll.
Variable pf : Platform.

Local Open Scope exec_scope.

(** What an iteration makes of the outcome of its request: [data.token]
    when the body parses and [data.authenticated && data.token] holds,
    nothing when that fails or anything throws. *)
Definition pollAnswer (outcome : FetchOutcome) : option json :=
  match outcome with
  | Rejected _ => None
  | Response _ body =>
      match JSON_parse body with
      | None | Some JNull => None
      | Some data =>
          if truthy (member (lit "authenticated") data)
             && truthy (member (lit "token") data)
          then member (lit "token") data
          else None
      end
  end.

Fixpoint pollLoop (url : jsstring) (remaining : nat) : Exec json :=
  match remaining with
  | O => throw (ErrorObject (lit "Authentication timeout - magic link was not clicked"))
  | S later =>
      let! answer := call (EvFetch url []) (λ h, inr (pollAnswer (fetch pf h url []))) in
      match answer with
      | Some token => ret token
      | None => pollLoop url later
      end
  end.

Definition pollForAuth (apiUrl token : jsstring) (maxAttempts : nat) : Exec json :=
  pollLoop (apiUrl ++ lit "/api/auth/poll/" ++ token) maxAttempts.

End Poll.

(** A platform whose configuration file holds a token and an address that
    is empty. *)
Definition configPlatform : Platform :=
  simPlatform None
    {[ lit "/home/u/.codebanger/config.json"
       := jlit "{'authToken':'abc','email':'a@b.c','apiUrl':''}" ]}
    {[lit "/home/u/.codebanger"]}
    (Rejected (ErrorObject (lit "fetch failed"))).

(** ** Writing the configuration (src/unnamed/part_000)

    [JSON.stringify(config, null, 2)] needs the text of a number,
    Number::toString of the engine, which is [numberText] here. *)

Definition gap : jsstring := [c_space; c_space].

Section ConfigWrites.
Variable pf : Platform.
Variables configDir configFile : jsstring.
Variable numberText : Q → jsstring.

Local Open Scope exec_scope.

(** SerializeJSONProperty with the gap of two spaces, at the indentation
    [indent]. *)
Fixpoint stringifyIndented (indent : jsstring) (v : json) : jsstring :=
  match v with
  | JNull => lit "null"
  | JBool true => lit "true"
  | JBool false => lit "false"
  | JNum q => numberText q
  | JStr s => quoteJSON s
  | JArr items =>
      let inner := indent ++ gap in
      match items with
      | [] => lit "[]"
      | _ :: _ =>
          [c_lbracket; c_lf] ++ inner
          ++ join ([c_comma; c_lf] ++ inner) (map (stringifyIndented inner) items)
          ++ [c_lf] ++ indent ++ [c_rbracket]
      end
  | JObj fields =>
      let inner := indent ++ gap in
      match fields with
      | [] => lit "{}"
      | _ :: _ =>
          [c_lbrace; c_lf] ++ inner
          ++ join ([c_comma; c_lf] ++ inner)
               (map (λ kv, quoteJSON (fst kv) ++ [c_colon; c_space]
                           ++ stringifyIndented inner (snd kv)) fields)
          ++ [c_lf] ++ indent ++ [c_rbrace]
      end
  end.

(** The [catch] logs the error and throws it again. *)
Definition writeConfig (config : json) : Exec unit :=
  run! ensureConfigDir pf configDir in
  try_catch
    (let text := stringifyIndented [] config in
     call (EvWrite configFile text) (λ h, unit_answer (writeFileSync pf h configFile text)))
    (λ error, throw error).

(** [config.name = value] in strict code, for a [name] that is no index:
    a property of an object is set; a property set on an array is not an
    element and is left out by [JSON.stringify]; on [null] and on a
    primitive it is a TypeError. *)
Definition setProperty (name : jsstring) (value : json) (config : json) : Exec json :=
  match config with
  | JObj fields => ret (JObj (obj_set name value fields))
  | JArr items => ret (JArr items)
  | _ => throw (ErrorObject (typeErrorMessage pf name))
  end.

(** [delete config.name]: a TypeError on [null] only. *)
Definition deleteProperty (name : jsstring) (config : json) : Exec json :=
  match config with
  | JObj fields => ret (JObj (List.filter (λ kv, negb (str_eqb (fst kv) name)) fields))
  | JNull => throw (ErrorObject (typeErrorMessage pf name))
  | _ => ret config
  end.

Definition saveAuthToken (token email : jsstring) : Exec unit :=
  let! config := readConfig pf configDir configFile in
  let! config := setProperty (lit "authToken") (JStr token) config in
  let! config := setProperty (lit "email") (JStr email) config in
  writeConfig config.

Definition clearAuthToken : Exec unit :=
  let! config := readConfig pf configDir configFile in
  let! config := deleteProperty (lit "authToken") config in
  let! config := deleteProperty (lit "email") config in
  writeConfig config.

End ConfigWrites.

(** What can follow the text of a number. *)
Definition numberEnd (rest : jsstring) : Prop :=
  match rest with
  | [] => True
  | c :: _ => c = c_comma ∨ c = c_rbracket ∨ c = c_rbrace ∨ c = c_lf
  end.

(** A value as [JSON.stringify] writes it and [JSON.parse] reads it
    back: no property name twice, and every number with a text that is
    read back as that number. *)
#[local] Unset Elimination Schemes.
Inductive storable (numberText : Q → jsstring) : json → Prop :=
| storable_null : storable numberText JNull
| storable_bool b : storable numberText (JBool b)
| storable_num q :
    (∀ rest, numberEnd rest →
       parse_number (numberText q ++ rest) = Some (JNum q, rest)) →
    (∃ c t, numberText q = c :: t ∧ (c = c_minus ∨ isDigit c = true)) →
    storable numberText (JNum q)
| storable_str s : storable numberText (JStr s)
| storable_arr items :
    Forall (storable numberText) items → storable numberText (JArr items)
| storable_obj fields :
    NoDup (map fst fields) →
    Forall (λ kv, storable numberText (snd kv)) fields →
    storable numberText (JObj fields).
#[local] Set Elimination Schemes.

(** The text of a whole number, for runs on configurations whose numbers
    are whole. *)
Definition wholeNumberText (q : Q) : jsstring := Z_to_string (Qnum q).

(** Parsing the indented text of [v], whatever closes it, gives [v]
    back, with any fuel beyond twice the length of the text. *)
Definition readsBackIndented (numberText : Q → jsstring) (v : json) : Prop :=
  ∀ indent rest fuel,
    Forall (λ c, isJsonSpace c = true) indent →
    numberEnd rest →
    2 * length (stringifyIndented numberText indent v) + 1 ≤ fuel →
    parse_value fuel (stringifyIndented numberText indent v ++ rest) = Some (v, rest).

(** A configuration with a whole number in it. *)
Definition numberedPlatform : Platform :=
  simPlatform None
    {[ lit "/home/u/.codebanger/config.json"
       := jlit "{'apiUrl':'http://h','retries':3, 'email':'old@b.c'}" ]}
    {[lit "/home/u/.codebanger"]}
    (Rejected (ErrorObject (lit "fetch failed"))).

(** * Properties *)

(** ** Intent classifier *)

Lemma existsb_triggers3 (f : string → bool) a b c :
  existsb f [a; b; c] = f a || f b || f c.
Proof. simpl. by rewrite orb_false_r, orb_assoc. Qed.

Lemma existsb_triggers2 (f : string → bool) a b :
  existsb f [a; b] = f a || f b.
Proof. simpl. by rewrite orb_false_r. Qed.

Lemma extractIntent_refines_spec input :
  extractIntent input = classifyIntent_spec input.
Proof.
  unfold extractIntent, classifyIntent_spec, intentGroups.
  cbn [List.find]. unfold groupHit. cbn [fst snd].
  rewrite !existsb_triggers3, existsb_triggers2.
  repeat match goal with
         | |- context [if ?b then _ else _] => destruct b; [reflexivity|]
         end.
  reflexivity.
Qed.

(** C5: [extractIntent] (the spec's classifyIntent) lower-cases its input
    and returns the label of the first trigger-word group, in the fixed
    order create, modify, fix, remove, refactor, test, doc, that has a hit,
    and the fallback label when none has; "Add a new login page" and
    "Fix the crash on add" are both classified as Create/Add. *)
Theorem C5_extractIntent_first_match :
  (∀ input, extractIntent input = classifyIntent_spec input)
  ∧ map snd intentGroups
    = ["Create/Add new functionality"; "Modify existing functionality";
       "Fix bugs or errors"; "Remove/Delete functionality";
       "Refactor/Improve code"; "Add or modify tests";
       "Add or update documentation"]%string
  ∧ extractIntent (lit "Add a new login page") = lit "Create/Add new functionality"
  ∧ extractIntent (lit "Fix the crash on add") = lit "Create/Add new functionality"
  ∧ extractIntent (lit "Fix the crash") = lit "Fix bugs or errors"
  ∧ extractIntent (lit "Rename it") = lit "General code changes".
Proof.
  split; [exact extractIntent_refines_spec|].
  repeat split; vm_compute; reflexivity.
Qed.

(** ** Lists and strings *)

Lemma List_filter_stdpp {A} (f : A → bool) (l : list A) :
  List.filter f l = filter (λ x, f x = true) l.
Proof.
  induction l as [|x l IH]; [done|].
  simpl. rewrite filter_cons. destruct (f x) eqn:Hf.
  - rewrite decide_True by done. by rewrite IH.
  - rewrite decide_False by done. done.
Qed.

Lemma str_eqb_eq a b : str_eqb a b = true ↔ a = b.
Proof. unfold str_eqb. apply bool_decide_eq_true. Qed.

Lemma arr_includes_elem_of x arr : arr_includes x arr = true ↔ x ∈ arr.
Proof.
  unfold arr_includes. rewrite existsb_exists. split.
  - intros (y & Hin & Heq). apply str_eqb_eq in Heq. subst.
    by apply list_elem_of_In.
  - intros Hin. exists x. split; [by apply list_elem_of_In|by apply str_eqb_eq].
Qed.

Lemma arr_includes_not_elem_of x arr : arr_includes x arr = false ↔ x ∉ arr.
Proof.
  rewrite <- arr_includes_elem_of. destruct (arr_includes x arr); naive_solver.
Qed.

Lemma dropWhile_split {A} (f : A → bool) (l : list A) :
  ∃ run, l = run ++ dropWhile f l ∧ Forall (λ x, f x = true) run.
Proof.
  induction l as [|x l (run & Heq & Hrun)]; [by exists []|].
  simpl. destruct (f x) eqn:Hf.
  - exists (x :: run). split; [by rewrite <- app_comm_cons, <- Heq|by constructor].
  - by exists [].
Qed.

Lemma dropWhile_head {A} (f : A → bool) (l : list A) x r :
  dropWhile f l = x :: r → f x = false.
Proof.
  induction l as [|y l IH]; [done|].
  simpl. destruct (f y) eqn:Hf; [done|]. intros [= -> ->]. done.
Qed.

Lemma dropWhile_length {A} (f : A → bool) (l : list A) :
  length (dropWhile f l) ≤ length l.
Proof.
  induction l as [|x l IH]; [done|]. simpl. destruct (f x); simpl; lia.
Qed.

(** ** Keyword extraction *)

(** The example of the source comment. *)
Example extractKeywords_doc_example :
  extractKeywords toLowerCase (lit "Add error handling to the authentication service")
  = map lit ["add"; "error"; "handling"; "authentication"; "service"]%string.
Proof. vm_compute. reflexivity. Qed.

Lemma split_loop_in_run cur s :
  split_loop true cur s = split_loop false cur (dropWhile isSeparator s).
Proof.
  induction s as [|c r IH]; [done|].
  simpl. destruct (isSeparator c) eqn:Hc; [done|].
  simpl. by rewrite Hc.
Qed.

Lemma split_loop_runs n : ∀ s cur,
  length s ≤ n → unseparated cur →
  SplitOnRuns (cur ++ s) (split_loop false cur s).
Proof.
  induction n as [|n IH]; intros s cur Hlen Hcur.
  - destruct s; [|simpl in Hlen; lia].
    rewrite app_nil_r. by constructor.
  - destruct s as [|c r]; [rewrite app_nil_r; by constructor|].
    simpl in Hlen. simpl. destruct (isSeparator c) eqn:Hc.
    + rewrite split_loop_in_run.
      destruct (dropWhile_split isSeparator r) as (run & Hr & Hrun).
      rewrite Hr at 1.
      change (cur ++ c :: run ++ dropWhile isSeparator r)
        with (cur ++ (c :: run) ++ dropWhile isSeparator r).
      constructor; [done|done|by constructor| |].
      * destruct (dropWhile isSeparator r) eqn:Hd; [done|].
        simpl. by eapply dropWhile_head.
      * pose proof (dropWhile_length isSeparator r) as Hd.
        apply (IH (dropWhile isSeparator r) []); [lia|constructor].
    + replace (cur ++ c :: r) with ((cur ++ [c]) ++ r)
        by (by rewrite <- app_assoc).
      apply IH; [lia|]. apply Forall_app. split; [done|]. by repeat constructor.
Qed.

Lemma split_separators_runs s : SplitOnRuns s (split_separators s).
Proof. apply (split_loop_runs (length s) s []); [done|constructor]. Qed.

(** A text splits in one way only into a run of code units of one kind
    followed by a code unit of the other kind. *)
Lemma span_unique {A} (f : A → bool) (a a' b b' : list A) :
  Forall (λ x, f x = true) a → Forall (λ x, f x = true) a' →
  match b with [] => True | x :: _ => f x = false end →
  match b' with [] => True | x :: _ => f x = false end →
  a ++ b = a' ++ b' → a = a' ∧ b = b'.
Proof.
  intros Ha. revert a'. induction Ha as [|x a Hx _ IH]; intros a' Ha' Hb Hb' Heq.
  - destruct Ha' as [|y a' Hy _]; [done|].
    simpl in Heq. subst b. simpl in Hb. congruence.
  - destruct Ha' as [|y a' Hy Ha'].
    + simpl in Heq. subst b'. simpl in Hb'. congruence.
    + injection Heq as -> Heq. destruct (IH a' Ha' Hb Hb' Heq) as [-> ->]. done.
Qed.

(** Splitting on runs is a function of the text: the relation has one
    outcome, that of [split_separators]. *)
Lemma SplitOnRuns_unique s pieces pieces' :
  SplitOnRuns s pieces → SplitOnRuns s pieces' → pieces = pieces'.
Proof.
  intros H. revert pieces'.
  induction H as [piece Hp|piece run rest pieces Hp Hne Hrun Hrest _ IH];
    intros pieces' H'.
  - inversion H' as [piece' Hp'|piece' run' rest' ps' Hp' Hne' Hrun' Hrest' Hs' Heq];
      subst; [done|].
    destruct run' as [|c run']; [done|].
    apply Forall_cons in Hrun' as [Hc _].
    unfold unseparated in Hp. rewrite Forall_app in Hp. destruct Hp as [_ Hp].
    apply Forall_cons in Hp as [Hc' _]. congruence.
  - inversion H' as [piece' Hp'|piece' run' rest' ps' Hp' Hne' Hrun' Hrest' Hs' Heq];
      subst.
    + destruct run as [|c run]; [done|].
      apply Forall_cons in Hrun as [Hc _].
      unfold unseparated in Hp'. rewrite Forall_app in Hp'. destruct Hp' as [_ Hp'].
      apply Forall_cons in Hp' as [Hc' _]. congruence.
    + destruct (span_unique (λ c, negb (isSeparator c)) piece' piece
                  (run' ++ rest') (run ++ rest)) as [-> Htail]; try done.
      * eapply Forall_impl; [exact Hp'|]. by intros c ->.
      * eapply Forall_impl; [exact Hp|]. by intros c ->.
      * destruct run' as [|c run']; [done|]. apply Forall_cons in Hrun' as [Hc _].
        simpl. by rewrite Hc.
      * destruct run as [|c run]; [done|]. apply Forall_cons in Hrun as [Hc _].
        simpl. by rewrite Hc.
      * destruct (span_unique isSeparator run' run rest' rest) as [_ ->]; try done.
        f_equal. by apply IH.
Qed.

Lemma keepWord_survives word : keepWord word = true ↔ survives word.
Proof.
  unfold keepWord, survives. rewrite andb_true_iff, negb_true_iff.
  unfold isCommonWord. rewrite arr_includes_not_elem_of.
  by rewrite Nat.ltb_lt.
Qed.

Lemma filter_keepWord l : List.filter keepWord l = filter survives l.
Proof.
  rewrite List_filter_stdpp. apply list_filter_iff. intros w. apply keepWord_survives.
Qed.

(** C7: [extractKeywords] returns at most 10 tokens, each longer than two
    code units and none a stop word; they are the first surviving tokens,
    in order, of the pieces into which the lower-cased input splits on runs
    of whitespace, comma, period and hyphen (there is one such split).  It
    holds whatever the lowering of the engine is. *)
Theorem C7_extractKeywords_bounds lowerCase input :
  length (extractKeywords lowerCase input) ≤ 10
  ∧ Forall (λ w, 2 < length w ∧ w ∉ commonWords) (extractKeywords lowerCase input)
  ∧ ∃ pieces,
      SplitOnRuns (lowerCase input) pieces
      ∧ (∀ pieces', SplitOnRuns (lowerCase input) pieces' → pieces' = pieces)
      ∧ extractKeywords lowerCase input = take 10 (filter survives pieces).
Proof.
  unfold extractKeywords. rewrite filter_keepWord. split; [|split].
  - rewrite length_take. lia.
  - apply Forall_take, Forall_forall. intros w Hw.
    by apply list_elem_of_filter in Hw as [Hw _].
  - eexists. split; [apply split_separators_runs|]. split; [|done].
    intros pieces' H'. eapply SplitOnRuns_unique; [exact H'|].
    apply split_separators_runs.
Qed.

(** ** Relevance filter *)

(** The files the scan adds: those not referenced whose lower-cased path
    contains a lower-cased keyword. *)
Lemma scanFiles_filter lowerCase keywords referenced allFiles : ∀ relevant,
  scanFiles lowerCase keywords referenced relevant allFiles
  = relevant
    ++ List.filter
         (λ f, negb (arr_includes f referenced) && hasKeyword lowerCase keywords f)
         allFiles.
Proof.
  induction allFiles as [|f rest IH]; intros relevant; simpl.
  - by rewrite app_nil_r.
  - destruct (arr_includes f referenced); simpl; [apply IH|].
    destruct (hasKeyword lowerCase keywords f); [|apply IH].
    rewrite IH. by rewrite <- app_assoc.
Qed.

Lemma hasKeyword_true lowerCase keywords file :
  hasKeyword lowerCase keywords file = true ↔
  ∃ k, k ∈ keywords ∧ includes (lowerCase k) (lowerCase file) = true.
Proof.
  unfold hasKeyword. rewrite existsb_exists.
  split; intros (k & Hk & Hin); exists k; split; try done;
    by apply list_elem_of_In.
Qed.

Lemma filterRelevantFiles_unfold lowerCase userInput referenced allFiles :
  filterRelevantFiles lowerCase userInput referenced allFiles
  = take 20
      (referenced
       ++ filter (λ f, (f ∉ referenced)
                       ∧ hasKeyword lowerCase (extractKeywords lowerCase userInput) f = true)
            allFiles).
Proof.
  unfold filterRelevantFiles. rewrite scanFiles_filter. simpl.
  rewrite List_filter_stdpp. do 2 f_equal. apply list_filter_iff. intros f.
  by rewrite andb_true_iff, negb_true_iff, arr_includes_not_elem_of.
Qed.

(** C6, as it is on the code: the output has at most 20 entries, begins
    with the referenced files (cut at 20) in their order, continues with
    files of [allFiles] in their order, each of them unreferenced and with
    a path that contains an extracted keyword without regard to case (the
    lowered path contains the lowered keyword); it is duplicate-free when
    [referencedFiles] and [allFiles] are.  It holds whatever the lowering
    of the engine is. *)
Theorem C6_filterRelevantFiles_shape lowerCase userInput referenced allFiles :
  let out := filterRelevantFiles lowerCase userInput referenced allFiles in
  length out ≤ 20
  ∧ take 20 referenced `prefix_of` out
  ∧ (∃ found, found `sublist_of` allFiles ∧ out = take 20 (referenced ++ found)
       ∧ ∀ f, f ∈ found →
           (f ∉ referenced)
           ∧ ∃ k, k ∈ extractKeywords lowerCase userInput
                  ∧ includes (lowerCase k) (lowerCase f) = true)
  ∧ (∀ f, f ∈ out → f ∈ referenced ∨ f ∈ allFiles)
  ∧ (NoDup referenced → NoDup allFiles → NoDup out).
Proof.
  intros out. subst out. rewrite filterRelevantFiles_unfold.
  set (found := filter _ allFiles).
  assert (Hfound : ∀ f, f ∈ found → (f ∉ referenced) ∧ f ∈ allFiles
            ∧ hasKeyword lowerCase (extractKeywords lowerCase userInput) f = true).
  { intros f Hf. apply list_elem_of_filter in Hf as [[Hnot Hk] Hin]. done. }
  split; [|split; [|split; [|split]]].
  - rewrite length_take. lia.
  - rewrite take_app. by apply prefix_app_r.
  - exists found. split; [apply sublist_filter|]. split; [done|].
    intros f Hf. destruct (Hfound f Hf) as (Hnot & _ & Hk).
    split; [exact Hnot|]. by apply hasKeyword_true.
  - intros f Hf. apply subseteq_take in Hf. apply elem_of_app in Hf as [|Hf]; [by left|].
    right. by apply Hfound.
  - intros Hr Ha. eapply sublist_NoDup; [|apply sublist_take].
    apply NoDup_app. split; [done|]. split; [|by apply NoDup_filter].
    intros f Hf Hf'. apply Hfound in Hf' as [Hnot _]. by apply Hnot.
Qed.

Lemma C6_filterRelevantFiles_shape_witness :
  NoDup (filterRelevantFiles toLowerCase (lit "Add logging to auth service")
           [lit "src/index.ts"]
           [lit "src/Auth.ts"; lit "src/index.ts"; lit "src/util.ts"])
  ∧ filterRelevantFiles toLowerCase (lit "Add logging to auth service")
      [lit "src/index.ts"]
      [lit "src/Auth.ts"; lit "src/index.ts"; lit "src/util.ts"]
    = [lit "src/index.ts"; lit "src/Auth.ts"].
Proof.
  split; [|vm_compute; reflexivity].
  apply (C6_filterRelevantFiles_shape toLowerCase (lit "Add logging to auth service")
           [lit "src/index.ts"]
           [lit "src/Auth.ts"; lit "src/index.ts"; lit "src/util.ts"]).
  - apply NoDup_singleton.
  - apply (bool_decide_unpack _). vm_compute. reflexivity.
Defined.

(** C6 as stated fails: a file referenced twice is listed twice,
    whatever the lowering of the engine. *)
Lemma C6_duplicates_counterexample :
  ¬ ∃ lowerCase,
      NoDup (filterRelevantFiles lowerCase (lit "merge") [lit "a.ts"; lit "a.ts"] []).
Proof.
  intros [lowerCase H]. cbn in H. apply NoDup_cons in H as [H _]. apply H. left.
Qed.

(** ** Plan executor *)

(** [Exec] is a monad: the laws, at every history. *)
Lemma bind_ret_l {A B} (x : A) (k : A → Exec B) h : bind (ret x) k h = k x h.
Proof. reflexivity. Qed.

Lemma bind_ret_r {A} (m : Exec A) h : bind m ret h = m h.
Proof. unfold bind, ret. by destruct (m h) as [[e|x] h']. Qed.

Lemma bind_assoc {A B C} (m : Exec A) (k : A → Exec B) (k' : B → Exec C) h :
  bind (bind m k) k' h = bind m (λ x, bind (k x) k') h.
Proof. unfold bind. by destruct (m h) as [[e|x] h']. Qed.

(** A caught computation does not throw when its handler does not. *)
Lemma try_catch_returns {A} (m : Exec A) (handler : thrown → A) h :
  ∃ x h', try_catch m (λ e, ret (handler e)) h = (inr x, h').
Proof. unfold try_catch, ret. destruct (m h) as [[e|x] h']; eauto. Qed.

Section ExecutorFacts.
Variable pf : Platform.

Lemma executeStep_returns s rootDir h :
  ∃ result h', executeStep pf s rootDir h = (inr result, h').
Proof. unfold executeStep. apply try_catch_returns. Qed.

Lemma runSteps_success rootDir continueOnError results s rest h result h' :
  executeStep pf s rootDir h = (inr result, h') →
  success result = true →
  runSteps pf rootDir continueOnError results (s :: rest) h
  = runSteps pf rootDir continueOnError
      {| totalSteps := totalSteps results;
         successCount := S (successCount results);
         failedSteps := failedSteps results |} rest h'.
Proof. intros Hs Hok. simpl. unfold bind. by rewrite Hs, Hok. Qed.

Lemma runSteps_failure_stop rootDir results s rest h result h' :
  executeStep pf s rootDir h = (inr result, h') →
  success result = false →
  runSteps pf rootDir false results (s :: rest) h
  = (inr {| totalSteps := totalSteps results;
            successCount := successCount results;
            failedSteps := failedSteps results ++ [step s] |}, h').
Proof. intros Hs Hok. simpl. unfold bind. by rewrite Hs, Hok. Qed.

Lemma runSteps_failure_continue rootDir results s rest h result h' :
  executeStep pf s rootDir h = (inr result, h') →
  success result = false →
  runSteps pf rootDir true results (s :: rest) h
  = runSteps pf rootDir true
      {| totalSteps := totalSteps results;
         successCount := successCount results;
         failedSteps := failedSteps results ++ [step s] |} rest h'.
Proof. intros Hs Hok. simpl. unfold bind. by rewrite Hs, Hok. Qed.

(** The loop returns; it keeps [totalSteps], appends to [failedSteps] step
    numbers of the remaining steps in their order, and adds to the two
    counts at most one per remaining step. *)
Lemma runSteps_invariant rootDir continueOnError : ∀ remaining results h,
  ∃ r h' failed,
    runSteps pf rootDir continueOnError results remaining h = (inr r, h')
    ∧ totalSteps r = totalSteps results
    ∧ failedSteps r = failedSteps results ++ failed
    ∧ failed `sublist_of` map step remaining
    ∧ successCount r + length failed ≤ successCount results + length remaining.
Proof.
  induction remaining as [|s rest IH]; intros results h.
  - exists results, h, []. simpl. rewrite app_nil_r. repeat split; done.
  - destruct (executeStep_returns s rootDir h) as (result & h1 & Hs).
    destruct (success result) eqn:Hok.
    + rewrite (runSteps_success _ _ _ _ _ _ _ _ Hs Hok).
      edestruct IH as (r & h' & failed & -> & Ht & Hf & Hsub & Hn).
      exists r, h', failed. simpl in *. repeat split; try done.
      * by apply sublist_cons.
      * lia.
    + destruct continueOnError.
      * rewrite (runSteps_failure_continue _ _ _ _ _ _ _ Hs Hok).
        edestruct IH as (r & h' & failed & -> & Ht & Hf & Hsub & Hn).
        exists r, h', (step s :: failed). simpl in *. repeat split; try done.
        -- by rewrite Hf, <- app_assoc.
        -- by apply sublist_skip.
        -- lia.
      * rewrite (runSteps_failure_stop _ _ _ _ _ _ _ Hs Hok).
        exists {| totalSteps := totalSteps results;
                  successCount := successCount results;
                  failedSteps := failedSteps results ++ [step s] |}, h1, [step s].
        simpl. repeat split; try done.
        -- apply sublist_skip, sublist_nil_l.
        -- lia.
Qed.

(** C3: whatever the plan and the flag, [executePlan] returns a result in
    which [successCount + len(failedSteps) <= totalSteps], [totalSteps] is
    the number of steps, and [failedSteps] lists [step] fields of steps of
    the plan, in plan order; a plan without steps gives
    [{totalSteps:0, successCount:0, failedSteps:[]}] and calls nothing. *)
Theorem C3_executePlan_invariants rootDir continueOnError h :
  (∀ plan, ∃ r h',
      executePlan pf plan rootDir continueOnError h = (inr r, h')
      ∧ totalSteps r = length (steps plan)
      ∧ successCount r + length (failedSteps r) ≤ totalSteps r
      ∧ failedSteps r `sublist_of` map step (steps plan)
      ∧ ∀ n, n ∈ failedSteps r → ∃ s, s ∈ steps plan ∧ step s = n)
  ∧ (∀ sm cx pr rk,
      executePlan pf {| summary := sm; steps := []; estimatedComplexity := cx;
                        prerequisites := pr; risks := rk |}
        rootDir continueOnError h
      = (inr {| totalSteps := 0; successCount := 0; failedSteps := [] |}, h)).
Proof.
  split; [|done].
  intros plan. unfold executePlan.
  edestruct (runSteps_invariant rootDir continueOnError (steps plan))
    as (r & h' & failed & -> & Ht & Hf & Hsub & Hn).
  simpl in *. subst failed. exists r, h'. repeat split; try done.
  - rewrite Ht. lia.
  - intros n Hin. apply (sublist_subseteq _ _ Hsub) in Hin.
    apply list_elem_of_fmap in Hin as (s & -> & Hs). eauto.
Qed.

(** C4: a step whose [files] is absent or empty succeeds with the "No
    files to modify" message, and no call is made: no file is read,
    created or written and the LLM client is not invoked. *)
Theorem C4_executeStep_no_files s rootDir h :
  files s = None ∨ files s = Some [] →
  executeStep pf s rootDir h
  = (inr {| success := true;
            message := lit "No files to modify (documentation or verification step)" |},
     h).
Proof. intros [Hf|Hf]; unfold executeStep, try_catch; by rewrite Hf. Qed.

(** C1: in a plan of three steps whose second step, numbered 2, fails
    after the first succeeded, [executePlan] without [continueOnError]
    returns [{totalSteps:3, successCount:1, failedSteps:[2]}] and ends with
    the calls of step 2: nothing is done for step 3.  With
    [continueOnError], step 3 succeeding, it returns
    [{totalSteps:3, successCount:2, failedSteps:[2]}]. *)
Theorem C1_executePlan_three_steps plan s1 s2 s3 rootDir h0 h1 h2 m1 m2 :
  steps plan = [s1; s2; s3] →
  step s2 = integer 2 →
  executeStep pf s1 rootDir h0 = (inr {| success := true; message := m1 |}, h1) →
  executeStep pf s2 rootDir h1 = (inr {| success := false; message := m2 |}, h2) →
  executePlan pf plan rootDir false h0
  = (inr {| totalSteps := 3; successCount := 1; failedSteps := [integer 2] |}, h2)
  ∧ ∀ h3 m3,
      executeStep pf s3 rootDir h2 = (inr {| success := true; message := m3 |}, h3) →
      executePlan pf plan rootDir true h0
      = (inr {| totalSteps := 3; successCount := 2; failedSteps := [integer 2] |}, h3).
Proof.
  intros Hplan Hnum H1 H2. unfold executePlan. rewrite Hplan. split.
  - rewrite (runSteps_success _ _ _ _ _ _ _ _ H1 eq_refl).
    rewrite (runSteps_failure_stop _ _ _ _ _ _ _ H2 eq_refl).
    simpl. by rewrite Hnum.
  - intros h3 m3 H3.
    rewrite (runSteps_success _ _ _ _ _ _ _ _ H1 eq_refl).
    rewrite (runSteps_failure_continue _ _ _ _ _ _ _ H2 eq_refl).
    rewrite (runSteps_success _ _ _ _ _ _ _ _ H3 eq_refl).
    simpl. by rewrite Hnum.
Qed.

End ExecutorFacts.

Lemma C4_executeStep_no_files_witness :
  executeStep noKeyPlatform (docStep 1) (lit "/w") []
  = (inr {| success := true;
            message := lit "No files to modify (documentation or verification step)" |},
     []).
Proof.
  apply (C4_executeStep_no_files noKeyPlatform (docStep 1) (lit "/w") []).
  right. reflexivity.
Defined.

Lemma C1_executePlan_three_steps_witness :
  executePlan noKeyPlatform samplePlan (lit "/w") false []
  = (inr {| totalSteps := 3; successCount := 1; failedSteps := [integer 2] |},
     [EvTree (lit "/w"); EvExists (lit "/w/src/a.ts")])
  ∧ executePlan noKeyPlatform samplePlan (lit "/w") true []
    = (inr {| totalSteps := 3; successCount := 2; failedSteps := [integer 2] |},
       [EvTree (lit "/w"); EvExists (lit "/w/src/a.ts")]).
Proof.
  destruct (C1_executePlan_three_steps noKeyPlatform samplePlan
              (docStep 1) (fileStep 2 "src/a.ts") (docStep 3) (lit "/w")
              [] [] [EvTree (lit "/w"); EvExists (lit "/w/src/a.ts")]
              (lit "No files to modify (documentation or verification step)")
              (lit "GEMINI_API_KEY environment variable is not set"))
    as [Hstop Hgo].
  - reflexivity.
  - reflexivity.
  - vm_compute. reflexivity.
  - vm_compute. reflexivity.
  - split; [exact Hstop|].
    apply (Hgo _ (lit "No files to modify (documentation or verification step)")).
    vm_compute. reflexivity.
Defined.

(** ** LLM client *)

Lemma startsWith_app p s : startsWith p (p ++ s) = true.
Proof. induction p as [|c p IH]; [done|]. simpl. by rewrite N.eqb_refl. Qed.

Lemma includes_app sub pre post : includes sub (pre ++ sub ++ post) = true.
Proof.
  induction pre as [|c pre IH].
  - pose proof (startsWith_app sub post) as H. rewrite app_nil_l.
    destruct (sub ++ post); simpl; by rewrite H.
  - rewrite <- app_comm_cons. simpl. rewrite IH. apply orb_true_r.
Qed.

Lemma includes_suffix sub pre : includes sub (pre ++ sub) = true.
Proof. rewrite <- (app_nil_r sub) at 2. apply includes_app. Qed.

Section ClientFacts.
Variable pf : Platform.

(** C9, as it is on the code.  Without a credential the client throws
    the configuration error before any call.  With one it makes exactly one
    request and: a rejected request is rethrown with the transport prefix;
    a status outside 200..299 gives an error whose message embeds the
    status and the body; a successful answer whose body is JSON other than
    [null] and holds no truthy text gives the fixed message "No content in
    Gemini response"; a successful answer whose body is not JSON, or is
    [null], gives the prefix followed by the message of the SyntaxError,
    or of the TypeError, of the engine. *)
Theorem C9_callOpenRouter_failures systemPrompt userPrompt model h :
  (apiKey pf = None ∨ apiKey pf = Some [] →
   callOpenRouter pf systemPrompt userPrompt model h
   = (inl (ErrorObject (lit "GEMINI_API_KEY environment variable is not set")), h))
  ∧ ∀ key, apiKey pf = Some key → key ≠ [] →
      let url := lit "https://generativelanguage.googleapis.com/v1/models/"
                 ++ model ++ lit ":generateContent?key=" ++ key in
      let prompt := systemPrompt ++ [c_lf; c_lf] ++ userPrompt in
      let outcome := fetch pf h url prompt in
      snd (callOpenRouter pf systemPrompt userPrompt model h) = EvFetch url prompt :: h
      ∧ (∀ m, outcome = Rejected (ErrorObject m) →
           fst (callOpenRouter pf systemPrompt userPrompt model h)
           = inl (ErrorObject (lit "Failed to call Gemini API: " ++ m)))
      ∧ (∀ status body, outcome = Response status body → responseOk status = false →
           ∃ msg,
             fst (callOpenRouter pf systemPrompt userPrompt model h) = inl (ErrorObject msg)
             ∧ msg = lit "Failed to call Gemini API: Gemini API request failed ("
                     ++ N_to_string status ++ lit "): " ++ body
             ∧ embedsStatusAndBody msg status body = true)
      ∧ (∀ status body data, outcome = Response status body → responseOk status = true →
           JSON_parse body = Some data → data ≠ JNull →
           truthy (extractContent data) = false →
           fst (callOpenRouter pf systemPrompt userPrompt model h)
           = inl (ErrorObject (lit "Failed to call Gemini API: No content in Gemini response")))
      ∧ (∀ status body, outcome = Response status body → responseOk status = true →
           JSON_parse body = None →
           fst (callOpenRouter pf systemPrompt userPrompt model h)
           = inl (ErrorObject (lit "Failed to call Gemini API: "
                               ++ syntaxErrorMessage pf body)))
      ∧ (∀ status body, outcome = Response status body → responseOk status = true →
           JSON_parse body = Some JNull →
           fst (callOpenRouter pf systemPrompt userPrompt model h)
           = inl (ErrorObject (lit "Failed to call Gemini API: "
                               ++ typeErrorMessage pf (lit "candidates")))).
Proof.
  split.
  - intros [Hk|Hk]; unfold callOpenRouter; by rewrite Hk.
  - intros key Hk Hne url prompt outcome.
    unfold callOpenRouter. rewrite Hk. destruct key as [|k0 key]; [done|].
    fold url prompt. unfold call. cbn [fst snd]. fold outcome.
    split; [done|]. split; [|split; [|split; [|split]]].
    + intros m ->. done.
    + intros status body -> Hok. unfold readResponse. rewrite Hok. cbn [negb rethrow].
      eexists. split; [reflexivity|]. split; [reflexivity|].
      unfold embedsStatusAndBody. apply andb_true_iff. split.
      * rewrite (app_assoc (lit "Failed to call Gemini API: ")). apply includes_app.
      * rewrite !app_assoc. apply includes_suffix.
    + intros status body data -> Hok Hparse Hnull Hfalsy.
      unfold readResponse. rewrite Hok, Hparse. cbn [negb].
      destruct data; try done;
        destruct (extractContent _) as [content|] eqn:Hc; try done;
        by rewrite Hfalsy.
    + intros status body -> Hok Hparse. unfold readResponse.
      by rewrite Hok, Hparse.
    + intros status body -> Hok Hparse. unfold readResponse.
      by rewrite Hok, Hparse.
Qed.

End ClientFacts.

Lemma C9_callOpenRouter_failures_witness :
  callOpenRouter noKeyPlatform (lit "system") (lit "user") defaultModel []
  = (inl (ErrorObject (lit "GEMINI_API_KEY environment variable is not set")), [])
  ∧ fst (callOpenRouter (replyPlatform (Response 503 (lit "overloaded")))
           (lit "system") (lit "user") defaultModel [])
    = inl (ErrorObject
             (lit "Failed to call Gemini API: Gemini API request failed (503): overloaded")).
Proof.
  split.
  - apply (C9_callOpenRouter_failures noKeyPlatform). left. reflexivity.
  - destruct (C9_callOpenRouter_failures (replyPlatform (Response 503 (lit "overloaded")))
                (lit "system") (lit "user") defaultModel []) as [_ H].
    destruct (H (lit "k") eq_refl ltac:(discriminate)) as (_ & _ & Hstatus & _).
    destruct (Hstatus 503%N (lit "overloaded") eq_refl eq_refl) as (msg & -> & -> & _).
    vm_compute. reflexivity.
Defined.

(** C9 as stated fails where the text is absent: the message holds
    neither the status nor the body of the response. *)
Lemma C9_no_content_counterexample :
  ∃ msg,
    fst (callOpenRouter (replyPlatform (Response 200 (jlit "{'candidates':[]}")))
           (lit "system") (lit "user") defaultModel [])
    = inl (ErrorObject msg)
    ∧ msg = lit "Failed to call Gemini API: No content in Gemini response"
    ∧ includes (N_to_string 200) msg = false
    ∧ includes (jlit "{'candidates':[]}") msg = false.
Proof. eexists. repeat split; vm_compute; reflexivity. Qed.

(** ** What the executor writes *)

Lemma dropWhile_suffix {A} (f : A → bool) (l : list A) :
  dropWhile f l `suffix_of` l.
Proof.
  destruct (dropWhile_split f l) as (run & Heq & _). by exists run.
Qed.

Lemma dropWhile_head_false {A} (f : A → bool) (l : list A) x :
  head (dropWhile f l) = Some x → f x = false.
Proof.
  destruct (dropWhile f l) as [|y r] eqn:Hd; [done|].
  intros [= ->]. by eapply dropWhile_head.
Qed.

Lemma last_suffix {A} (k l : list A) x :
  k `suffix_of` l → last k = Some x → last l = Some x.
Proof.
  intros [pre ->] Hk. destruct k as [|y k]; [done|].
  rewrite last_app. by rewrite Hk.
Qed.

Lemma trim_noEdgeWhitespace s : noEdgeWhitespace (trim s).
Proof.
  unfold trim, noEdgeWhitespace. split; intros c Hc.
  - rewrite head_reverse in Hc.
    eapply last_suffix in Hc; [|apply dropWhile_suffix].
    rewrite last_reverse in Hc. by apply dropWhile_head_false in Hc.
  - rewrite last_reverse in Hc. by apply dropWhile_head_false in Hc.
Qed.

(** [trim] removes whitespace only, from both ends. *)
Lemma trim_strips_whitespace s :
  ∃ pre post,
    s = pre ++ trim s ++ post
    ∧ Forall (λ c, isWhiteSpace c = true) pre
    ∧ Forall (λ c, isWhiteSpace c = true) post.
Proof.
  unfold trim.
  destruct (dropWhile_split isWhiteSpace s) as (pre & Hs & Hpre).
  destruct (dropWhile_split isWhiteSpace (reverse (dropWhile isWhiteSpace s)))
    as (post & Hr & Hpost).
  exists pre, (reverse post). split; [|split; [done|]].
  - rewrite Hs at 1. f_equal.
    rewrite <- (reverse_involutive (dropWhile isWhiteSpace s)) at 1.
    rewrite Hr at 1. by rewrite reverse_app.
  - by apply Forall_reverse.
Qed.

(** The usual answers of the model, fenced or not. *)
Example cleanContent_examples :
  cleanContent (lit "```ts
const a = 1;
```") = lit "const a = 1;"
  ∧ cleanContent (lit "
  const a = 1;
") = lit "const a = 1;"
  ∧ cleanContent (lit "``` not a fence line") = lit "``` not a fence line".
Proof. repeat split; vm_compute; reflexivity. Qed.

Lemma cleanContent_unfenced raw :
  startsWith fence (trim raw) = false → cleanContent raw = trim raw.
Proof. intros H. unfold cleanContent. by rewrite H. Qed.

Lemma cleanContent_fenced raw :
  startsWith fence (trim raw) = true →
  cleanContent raw = removeClosingFence (removeOpeningFence (trim raw)).
Proof. intros H. unfold cleanContent. by rewrite H. Qed.

Section WriteFacts.
Variable pf : Platform.

Lemma llmReturned_later h h' raw :
  h `suffix_of` h' → llmReturned pf h raw → llmReturned pf h' raw.
Proof.
  intros Hsuf (before & url & prompt & Hb & Hr).
  exists before, url, prompt. split; [by etrans|done].
Qed.

Lemma writesCleaned_refl h : writesCleaned pf h h.
Proof. exists []. split; [done|]. intros p c Hin. by apply elem_of_nil in Hin. Qed.

Lemma writesCleaned_trans h1 h2 h3 :
  writesCleaned pf h1 h2 → writesCleaned pf h2 h3 → writesCleaned pf h1 h3.
Proof.
  intros (n1 & -> & H1) (n2 & -> & H2). exists (n2 ++ n1).
  rewrite app_assoc. split; [done|]. rewrite <- app_assoc. intros p c Hin.
  apply elem_of_app in Hin as [Hin|Hin]; [by apply (H2 p)|].
  destruct (H1 p c Hin) as (raw & Hraw & ->). exists raw. split; [|done].
  eapply llmReturned_later; [|done]. by exists n2.
Qed.

(** A call that is not a write. *)
Lemma writesCleaned_step ev h :
  (∀ p c, ev ≠ EvWrite p c) → writesCleaned pf h (ev :: h).
Proof.
  intros Hev. exists [ev]. split; [done|]. intros p c Hin.
  apply list_elem_of_singleton in Hin. by destruct (Hev p c).
Qed.

Lemma writesCleaned_callOpenRouter sys user model h :
  writesCleaned pf h (snd (callOpenRouter pf sys user model h)).
Proof.
  unfold callOpenRouter. destruct (apiKey pf) as [[|k key]|]; simpl;
    try apply writesCleaned_refl.
  by apply writesCleaned_step.
Qed.

(** The client returns what [readResponse] makes of the last request. *)
Lemma callOpenRouter_returned sys user model h content h' :
  callOpenRouter pf sys user model h = (inr content, h') →
  ∃ url prompt, h' = EvFetch url prompt :: h
    ∧ readResponse pf (fetch pf h url prompt) = inr content.
Proof.
  unfold callOpenRouter. destruct (apiKey pf) as [[|k key]|]; try done.
  unfold call. intros [= Hr <-]. do 2 eexists. split; [done|].
  by destruct (readResponse _ _).
Qed.

(** The tail shared by [createFile] and [modifyFile]: from the answer of
    the client to the write. *)
Lemma writesCleaned_write h content h1 clean h2 path :
  (∃ url prompt, h1 = EvFetch url prompt :: h
     ∧ readResponse pf (fetch pf h url prompt) = inr content) →
  trimmedClean pf content h1 = (inr clean, h1) →
  h1 `suffix_of` h2 →
  (∀ p c, EvWrite p c ∉ take (length h2 - length h1) h2) →
  writesCleaned pf h (EvWrite path clean :: h2).
Proof.
  intros (url & prompt & -> & Hr) Hclean [mid ->] Hmid.
  rewrite length_app, Nat.add_sub, take_app_length in Hmid.
  exists (EvWrite path clean :: mid ++ [EvFetch url prompt]).
  split; [simpl; by rewrite <- app_assoc|]. intros p c Hin.
  apply elem_of_cons in Hin as [[= -> ->]|Hin].
  - destruct content; try done. injection Hclean as <-. eexists. split; [|done].
    exists h, url, prompt. split; [|done]. by exists (EvWrite path (cleanContent s) :: mid).
  - apply elem_of_app in Hin as [Hin|Hin]; [by destruct (Hmid p c)|].
    by apply list_elem_of_singleton in Hin.
Qed.

Lemma trimmedClean_history content h r h' :
  trimmedClean pf content h = (r, h') → h' = h.
Proof. destruct content; by intros [= _ <-]. Qed.

(** Peels the calls that are not writes off the later history. *)
Ltac peel_calls :=
  repeat first
    [ apply writesCleaned_refl
    | eapply writesCleaned_trans; [|by apply writesCleaned_step] ].

Lemma writesCleaned_createFile path s rootDir h :
  writesCleaned pf h (snd (createFile pf path s rootDir h)).
Proof.
  unfold createFile, bind, call.
  destruct (getFileTreeString pf h rootDir) as [e|ctx]; simpl; [peel_calls|].
  destruct (callOpenRouter _ _ _ _ _) as [[e|content] h1] eqn:Hcall.
  { pose proof (writesCleaned_callOpenRouter createSystemPrompt
                  (createUserPrompt path s ctx) defaultModel (EvTree rootDir :: h)) as H.
    rewrite Hcall in H. simpl in *.
    eapply writesCleaned_trans; [|exact H]. peel_calls. }
  apply callOpenRouter_returned in Hcall as Hret.
  destruct (trimmedClean pf content h1) as [[e|clean] h1'] eqn:Hclean;
    pose proof (trimmedClean_history _ _ _ _ Hclean) as ->.
  { destruct Hret as (url & prompt & -> & _). simpl. peel_calls. }
  eapply writesCleaned_trans; [by apply (writesCleaned_step (EvTree rootDir))|].
  destruct (existsSync pf h1 (dirname pf path)); unfold ret; simpl.
  - eapply writesCleaned_write; [done|done|by apply suffix_cons_r|].
    intros p c. rewrite length_cons, Nat.sub_succ_l, Nat.sub_diag by done. simpl.
    by intros ?%list_elem_of_singleton.
  - destruct (mkdirSync pf _ _) as [e|]; simpl.
    + destruct Hret as (url & prompt & -> & _). peel_calls.
    + eapply writesCleaned_write; [done|done|by do 2 apply suffix_cons_r|].
      intros p c. rewrite !length_cons.
      replace (S (S (length h1)) - length h1) with 2 by lia. simpl.
      intros Hin. apply elem_of_cons in Hin as [|Hin]; [done|].
      by apply list_elem_of_singleton in Hin.
Qed.

Lemma writesCleaned_modifyFile path s rootDir h :
  writesCleaned pf h (snd (modifyFile pf path s rootDir h)).
Proof.
  unfold modifyFile, bind, call.
  destruct (readFileSync pf h path) as [e|current]; simpl; [peel_calls|].
  destruct (getFileTreeString pf _ rootDir) as [e|ctx]; simpl; [peel_calls|].
  destruct (callOpenRouter _ _ _ _ _) as [[e|content] h1] eqn:Hcall.
  { pose proof (writesCleaned_callOpenRouter modifySystemPrompt
                  (modifyUserPrompt path s ctx current) defaultModel
                  (EvTree rootDir :: EvRead path :: h)) as H.
    rewrite Hcall in H. simpl in *.
    eapply writesCleaned_trans; [|exact H]. peel_calls. }
  apply callOpenRouter_returned in Hcall as Hret.
  destruct (trimmedClean pf content h1) as [[e|clean] h1'] eqn:Hclean;
    pose proof (trimmedClean_history _ _ _ _ Hclean) as ->.
  { destruct Hret as (url & prompt & -> & _). simpl. peel_calls. }
  simpl. eapply writesCleaned_trans; [|eapply writesCleaned_write; [done|done|done|]].
  - peel_calls.
  - intros p c. rewrite Nat.sub_diag. simpl. apply not_elem_of_nil.
Qed.

Lemma writesCleaned_processFiles s rootDir : ∀ paths h,
  writesCleaned pf h (snd (processFiles pf s rootDir paths h)).
Proof.
  induction paths as [|path rest IH]; intros h; [apply writesCleaned_refl|].
  simpl. unfold bind at 1. unfold call at 1. unfold bind.
  destruct (existsSync pf h _).
  - pose proof (writesCleaned_modifyFile (rootDir ++ [c_slash] ++ path) s rootDir
                  (EvExists (rootDir ++ [c_slash] ++ path) :: h)) as H.
    destruct (modifyFile _ _ _ _ _) as [[e|[]] h1]; simpl in H.
    + eapply writesCleaned_trans; [|exact H]. peel_calls.
    + eapply writesCleaned_trans; [|apply IH].
      eapply writesCleaned_trans; [|exact H]. peel_calls.
  - pose proof (writesCleaned_createFile (rootDir ++ [c_slash] ++ path) s rootDir
                  (EvExists (rootDir ++ [c_slash] ++ path) :: h)) as H.
    destruct (createFile _ _ _ _ _) as [[e|[]] h1]; simpl in H.
    + eapply writesCleaned_trans; [|exact H]. peel_calls.
    + eapply writesCleaned_trans; [|apply IH].
      eapply writesCleaned_trans; [|exact H]. peel_calls.
Qed.

Lemma writesCleaned_executeStep s rootDir h :
  writesCleaned pf h (snd (executeStep pf s rootDir h)).
Proof.
  unfold executeStep, try_catch.
  destruct (files s) as [[|path rest]|]; try apply writesCleaned_refl.
  unfold bind.
  pose proof (writesCleaned_processFiles s rootDir (path :: rest) h) as H.
  by destruct (processFiles _ _ _ _ _) as [[e|[]] h1].
Qed.

(** C10, as it is on the code: every file a step writes holds
    [cleanContent raw] for a text [raw] the upstream returned in that run;
    [cleanContent] always trims [raw] first, removes fences only when the
    trimmed text starts with three backticks, and otherwise writes the
    trimmed text, which neither begins nor ends with whitespace. *)
Theorem C10_written_content_is_cleaned s rootDir h :
  ∃ new,
    snd (executeStep pf s rootDir h) = new ++ h
    ∧ ∀ p c, EvWrite p c ∈ new →
        ∃ raw,
          llmReturned pf (new ++ h) raw
          ∧ c = cleanContent raw
          ∧ (startsWith fence (trim raw) = false → c = trim raw ∧ noEdgeWhitespace c)
          ∧ (startsWith fence (trim raw) = true →
             c = removeClosingFence (removeOpeningFence (trim raw))).
Proof.
  destruct (writesCleaned_executeStep s rootDir h) as (new & Hnew & Hw).
  exists new. split; [done|]. intros p c Hin.
  destruct (Hw p c Hin) as (raw & Hraw & ->). exists raw.
  rewrite <- Hnew. split; [done|]. split; [done|]. split.
  - intros Hf. rewrite cleanContent_unfenced by done.
    split; [done|apply trim_noEdgeWhitespace].
  - apply cleanContent_fenced.
Qed.

End WriteFacts.

Lemma C10_written_content_is_cleaned_witness :
  ∃ new,
    snd (executeStep (replyPlatform (Response 200 (geminiBody (lit "  let x = 1;  "))))
           (fileStep 2 "src/a.ts") (lit "/w") [])
    = new ++ []
    ∧ EvWrite (lit "/w/src/a.ts") (lit "let x = 1;") ∈ new
    ∧ noEdgeWhitespace (lit "let x = 1;").
Proof.
  destruct (C10_written_content_is_cleaned
              (replyPlatform (Response 200 (geminiBody (lit "  let x = 1;  "))))
              (fileStep 2 "src/a.ts") (lit "/w") []) as (new & Hnew & Hw).
  exists new. split; [exact Hnew|].
  assert (Hin : EvWrite (lit "/w/src/a.ts") (lit "let x = 1;") ∈ new).
  { rewrite app_nil_r in Hnew. rewrite <- Hnew. vm_compute. left. }
  split; [exact Hin|].
  replace (lit "let x = 1;") with (trim (lit "  let x = 1;  "))
    by (vm_compute; reflexivity).
  apply trim_noEdgeWhitespace.
Defined.

(** C10 as stated fails: when the answer is fenced, what is left after the
    fences is written as it is, here with a leading line feed. *)
Lemma C10_fenced_counterexample :
  head (snd (executeStep (replyPlatform (Response 200 (geminiBody fencedAnswer)))
               (fileStep 2 "src/a.ts") (lit "/w") []))
  = Some (EvWrite (lit "/w/src/a.ts") (c_lf :: lit " let x = 1;"))
  ∧ isWhiteSpace c_lf = true
  ∧ ¬ noEdgeWhitespace (c_lf :: lit " let x = 1;").
Proof.
  split; [vm_compute; reflexivity|]. split; [reflexivity|].
  intros [Hhead _]. by specialize (Hhead c_lf eq_refl).
Qed.

(** ** Plan parser *)

Example JSON_parse_example :
  JSON_parse (jlit "{'a' : [1, 2.5e1, 'x\nA'], 'b': {'c': null, 'a': true}, 'a': false}")
  = Some (JObj [(lit "a", JBool false);
                (lit "b", JObj [(lit "c", JNull); (lit "a", JBool true)])]).
Proof. vm_compute. reflexivity. Qed.

Lemma greedyToBrace_lastIndexOf r :
  greedyToBrace r = (λ j, take (S j) r) <$> lastIndexOf c_rbrace r.
Proof.
  induction r as [|c r IH]; [done|].
  simpl. rewrite IH. destruct (lastIndexOf c_rbrace r); simpl; [done|].
  by destruct (c =? c_rbrace)%N.
Qed.

Lemma matchBraces_no_closing r :
  lastIndexOf c_rbrace r = None → matchBraces r = None.
Proof.
  induction r as [|c r IH]; [done|].
  simpl. destruct (lastIndexOf c_rbrace r) eqn:Hl; [done|].
  intros _. rewrite greedyToBrace_lastIndexOf, Hl. simpl.
  rewrite IH by done. by destruct (c =? c_lbrace)%N.
Qed.

Lemma braceSpan_skip c r :
  c ≠ c_lbrace → braceSpan (c :: r) = braceSpan r.
Proof.
  intros Hc. unfold braceSpan. simpl.
  destruct (N.eqb_spec c c_lbrace) as [|_]; [done|].
  destruct (indexOf c_lbrace r) as [i|]; simpl; [|done].
  destruct (lastIndexOf c_rbrace r) as [j|]; simpl; [done|].
  by destruct (c =? c_rbrace)%N.
Qed.

(** The regular expression of the source selects the span the
    specification describes. *)
Lemma matchBraces_braceSpan s : matchBraces s = braceSpan s.
Proof.
  induction s as [|c r IH]; [done|].
  simpl. destruct (N.eqb_spec c c_lbrace) as [->|Hc].
  - rewrite greedyToBrace_lastIndexOf. unfold braceSpan. simpl.
    destruct (lastIndexOf c_rbrace r) as [j|] eqn:Hl; simpl; [done|].
    by apply matchBraces_no_closing.
  - by rewrite braceSpan_skip.
Qed.

Lemma isArray_truthy v : isArray v = true → truthy v = true.
Proof. by destruct v as [[]|]. Qed.

Lemma source_check_validPlanShape v :
  negb (truthy (member (lit "summary") v))
  || negb (truthy (member (lit "steps") v))
  || negb (isArray (member (lit "steps") v))
  = negb (validPlanShape v).
Proof.
  unfold validPlanShape.
  destruct (truthy (member (lit "summary") v)); [|done]. simpl.
  destruct (isArray (member (lit "steps") v)) eqn:Ha.
  - by rewrite (isArray_truthy _ Ha).
  - by rewrite orb_true_r.
Qed.

Lemma parsePlanResponse_refines_spec s : parsePlanResponse s = parsePlan_spec s.
Proof.
  unfold parsePlanResponse, parsePlan_spec. rewrite matchBraces_braceSpan.
  destruct (braceSpan s) as [span|]; [|done].
  destruct (JSON_parse span) as [v|]; [|done].
  destruct v; try done; rewrite source_check_validPlanShape;
    by destruct (validPlanShape _).
Qed.

Lemma indexOf_app c pre post :
  c ∉ pre → indexOf c (pre ++ c :: post) = Some (length pre).
Proof.
  induction pre as [|x pre IH]; intros Hpre; simpl.
  - by rewrite N.eqb_refl.
  - apply not_elem_of_cons in Hpre as [Hx Hpre].
    destruct (N.eqb_spec x c) as [->|_]; [done|]. by rewrite IH.
Qed.

Lemma indexOf_split c s i :
  indexOf c s = Some i →
  ∃ pre post, s = pre ++ c :: post ∧ (c ∉ pre) ∧ length pre = i.
Proof.
  revert i. induction s as [|x s IH]; intros i; simpl; [done|].
  destruct (N.eqb_spec x c) as [->|Hx].
  - intros [= <-]. exists [], s. split; [done|]. split; [apply not_elem_of_nil|done].
  - destruct (indexOf c s) as [k|]; simpl; [|done]. intros [= <-].
    destruct (IH k eq_refl) as (pre & post & -> & Hpre & <-).
    exists (x :: pre), post. split; [done|]. split; [|done].
    apply not_elem_of_cons. split; [done|done].
Qed.

Lemma lastIndexOf_None c s : c ∉ s → lastIndexOf c s = None.
Proof.
  induction s as [|x s IH]; [done|].
  intros [Hx Hs]%not_elem_of_cons. simpl. rewrite IH by done.
  by destruct (N.eqb_spec x c) as [->|_].
Qed.

Lemma lastIndexOf_app c pre post :
  c ∉ post → lastIndexOf c (pre ++ c :: post) = Some (length pre).
Proof.
  intros Hpost. induction pre as [|x pre IH]; simpl.
  - by rewrite lastIndexOf_None, N.eqb_refl.
  - by rewrite IH.
Qed.

Lemma lastIndexOf_None_inv c s : lastIndexOf c s = None → c ∉ s.
Proof.
  induction s as [|x s IH]; [intros _; apply not_elem_of_nil|].
  simpl. destruct (lastIndexOf c s); [done|].
  destruct (N.eqb_spec x c) as [|Hx]; [done|]. intros _.
  apply not_elem_of_cons. split; [done|by apply IH].
Qed.

Lemma lastIndexOf_split c s j :
  lastIndexOf c s = Some j →
  ∃ pre post, s = pre ++ c :: post ∧ (c ∉ post) ∧ length pre = j.
Proof.
  revert j. induction s as [|x s IH]; intros j; simpl; [done|].
  destruct (lastIndexOf c s) as [k|] eqn:Hl.
  - intros [= <-]. destruct (IH k eq_refl) as (pre & post & -> & Hpost & <-).
    by exists (x :: pre), post.
  - destruct (N.eqb_spec x c) as [->|Hx]; [|done].
    intros [= <-]. exists [], s. split; [done|]. split; [|done].
    by apply lastIndexOf_None_inv.
Qed.

Lemma take_through {A} (mid post : list A) x :
  take (S (length mid)) (mid ++ x :: post) = mid ++ [x].
Proof. induction mid as [|y mid IH]; simpl; [done|by f_equal]. Qed.

(** The span runs from the first opening brace to the last closing
    brace, when the latter comes after the former. *)
Lemma braceSpan_decompose s span :
  braceSpan s = Some span ↔
  ∃ pre mid post,
    s = pre ++ [c_lbrace] ++ mid ++ [c_rbrace] ++ post
    ∧ (c_lbrace ∉ pre) ∧ (c_rbrace ∉ post)
    ∧ span = [c_lbrace] ++ mid ++ [c_rbrace].
Proof.
  unfold braceSpan. split.
  - destruct (indexOf c_lbrace s) as [i|] eqn:Hi; [|done].
    destruct (lastIndexOf c_rbrace s) as [j|] eqn:Hj; [|done].
    destruct (Nat.ltb_spec i j) as [Hij|]; [|done]. intros [= <-].
    apply indexOf_split in Hi as (pre1 & post1 & Hs1 & Hpre & <-).
    apply lastIndexOf_split in Hj as (pre2 & post2 & Hs2 & Hpost & <-).
    assert (Heq : pre1 ++ c_lbrace :: post1 = pre2 ++ c_rbrace :: post2) by congruence.
    apply app_eq_inv in Heq as [(k & -> & Hk)|(k & -> & Hk)].
    { rewrite length_app in Hij. lia. }
    destruct k as [|x mid]; [rewrite app_nil_r in Hij; lia|].
    injection Hk as <- ->. exists pre1, mid, post2.
    split; [done|]. split; [done|]. split; [done|].
    rewrite Hs1, drop_app_length, length_app. simpl.
    replace (S (length pre1 + S (length mid)) - length pre1) with (S (S (length mid)))
      by lia.
    simpl. f_equal. apply take_through.
  - intros (pre & mid & post & -> & Hpre & Hpost & ->).
    change (pre ++ [c_lbrace] ++ mid ++ [c_rbrace] ++ post)
      with (pre ++ c_lbrace :: mid ++ c_rbrace :: post).
    rewrite indexOf_app by done.
    replace (pre ++ c_lbrace :: mid ++ c_rbrace :: post)
      with ((pre ++ c_lbrace :: mid) ++ c_rbrace :: post)
      by (by rewrite <- app_assoc).
    rewrite lastIndexOf_app by done. rewrite length_app. simpl.
    destruct (Nat.ltb_spec (length pre) (length pre + S (length mid))); [|lia].
    f_equal. rewrite <- app_assoc, drop_app_length.
    replace (S (length pre + S (length mid)) - length pre) with (S (S (length mid)))
      by lia.
    simpl. f_equal. apply take_through.
Qed.

(** C2: [parsePlanResponse] (the spec's parsePlan) takes the span from the
    first opening brace to the last closing brace, parses it, and returns
    the parsed plan when [summary] is truthy and [steps] is an array; it
    returns null, and never raises, when there is no such span, when the
    span does not parse, when [summary] is missing or falsy, and when
    [steps] is absent or not an array.  It recovers the plan from prose and
    fences, and rejects "not json at all" and a plan without summary. *)
Theorem C2_parsePlanResponse_contract :
  (∀ s, parsePlanResponse s = parsePlan_spec s)
  ∧ (∀ s span,
       braceSpan s = Some span ↔
       ∃ pre mid post,
         s = pre ++ [c_lbrace] ++ mid ++ [c_rbrace] ++ post
         ∧ (c_lbrace ∉ pre) ∧ (c_rbrace ∉ post)
         ∧ span = [c_lbrace] ++ mid ++ [c_rbrace])
  ∧ (∀ s, braceSpan s = None → parsePlanResponse s = None)
  ∧ (∀ s span, braceSpan s = Some span →
       match JSON_parse span with
       | None => parsePlanResponse s = None
       | Some v =>
           (truthy (member (lit "summary") v) = false → parsePlanResponse s = None)
           ∧ (isArray (member (lit "steps") v) = false → parsePlanResponse s = None)
           ∧ (truthy (member (lit "summary") v) = true →
              isArray (member (lit "steps") v) = true →
              parsePlanResponse s = Some v)
       end)
  ∧ parsePlanResponse (jlit "Here is the plan:
```json
{'summary':'x','steps':[]}
```")
    = Some (JObj [(lit "summary", JStr (lit "x")); (lit "steps", JArr [])])
  ∧ parsePlanResponse (lit "not json at all") = None
  ∧ parsePlanResponse (jlit "{'steps':[]}") = None.
Proof.
  split; [exact parsePlanResponse_refines_spec|].
  split; [exact braceSpan_decompose|].
  split; [|split; [|repeat split; vm_compute; reflexivity]].
  - intros s Hs. rewrite parsePlanResponse_refines_spec. unfold parsePlan_spec.
    by rewrite Hs.
  - intros s span Hs. rewrite parsePlanResponse_refines_spec. unfold parsePlan_spec.
    rewrite Hs. destruct (JSON_parse span) as [v|]; [|done].
    unfold validPlanShape. repeat split.
    + by intros ->.
    + intros ->. by rewrite andb_false_r.
    + by intros -> ->.
Qed.

Lemma C2_parsePlanResponse_contract_witness :
  parsePlanResponse (jlit "Sure. {'summary':'Add login','steps':[{'step':1}]} Done.")
  = Some (JObj [(lit "summary", JStr (lit "Add login"));
                (lit "steps", JArr [JObj [(lit "step", JNum 1)]])]).
Proof.
  destruct C2_parsePlanResponse_contract as (_ & _ & _ & H & _).
  specialize (H (jlit "Sure. {'summary':'Add login','steps':[{'step':1}]} Done.")
                (jlit "{'summary':'Add login','steps':[{'step':1}]}")).
  assert (Hspan : braceSpan (jlit "Sure. {'summary':'Add login','steps':[{'step':1}]} Done.")
                  = Some (jlit "{'summary':'Add login','steps':[{'step':1}]}"))
    by (vm_compute; reflexivity).
  specialize (H Hspan).
  assert (Hparse : JSON_parse (jlit "{'summary':'Add login','steps':[{'step':1}]}")
                   = Some (JObj [(lit "summary", JStr (lit "Add login"));
                                 (lit "steps", JArr [JObj [(lit "step", JNum 1)]])]))
    by (vm_compute; reflexivity).
  rewrite Hparse in H. destruct H as (_ & _ & H).
  apply H; vm_compute; reflexivity.
Defined.

(** ** Round trip of [JSON.stringify] and [JSON.parse] *)

(** Case analysis on the comparisons of code units in the goal. *)
Ltac unit_cases :=
  repeat match goal with
    | |- context [(?a <? ?b)%N] => destruct (N.ltb_spec a b)
    | |- context [(?a <=? ?b)%N] => destruct (N.leb_spec a b)
    | |- context [(?a =? ?b)%N] => destruct (N.eqb_spec a b)
    end.

Lemma hexValue_hexDigit d : (d < 16)%N → hexValue (hexDigit d) = Some d.
Proof.
  intros. unfold hexValue, hexDigit, isDigit, in_range.
  unit_cases; simpl; try lia; f_equal; lia.
Qed.

Lemma hex4_value c :
  (c < 65536)%N →
  ((c / 4096 mod 16) * 4096 + (c / 256 mod 16) * 256 + (c / 16 mod 16) * 16 + c mod 16
   = c)%N.
Proof.
  intros Hc.
  replace (c / 4096)%N with (c / 16 / 16 / 16)%N by (by rewrite !N.Div0.div_div).
  replace (c / 256)%N with (c / 16 / 16)%N by (by rewrite !N.Div0.div_div).
  pose proof (N.div_mod c 16 ltac:(done)) as E1.
  pose proof (N.div_mod (c / 16) 16 ltac:(done)) as E2.
  pose proof (N.div_mod (c / 16 / 16) 16 ltac:(done)) as E3.
  pose proof (N.div_mod (c / 16 / 16 / 16) 16 ltac:(done)) as E4.
  pose proof (N.mod_lt c 16 ltac:(done)) as H1.
  pose proof (N.mod_lt (c / 16) 16 ltac:(done)) as H2.
  pose proof (N.mod_lt (c / 16 / 16) 16 ltac:(done)) as H3.
  pose proof (N.mod_lt (c / 16 / 16 / 16) 16 ltac:(done)) as H4.
  generalize dependent (c / 16 / 16 / 16 mod 16)%N. intros m4.
  generalize dependent (c / 16 / 16 / 16 / 16)%N. intros q4.
  generalize dependent (c / 16 / 16 mod 16)%N. intros m3.
  generalize dependent (c / 16 / 16 / 16)%N. intros q3.
  generalize dependent (c / 16 / 16)%N. intros q2.
  generalize dependent (c / 16 mod 16)%N. intros m2.
  generalize dependent (c / 16)%N. intros q1.
  generalize dependent (c mod 16)%N. intros m1. intros. lia.
Qed.

(** The parser reads an escape [\uXXXX] back as the code unit. *)
Lemma parse_chars_unicodeEscape c s :
  (c < 65536)%N →
  parse_chars (unicodeEscape c ++ s)
  = match parse_chars s with
    | Some (cs, rest) => Some (c :: cs, rest)
    | None => None
    end.
Proof.
  intros Hc. unfold unicodeEscape.
  cbn [app parse_chars]. cbn [N.eqb Pos.eqb].
  rewrite !hexValue_hexDigit by (apply N.mod_lt; done).
  by rewrite hex4_value.
Qed.

Lemma parse_chars_plain c s :
  plainUnit c = true →
  parse_chars (c :: s)
  = match parse_chars s with
    | Some (cs, rest) => Some (c :: cs, rest)
    | None => None
    end.
Proof.
  unfold plainUnit. intros H. simpl.
  destruct (c =? c_quote)%N; [done|]. destruct (c =? c_backslash)%N; [done|].
  by destruct (c <? 32)%N.
Qed.

Lemma surrogate_bounds c :
  isHighSurrogate c = true ∨ isLowSurrogate c = true →
  (c < 65536)%N ∧ plainUnit c = true.
Proof.
  unfold isHighSurrogate, isLowSurrogate, plainUnit, in_range.
  intros [H|H]; apply andb_true_iff in H as [H1 H2];
    apply N.leb_le in H1, H2; (split; [lia|]);
    unit_cases; simpl; try done; lia.
Qed.

Lemma parse_chars_quoteUnit c s :
  isHighSurrogate c = false →
  parse_chars (quoteUnit c ++ s)
  = match parse_chars s with
    | Some (cs, rest) => Some (c :: cs, rest)
    | None => None
    end.
Proof.
  intros Hhigh. unfold quoteUnit.
  destruct (N.eqb_spec c 8) as [->|?]; [done|].
  destruct (N.eqb_spec c c_tab) as [->|?]; [done|].
  destruct (N.eqb_spec c c_lf) as [->|?]; [done|].
  destruct (N.eqb_spec c 12) as [->|?]; [done|].
  destruct (N.eqb_spec c c_cr) as [->|?]; [done|].
  destruct (N.eqb_spec c c_quote) as [->|?]; [done|].
  destruct (N.eqb_spec c c_backslash) as [->|?]; [done|].
  rewrite Hhigh, orb_false_r.
  destruct (N.ltb_spec c 32) as [Hlt|Hge]; simpl.
  - apply parse_chars_unicodeEscape. lia.
  - destruct (isLowSurrogate c) eqn:Hlow.
    + apply parse_chars_unicodeEscape.
      by apply (surrogate_bounds c); right.
    + apply parse_chars_plain. unfold plainUnit. unit_cases; simpl; try done; lia.
Qed.

Lemma quoteUnits_cons c r :
  quoteUnits (c :: r)
  = if isHighSurrogate c then
      match r with
      | d :: r' =>
          if isLowSurrogate d then c :: d :: quoteUnits r'
          else unicodeEscape c ++ quoteUnits r
      | [] => unicodeEscape c
      end
    else quoteUnit c ++ quoteUnits r.
Proof. reflexivity. Qed.

Lemma parse_chars_quoteUnits_length n : ∀ s rest,
  length s ≤ n →
  parse_chars (quoteUnits s ++ c_quote :: rest) = Some (s, rest).
Proof.
  induction n as [|n IH]; intros s rest Hlen.
  - by destruct s; [|simpl in Hlen; lia].
  - destruct s as [|c r]; [done|]. simpl in Hlen. rewrite quoteUnits_cons.
    destruct (isHighSurrogate c) eqn:Hhigh.
    + destruct (surrogate_bounds c (or_introl Hhigh)) as [Hc Hplain].
      destruct r as [|d r'].
      * rewrite parse_chars_unicodeEscape by done. done.
      * destruct (isLowSurrogate d) eqn:Hlow.
        -- destruct (surrogate_bounds d (or_intror Hlow)) as [_ Hplain'].
           rewrite <- !app_comm_cons.
           rewrite parse_chars_plain, parse_chars_plain by done.
           rewrite IH; [done|]. simpl in Hlen. lia.
        -- rewrite <- app_assoc, parse_chars_unicodeEscape by done.
           rewrite IH; [done|]. lia.
    + rewrite <- app_assoc, parse_chars_quoteUnit by done.
      rewrite IH; [done|]. lia.
Qed.

Lemma parse_chars_quoteUnits s rest :
  parse_chars (quoteUnits s ++ c_quote :: rest) = Some (s, rest).
Proof. by apply (parse_chars_quoteUnits_length (length s)). Qed.

Lemma digitsValue_snoc ds d : digitsValue (ds ++ [d]) = (digitsValue ds * 10 + d)%N.
Proof. unfold digitsValue. by rewrite fold_left_app. Qed.

Lemma digits_fuel_S f n acc :
  digits_fuel (S f) n acc
  = if (n <? 10)%N then (48 + n mod 10)%N :: acc
    else digits_fuel f (n / 10)%N ((48 + n mod 10)%N :: acc).
Proof. reflexivity. Qed.

Lemma digits_fuel_spec f : ∀ n acc,
  (n < 2 ^ N.of_nat (S f))%N →
  ∃ ds c0,
    digits_fuel (S f) n acc = ds ++ acc
    ∧ head ds = Some c0
    ∧ Forall (λ c, isDigit c = true) ds
    ∧ digitsValue (map digitOf ds) = n
    ∧ (n ≠ 0%N → c0 ≠ 48%N)
    ∧ (n = 0%N → ds = [48%N]).
Proof.
  induction f as [|f IH]; intros n acc Hn.
  - assert (n = 0 ∨ n = 1)%N as [->| ->] by (simpl in Hn; lia);
      eexists [_], _; repeat split; try done; by repeat constructor.
  - rewrite digits_fuel_S. destruct (N.ltb_spec n 10) as [Hlt|Hge].
    + pose proof (N.mod_small n 10 Hlt) as Hmod. rewrite Hmod.
      exists [(48 + n)%N], (48 + n)%N. repeat split; try done.
      * repeat constructor. unfold isDigit, in_range. unit_cases; simpl; try done; lia.
      * unfold digitsValue, digitOf. simpl. lia.
      * lia.
      * by intros ->.
    + destruct (IH (n / 10)%N ((48 + n mod 10)%N :: acc)) as
        (ds & c0 & Heq & Hhead & Hds & Hval & Hnz & _).
      { rewrite Nat2N.inj_succ, N.pow_succ_r' in Hn.
        pose proof (N.div_mod n 10 ltac:(done)).
        pose proof (N.mod_lt n 10 ltac:(done)).
        generalize dependent (n / 10)%N. generalize dependent (n mod 10)%N.
        intros. lia. }
      pose proof (N.div_mod n 10 ltac:(done)) as Hdm.
      pose proof (N.mod_lt n 10 ltac:(done)) as Hm.
      exists (ds ++ [(48 + n mod 10)%N]), c0. repeat split.
      * rewrite Heq. by rewrite <- app_assoc.
      * destruct ds; [done|]. done.
      * apply Forall_app. split; [done|]. repeat constructor.
        unfold isDigit, in_range.
        generalize dependent (n mod 10)%N. intros. unit_cases; simpl; try done; lia.
      * rewrite map_app. cbn [map]. rewrite digitsValue_snoc, Hval. unfold digitOf.
        generalize dependent (n / 10)%N. generalize dependent (n mod 10)%N.
        intros. lia.
      * intros _. apply Hnz.
        generalize dependent (n / 10)%N. generalize dependent (n mod 10)%N.
        intros. lia.
      * lia.
Qed.

Lemma N_to_string_spec n :
  ∃ ds c0,
    N_to_string n = ds
    ∧ head ds = Some c0
    ∧ Forall (λ c, isDigit c = true) ds
    ∧ digitsValue (map digitOf ds) = n
    ∧ (n ≠ 0%N → c0 ≠ 48%N)
    ∧ (n = 0%N → ds = [48%N]).
Proof.
  unfold N_to_string.
  destruct (digits_fuel_spec (N.to_nat (N.log2 n)) n []) as (ds & c0 & Heq & H).
  - rewrite Nat2N.inj_succ, N2Nat.id.
    destruct (N.eq_dec n 0%N) as [->|Hn]; [done|].
    apply N.log2_spec. lia.
  - exists ds, c0. by rewrite Heq, app_nil_r.
Qed.

Lemma takeDigits_app ds rest :
  Forall (λ c, isDigit c = true) ds →
  delimited rest →
  takeDigits (ds ++ rest) = (map digitOf ds, rest).
Proof.
  intros Hds Hrest. induction Hds as [|c ds Hc _ IH]; simpl.
  - destruct rest as [|c r]; [done|].
    simpl in Hrest. unfold isDigit, in_range.
    destruct Hrest as [->|[->| ->]]; done.
  - by rewrite Hc, IH.
Qed.

Lemma parse_frac_delimited rest : delimited rest → parse_frac rest = Some ([], rest).
Proof. destruct rest as [|c r]; [done|]. by intros [->|[->| ->]]. Qed.

Lemma parse_exp_delimited rest : delimited rest → parse_exp rest = Some (0%Z, rest).
Proof. destruct rest as [|c r]; [done|]. by intros [->|[->| ->]]. Qed.

Lemma decimalValue_integer neg mant :
  decimalValue neg mant 0
  = inject_Z (if neg then - Z.of_N mant else Z.of_N mant)%Z.
Proof.
  unfold decimalValue. cbn [Z.leb Z.compare]. rewrite Z.pow_0_r, Z.mul_1_r.
  apply Qcanon.Qred_identity. simpl. apply Z.gcd_1_r.
Qed.

Lemma parse_number_digits (neg : bool) ds c0 rest :
  head ds = Some c0 → c0 ≠ 48%N →
  Forall (λ c, isDigit c = true) ds →
  delimited rest →
  parse_number ((if neg then [c_minus] else @nil N) ++ ds ++ rest)
  = Some (JNum (decimalValue neg (digitsValue (map digitOf ds)) 0), rest).
Proof.
  intros Hhead Hnz Hds Hrest. unfold parse_number.
  assert (Hsign : parse_sign ((if neg then [c_minus] else @nil N) ++ ds ++ rest)
                  = (neg, ds ++ rest)).
  { destruct neg; [done|]. destruct ds as [|c ds']; [done|].
    injection Hhead as ->. simpl. apply Forall_cons in Hds as [Hc _].
    unfold isDigit, in_range in Hc.
    destruct (N.eqb_spec c0 c_minus) as [->|]; done. }
  rewrite Hsign.
  assert (Hint : parse_int (ds ++ rest) = Some (map digitOf ds, rest)).
  { destruct ds as [|c ds'] eqn:Heq; [done|]. injection Hhead as ->.
    unfold parse_int. rewrite <- app_comm_cons.
    destruct (N.eqb_spec c0 48) as [|_]; [done|].
    pose proof Hds as Hds'. apply Forall_cons in Hds' as [-> _].
    rewrite app_comm_cons. by rewrite takeDigits_app. }
  rewrite Hint, parse_frac_delimited, parse_exp_delimited by done.
  by rewrite app_nil_r.
Qed.

(** The parser reads the digits of an integer back as that integer. *)
Lemma parse_number_Z_to_string z rest :
  delimited rest →
  parse_number (Z_to_string z ++ rest) = Some (JNum (inject_Z z), rest).
Proof.
  intros Hrest. destruct z as [|p|p].
  - simpl. unfold parse_number. simpl.
    rewrite parse_frac_delimited, parse_exp_delimited by done. done.
  - simpl. destruct (N_to_string_spec (Npos p)) as (ds & c0 & -> & Hh & Hds & Hv & Hnz & _).
    pose proof (parse_number_digits false ds c0 rest Hh (Hnz ltac:(done)) Hds Hrest) as H.
    cbn [app] in H. by rewrite H, Hv, decimalValue_integer.
  - simpl. destruct (N_to_string_spec (Npos p)) as (ds & c0 & -> & Hh & Hds & Hv & Hnz & _).
    pose proof (parse_number_digits true ds c0 rest Hh (Hnz ltac:(done)) Hds Hrest) as H.
    cbn [app] in H. cbn [app]. by rewrite H, Hv, decimalValue_integer.
Qed.

(** The first code unit of the digits of an integer. *)
Lemma Z_to_string_head z :
  ∃ c t, Z_to_string z = c :: t ∧ (c = c_minus ∨ isDigit c = true).
Proof.
  destruct z as [|p|p]; simpl.
  - by exists 48%N, []; split; [|right].
  - destruct (N_to_string_spec (Npos p)) as (ds & c0 & -> & Hh & Hds & _).
    destruct ds as [|c t]; [done|]. exists c, t. split; [done|].
    right. by apply Forall_cons in Hds as [? _].
  - eexists _, _. split; [done|]. by left.
Qed.

Lemma JSON_stringify_arr items :
  JSON_stringify (JArr items)
  = match stringifyAll items with
    | Some parts => Some ([c_lbracket] ++ join [c_comma] parts ++ [c_rbracket])
    | None => None
    end.
Proof. reflexivity. Qed.

Lemma JSON_stringify_obj fields :
  JSON_stringify (JObj fields)
  = match stringifyFields fields with
    | Some parts => Some ([c_lbrace] ++ join [c_comma] parts ++ [c_rbrace])
    | None => None
    end.
Proof. reflexivity. Qed.

Lemma stringifyAll_cons x r parts :
  stringifyAll (x :: r) = Some parts →
  ∃ a b, JSON_stringify x = Some a ∧ stringifyAll r = Some b ∧ parts = a :: b.
Proof.
  change (stringifyAll (x :: r))
    with (match JSON_stringify x, stringifyAll r with
          | Some a, Some b => Some (a :: b)
          | _, _ => None
          end).
  destruct (JSON_stringify x) as [a|]; [|done].
  destruct (stringifyAll r) as [b|]; [|done].
  intros [= <-]. eauto.
Qed.

Lemma stringifyFields_cons k x r parts :
  stringifyFields ((k, x) :: r) = Some parts →
  ∃ a b, JSON_stringify x = Some a ∧ stringifyFields r = Some b
         ∧ parts = (quoteJSON k ++ [c_colon] ++ a) :: b.
Proof.
  change (stringifyFields ((k, x) :: r))
    with (match JSON_stringify x, stringifyFields r with
          | Some a, Some b => Some ((quoteJSON k ++ [c_colon] ++ a) :: b)
          | _, _ => None
          end).
  destruct (JSON_stringify x) as [a|]; [|done].
  destruct (stringifyFields r) as [b|]; [|done].
  intros [= <-]. eauto.
Qed.

Lemma stringifyAll_nil_inv r : stringifyAll r = Some [] → r = [].
Proof.
  destruct r as [|x r]; [done|].
  by intros (a & b & _ & _ & ?)%stringifyAll_cons.
Qed.

Lemma stringifyFields_nil_inv r : stringifyFields r = Some [] → r = [].
Proof.
  destruct r as [|[k x] r]; [done|].
  by intros (a & b & _ & _ & ?)%stringifyFields_cons.
Qed.

Lemma numberToString_inv q t :
  numberToString q = Some t → q = inject_Z (Qnum q) ∧ t = Z_to_string (Qnum q).
Proof.
  unfold numberToString. destruct (bool_decide_reflect (Qden q = 1%positive)) as [Hd|];
    [|done].
  destruct (inSafeRange (Qnum q)); [|done]. intros [= <-].
  split; [|done]. destruct q as [n d]. simpl in *. by subst.
Qed.

Lemma stringify_head v t :
  JSON_stringify v = Some t → ∃ c t', t = c :: t' ∧ valueStart c.
Proof.
  destruct v as [|[]|q|s|items|fields].
  - intros [= <-]. by eexists _, _.
  - intros [= <-]. by eexists _, _.
  - intros [= <-]. by eexists _, _.
  - intros [_ ->]%numberToString_inv.
    destruct (Z_to_string_head (Qnum q)) as (c & t' & -> & Hc).
    exists c, t'. split; [done|]. unfold valueStart, isJsonSpace.
    destruct Hc as [->|Hc]; [done|]. unfold isDigit, in_range in Hc.
    apply andb_true_iff in Hc as [H1 H2]. apply N.leb_le in H1, H2.
    repeat split; unit_cases; simpl; try done; lia.
  - intros [= <-]. by eexists _, _.
  - rewrite JSON_stringify_arr. destruct (stringifyAll items); [|done].
    intros [= <-]. by eexists _, _.
  - rewrite JSON_stringify_obj. destruct (stringifyFields fields); [|done].
    intros [= <-]. by eexists _, _.
Qed.

Lemma skip_ws_start c r : isJsonSpace c = false → skip_ws (c :: r) = c :: r.
Proof. intros H. unfold skip_ws. simpl. by rewrite H. Qed.

Lemma skip_ws_valueStart c r : valueStart c → skip_ws (c :: r) = c :: r.
Proof. intros [H _]. by apply skip_ws_start. Qed.

Lemma skip_ws_delimiter c r :
  c = c_comma ∨ c = c_rbracket ∨ c = c_rbrace → skip_ws (c :: r) = c :: r.
Proof. by intros [->|[->| ->]]. Qed.

Lemma parse_elements_S f acc s :
  parse_elements (S f) acc s
  = match parse_value f s with
    | None => None
    | Some (v, rest) =>
        match skip_ws rest with
        | [] => None
        | c :: r =>
            if (c =? c_comma)%N then parse_elements f (acc ++ [v]) r
            else if (c =? c_rbracket)%N then Some (JArr (acc ++ [v]), r)
            else None
        end
    end.
Proof. reflexivity. Qed.

Lemma join_cons sep a b :
  join sep (a :: b) = match b with [] => a | _ :: _ => a ++ sep ++ join sep b end.
Proof. by destruct b. Qed.

Lemma parse_elements_roundtrip items :
  Forall roundtrips items →
  ∀ parts, stringifyAll items = Some parts → items ≠ [] →
  ∀ acc rest fuel,
    2 * length (join [c_comma] parts) + 2 ≤ fuel →
    parse_elements fuel acc (join [c_comma] parts ++ c_rbracket :: rest)
    = Some (JArr (acc ++ items), rest).
Proof.
  induction 1 as [|x r Hx _ IH]; [done|].
  intros parts (a & b & Ha & Hb & ->)%stringifyAll_cons _ acc rest fuel Hfuel.
  destruct fuel as [|f]; [lia|]. rewrite parse_elements_S, join_cons.
  rewrite join_cons in Hfuel. destruct b as [|b1 b'].
  - apply stringifyAll_nil_inv in Hb as ->.
    rewrite (Hx a Ha (c_rbracket :: rest) f) by (simpl; auto; lia).
    done.
  - rewrite <- !app_assoc. cbn [app].
    rewrite !length_app in Hfuel. cbn [length] in Hfuel.
    rewrite (Hx a Ha (c_comma :: join [c_comma] (b1 :: b') ++ c_rbracket :: rest) f)
      by (simpl; auto; lia).
    cbn [skip_ws dropWhile isJsonSpace N.eqb Pos.eqb orb].
    rewrite (IH (b1 :: b') Hb); [by rewrite <- app_assoc| |lia].
    intros ->. done.
Qed.

Lemma obj_set_fresh k x acc :
  k ∉ map fst acc → obj_set k x acc = acc ++ [(k, x)].
Proof.
  induction acc as [|[k' w] acc IH]; [done|].
  simpl. intros [Hk Hacc]%not_elem_of_cons.
  unfold str_eqb. rewrite bool_decide_false by done. by rewrite IH.
Qed.

Lemma parse_members_S f acc s :
  parse_members (S f) acc s
  = match skip_ws s with
    | [] => None
    | c :: r =>
        if (c =? c_quote)%N then
          match parse_chars r with
          | None => None
          | Some (key, rest) =>
              match skip_ws rest with
              | [] => None
              | c1 :: r1 =>
                  if (c1 =? c_colon)%N then
                    match parse_value f r1 with
                    | None => None
                    | Some (v, rest1) =>
                        match skip_ws rest1 with
                        | [] => None
                        | c2 :: r2 =>
                            if (c2 =? c_comma)%N
                            then parse_members f (obj_set key v acc) r2
                            else if (c2 =? c_rbrace)%N
                            then Some (JObj (obj_set key v acc), r2)
                            else None
                        end
                    end
                  else None
              end
          end
        else None
    end.
Proof. reflexivity. Qed.

Lemma quoteJSON_app s tail :
  quoteJSON s ++ tail = c_quote :: quoteUnits s ++ c_quote :: tail.
Proof. unfold quoteJSON. simpl. by rewrite <- app_assoc. Qed.

(** The text of a member, ready for the parser. *)
Lemma member_text k a tail :
  (quoteJSON k ++ [c_colon] ++ a) ++ tail
  = c_quote :: quoteUnits k ++ c_quote :: c_colon :: a ++ tail.
Proof. unfold quoteJSON. by rewrite <- !app_assoc. Qed.

Lemma member_length k a :
  length (quoteJSON k ++ [c_colon] ++ a) = length (quoteUnits k) + length a + 3.
Proof. unfold quoteJSON. rewrite !length_app. simpl. lia. Qed.

Lemma parse_members_roundtrip fields :
  Forall (λ kv, roundtrips (snd kv)) fields →
  ∀ parts, stringifyFields fields = Some parts → fields ≠ [] →
  ∀ acc rest fuel,
    NoDup (map fst (acc ++ fields)) →
    2 * length (join [c_comma] parts) + 2 ≤ fuel →
    parse_members fuel acc (join [c_comma] parts ++ c_rbrace :: rest)
    = Some (JObj (acc ++ fields), rest).
Proof.
  induction 1 as [|[k x] r Hx _ IH]; [done|].
  intros parts (a & b & Ha & Hb & ->)%stringifyFields_cons _ acc rest fuel Hdup Hfuel.
  destruct fuel as [|f]; [lia|]. rewrite parse_members_S, join_cons.
  rewrite join_cons in Hfuel. simpl in Hx.
  assert (Hfresh : k ∉ map fst acc).
  { rewrite map_app in Hdup. apply NoDup_app in Hdup as (_ & Hdis & _).
    intros Hin. apply (Hdis k Hin). left. }
  destruct b as [|b1 b'].
  - apply stringifyFields_nil_inv in Hb as ->.
    rewrite member_text, skip_ws_start by done. cbn [N.eqb Pos.eqb].
    rewrite parse_chars_quoteUnits, skip_ws_start by done. cbn [N.eqb Pos.eqb].
    rewrite member_length in Hfuel.
    rewrite (Hx a Ha (c_rbrace :: rest) f) by (simpl; auto; lia).
    rewrite obj_set_fresh by done. done.
  - rewrite <- (app_assoc _ _ (c_rbrace :: rest)).
    rewrite member_text, skip_ws_start by done. cbn [N.eqb Pos.eqb].
    rewrite parse_chars_quoteUnits, skip_ws_start by done. cbn [N.eqb Pos.eqb].
    rewrite length_app, member_length, length_app in Hfuel. cbn [length] in Hfuel.
    rewrite <- app_assoc. cbn [app].
    rewrite (Hx a Ha (c_comma :: join [c_comma] (b1 :: b') ++ c_rbrace :: rest) f)
      by (simpl; auto; lia).
    cbn [skip_ws dropWhile isJsonSpace N.eqb Pos.eqb orb].
    rewrite obj_set_fresh by done.
    rewrite (IH (b1 :: b') Hb); [by rewrite <- app_assoc| | |lia].
    + intros ->. done.
    + by rewrite <- app_assoc.
Qed.

Lemma parse_value_S f s :
  parse_value (S f) s
  = match skip_ws s with
    | [] => None
    | c :: r =>
        if (c =? c_lbrace)%N then
          match skip_ws r with
          | [] => None
          | c1 :: r1 =>
              if (c1 =? c_rbrace)%N then Some (JObj [], r1)
              else parse_members f [] r
          end
        else if (c =? c_lbracket)%N then
          match skip_ws r with
          | [] => None
          | c1 :: r1 =>
              if (c1 =? c_rbracket)%N then Some (JArr [], r1)
              else parse_elements f [] r
          end
        else if (c =? c_quote)%N then
          match parse_chars r with
          | Some (str, rest) => Some (JStr str, rest)
          | None => None
          end
        else if (c =? c_minus)%N || isDigit c then parse_number (c :: r)
        else parse_keyword (c :: r)
    end.
Proof. reflexivity. Qed.

Lemma parse_value_number f c r :
  c = c_minus ∨ isDigit c = true →
  parse_value (S f) (c :: r) = parse_number (c :: r).
Proof.
  intros Hc. rewrite parse_value_S.
  assert (isJsonSpace c = false ∧ (c =? c_lbrace)%N = false
          ∧ (c =? c_lbracket)%N = false ∧ (c =? c_quote)%N = false
          ∧ (c =? c_minus)%N || isDigit c = true) as (H1 & H2 & H3 & H4 & H5).
  { destruct Hc as [->|Hc]; [done|]. rewrite Hc, orb_true_r.
    unfold isDigit, in_range in Hc. apply andb_true_iff in Hc as [Ha Hb].
    apply N.leb_le in Ha, Hb. unfold isJsonSpace.
    repeat split; unit_cases; simpl; try done; lia. }
  by rewrite skip_ws_start, H2, H3, H4, H5.
Qed.

(** Every value without a repeated property name is read back from its
    serialization. *)
Lemma stringify_roundtrip v : json_wf v → roundtrips v.
Proof.
  induction v as [|b|q|s|items IH|fields IH] using json_nested_ind;
    intros Hwf t Ht rest fuel Hrest Hfuel;
    (destruct fuel as [|f]; [lia|]).
  - injection Ht as <-. done.
  - destruct b; injection Ht as <-; done.
  - apply numberToString_inv in Ht as [Hq ->]. rewrite Hq at 2.
    destruct (Z_to_string_head (Qnum q)) as (c & t' & Heq & Hc).
    rewrite <- parse_number_Z_to_string by done.
    rewrite Heq. by apply parse_value_number.
  - injection Ht as <-. rewrite parse_value_S, quoteJSON_app.
    rewrite skip_ws_start by done.
    cbn [N.eqb Pos.eqb]. by rewrite parse_chars_quoteUnits.
  - rewrite JSON_stringify_arr in Ht.
    destruct (stringifyAll items) as [parts|] eqn:Hparts; [|done].
    injection Ht as <-. rewrite parse_value_S.
    cbn [app]. rewrite <- ?app_assoc. cbn [app]. rewrite skip_ws_start by done.
    cbn [N.eqb Pos.eqb].
    destruct items as [|x r].
    { injection Hparts as <-. done. }
    apply stringifyAll_cons in Hparts as Hcons.
    destruct Hcons as (a & b & Ha & Hb & ->).
    destruct (stringify_head x a Ha) as (c & a' & -> & Hc).
    assert (Hjoin : ∃ tail, join [c_comma] ((c :: a') :: b) = c :: tail)
      by (rewrite join_cons; destruct b; by eexists).
    destruct Hjoin as (tail & Hjoin). rewrite Hjoin.
    cbn [app]. rewrite skip_ws_valueStart by done.
    destruct Hc as (_ & Hc & _). destruct (N.eqb_spec c c_rbracket) as [|_]; [done|].
    rewrite app_comm_cons, <- Hjoin. rewrite <- (app_nil_l (x :: r)).
    apply parse_elements_roundtrip; try done.
    + inversion Hwf as [| | | |? Hall|]; subst.
      apply Forall_forall. intros y Hy.
      by apply (proj1 (Forall_forall _ _) IH y Hy), (proj1 (Forall_forall _ _) Hall y Hy).
    + cbn [length] in Hfuel. rewrite length_app in Hfuel. cbn [length] in Hfuel. lia.
  - rewrite JSON_stringify_obj in Ht.
    destruct (stringifyFields fields) as [parts|] eqn:Hparts; [|done].
    injection Ht as <-. rewrite parse_value_S.
    cbn [app]. rewrite <- ?app_assoc. cbn [app]. rewrite skip_ws_start by done.
    cbn [N.eqb Pos.eqb].
    destruct fields as [|[k x] r].
    { injection Hparts as <-. done. }
    apply stringifyFields_cons in Hparts as Hcons.
    destruct Hcons as (a & b & Ha & Hb & ->).
    assert (Hjoin : ∃ tail, join [c_comma] ((quoteJSON k ++ [c_colon] ++ a) :: b)
                            = c_quote :: tail)
      by (rewrite join_cons; destruct b; by eexists).
    destruct Hjoin as (tail & Hjoin). rewrite Hjoin.
    cbn [app]. rewrite skip_ws_start by done. cbn [N.eqb Pos.eqb].
    rewrite app_comm_cons, <- Hjoin. rewrite <- (app_nil_l ((k, x) :: r)).
    inversion Hwf as [| | | | |? Hdup Hall]; subst.
    apply parse_members_roundtrip; try done.
    + apply Forall_forall. intros y Hy.
      by apply (proj1 (Forall_forall _ _) IH y Hy), (proj1 (Forall_forall _ _) Hall y Hy).
    + cbn [length] in Hfuel. rewrite length_app in Hfuel. cbn [length] in Hfuel. lia.
Qed.

Lemma JSON_parse_stringify v t :
  json_wf v → JSON_stringify v = Some t → JSON_parse t = Some v.
Proof.
  intros Hwf Ht. unfold JSON_parse.
  rewrite <- (app_nil_r t) at 2.
  by rewrite (stringify_roundtrip v Hwf t Ht [] (2 * length t + 1)).
Qed.

(** ** Round trip of a plan *)

Lemma stringifyAll_strings l : stringifyAll (map JStr l) = Some (map quoteJSON l).
Proof.
  induction l as [|s l IH]; [done|].
  change (stringifyAll (map JStr (s :: l)))
    with (match JSON_stringify (JStr s), stringifyAll (map JStr l) with
          | Some a, Some b => Some (a :: b)
          | _, _ => None
          end).
  by rewrite IH.
Qed.

Lemma json_wf_strings l : json_wf (strings_to_json l).
Proof.
  constructor. apply Forall_forall. intros v Hv.
  apply list_elem_of_In, in_map_iff in Hv as (s & <- & _). constructor.
Qed.

Lemma is_Some_stringify_strings l : is_Some (JSON_stringify (strings_to_json l)).
Proof.
  unfold strings_to_json. rewrite JSON_stringify_arr, stringifyAll_strings. by eexists.
Qed.

Lemma numberToString_safe z :
  inSafeRange z = true → numberToString (inject_Z z) = Some (Z_to_string z).
Proof. intros Hz. unfold numberToString. simpl. by rewrite Hz. Qed.

Lemma isSafeInteger_integer n :
  isSafeInteger n = true → ∃ z, n = integer z ∧ inSafeRange z = true.
Proof.
  destruct n as [[z d]| | | |]; try done. simpl.
  intros [Hd Hz]%andb_true_iff. apply bool_decide_eq_true in Hd. simpl in Hd.
  subst d. by exists z.
Qed.

Lemma json_wf_number n : json_wf (numberJSON n).
Proof. destruct n; constructor. Qed.

(** Well-formedness of the members of an object, one by one. *)
Ltac wf_fields :=
  repeat first
    [ apply List.Forall_nil
    | apply List.Forall_cons;
      [cbn [snd]; try apply json_wf_strings; try apply json_wf_number; try constructor|] ].

Lemma json_wf_step s : json_wf (step_to_json s).
Proof.
  unfold step_to_json. constructor.
  - destruct (files s); apply (bool_decide_unpack _); vm_compute; reflexivity.
  - destruct (files s); cbn [app]; wf_fields.
Qed.

Lemma is_Some_stringify_step s :
  isSafeInteger (step s) = true → is_Some (JSON_stringify (step_to_json s)).
Proof.
  intros (z & Hz & Hs)%isSafeInteger_integer.
  unfold step_to_json. rewrite Hz, JSON_stringify_obj.
  destruct (files s) as [fs|]; cbn [app stringifyFields JSON_stringify numberJSON integer];
    rewrite (numberToString_safe _ Hs).
  - destruct (is_Some_stringify_strings fs) as [t ->]. by eexists.
  - by eexists.
Qed.

Lemma is_Some_stringifyAll_steps l :
  Forall (λ s, isSafeInteger (step s) = true) l →
  is_Some (stringifyAll (map step_to_json l)).
Proof.
  induction 1 as [|s l Hs _ [parts IH]]; [by eexists|].
  change (stringifyAll (map step_to_json (s :: l)))
    with (match JSON_stringify (step_to_json s), stringifyAll (map step_to_json l) with
          | Some a, Some b => Some (a :: b)
          | _, _ => None
          end).
  destruct (is_Some_stringify_step s Hs) as [a ->]. rewrite IH. by eexists.
Qed.

Lemma json_wf_plan p : json_wf (plan_to_json p).
Proof.
  unfold plan_to_json. constructor.
  - apply (bool_decide_unpack _). vm_compute. reflexivity.
  - wf_fields. apply Forall_forall. intros v Hv.
    apply list_elem_of_In, in_map_iff in Hv as (s & <- & _). apply json_wf_step.
Qed.

(** The text of a plan is enclosed in braces. *)
Lemma stringify_plan p :
  Forall (λ s, isSafeInteger (step s) = true) (steps p) →
  ∃ body, JSON_stringify (plan_to_json p) = Some (c_lbrace :: body ++ [c_rbrace]).
Proof.
  intros Hsteps. unfold plan_to_json. rewrite JSON_stringify_obj.
  cbn [stringifyFields]. rewrite (JSON_stringify_arr (map step_to_json (steps p))).
  destruct (is_Some_stringifyAll_steps _ Hsteps) as [parts ->].
  destruct (is_Some_stringify_strings (prerequisites p)) as [t1 ->].
  destruct (is_Some_stringify_strings (risks p)) as [t2 ->].
  by eexists.
Qed.

Lemma greedyToBrace_snoc body :
  greedyToBrace (body ++ [c_rbrace]) = Some (body ++ [c_rbrace]).
Proof. induction body as [|c body IH]; [done|]. simpl. by rewrite IH. Qed.

Lemma matchBraces_enclosed body :
  matchBraces (c_lbrace :: body ++ [c_rbrace]) = Some (c_lbrace :: body ++ [c_rbrace]).
Proof. simpl. by rewrite greedyToBrace_snoc. Qed.









(** ** The fuel of the parser

    Every successful step of the parser consumes input, so that the fuel
    [JSON_parse] provides is never used up: a failure of [JSON_parse] is a
    syntax error. *)

Lemma skip_ws_cons s c r : skip_ws s = c :: r → length r < length s.
Proof.
  intros H. pose proof (dropWhile_length isJsonSpace s) as Hlen.
  unfold skip_ws in H. rewrite H in Hlen. simpl in Hlen. lia.
Qed.

Lemma parse_chars_shorter n : ∀ s str rest,
  length s ≤ n → parse_chars s = Some (str, rest) → length rest < length s.
Proof.
  induction n as [|n IH]; intros s str rest Hlen.
  - by destruct s; [|simpl in Hlen; lia].
  - destruct s as [|c r]; [done|]. simpl in Hlen. simpl.
    destruct (c =? c_quote)%N; [intros [= _ <-]; lia|].
    destruct (c =? c_backslash)%N.
    + destruct r as [|e r1]; [done|]. simpl in Hlen.
      destruct (e =? 117)%N.
      * destruct r1 as [|h1 [|h2 [|h3 [|h4 r2]]]]; try done.
        destruct (hexValue h1), (hexValue h2), (hexValue h3), (hexValue h4); try done.
        destruct (parse_chars r2) as [[cs rest']|] eqn:Hr; [|done].
        intros [= _ <-]. apply IH in Hr; simpl in *; lia.
      * destruct (unescape e); [|done].
        destruct (parse_chars r1) as [[cs rest']|] eqn:Hr; [|done].
        intros [= _ <-]. apply IH in Hr; simpl in *; lia.
    + destruct (c <? 32)%N; [done|].
      destruct (parse_chars r) as [[cs rest']|] eqn:Hr; [|done].
      intros [= _ <-]. apply IH in Hr; lia.
Qed.

Lemma takeDigits_length s :
  length (snd (takeDigits s)) + length (fst (takeDigits s)) = length s.
Proof.
  induction s as [|c r IH]; [done|].
  simpl. destruct (isDigit c); [|simpl; lia].
  destruct (takeDigits r) as [ds rest]. simpl in *. lia.
Qed.

Lemma parse_number_shorter s v rest :
  parse_number s = Some (v, rest) → length rest < length s.
Proof.
  unfold parse_number.
  destruct (parse_sign s) as [neg s1] eqn:Hsign.
  assert (Hs1 : length s1 ≤ length s).
  { unfold parse_sign in Hsign. destruct s as [|c r]; [by injection Hsign as _ <-|].
    destruct (c =? c_minus)%N; injection Hsign as _ <-; simpl; lia. }
  destruct (parse_int s1) as [[ids s2]|] eqn:Hint; [|done].
  assert (Hs2 : length s2 < length s1).
  { unfold parse_int in Hint. destruct s1 as [|c r]; [done|].
    destruct (c =? 48)%N; [injection Hint as _ <-; simpl; lia|].
    destruct (isDigit c) eqn:Hc; [|done].
    pose proof (takeDigits_length (c :: r)) as Hlen.
    destruct (takeDigits (c :: r)) as [ds rest'] eqn:Htd.
    injection Hint as _ <-. simpl in Htd. rewrite Hc in Htd.
    destruct (takeDigits r). injection Htd as <- <-. simpl in *. lia. }
  destruct (parse_frac s2) as [[fds s3]|] eqn:Hfrac; [|done].
  assert (Hs3 : length s3 ≤ length s2).
  { unfold parse_frac in Hfrac. destruct s2 as [|c r]; [by injection Hfrac as _ <-|].
    destruct (c =? c_dot)%N; [|by injection Hfrac as _ <-].
    pose proof (takeDigits_length r) as Hlen.
    destruct (takeDigits r) as [[|d ds] rest']; [done|].
    injection Hfrac as _ <-. simpl in *. lia. }
  destruct (parse_exp s3) as [[ex s4]|] eqn:Hexp; [|done].
  assert (Hs4 : length s4 ≤ length s3).
  { unfold parse_exp in Hexp. destruct s3 as [|c r]; [by injection Hexp as _ <-|].
    destruct ((c =? 101)%N || (c =? 69)%N); [|by injection Hexp as _ <-].
    destruct (parse_exp_sign r) as [eneg r1] eqn:Hes.
    assert (length r1 ≤ length r).
    { unfold parse_exp_sign in Hes. destruct r as [|c' r']; [by injection Hes as _ <-|].
      destruct (c' =? c_minus)%N; [injection Hes as _ <-; simpl; lia|].
      destruct (c' =? c_plus)%N; injection Hes as _ <-; simpl; lia. }
    pose proof (takeDigits_length r1) as Hlen.
    destruct (takeDigits r1) as [[|d ds] rest']; [done|].
    injection Hexp as _ <-. simpl in *. lia. }
  intros [= _ <-]. lia.
Qed.

Lemma startsWith_length p s : startsWith p s = true → length p ≤ length s.
Proof.
  revert s. induction p as [|a p IH]; intros [|b s]; simpl; try done; [lia|].
  intros [_ H]%andb_true_iff. apply IH in H. lia.
Qed.

Lemma parse_keyword_shorter s v rest :
  parse_keyword s = Some (v, rest) → length rest < length s.
Proof.
  unfold parse_keyword.
  destruct (startsWith (lit "true") s) eqn:H1.
  { intros [= _ <-]. apply startsWith_length in H1. rewrite length_drop.
    change (length (lit "true")) with 4 in H1. lia. }
  destruct (startsWith (lit "false") s) eqn:H2.
  { intros [= _ <-]. apply startsWith_length in H2. rewrite length_drop.
    change (length (lit "false")) with 5 in H2. lia. }
  destruct (startsWith (lit "null") s) eqn:H3; [|done].
  intros [= _ <-]. apply startsWith_length in H3. rewrite length_drop.
  change (length (lit "null")) with 4 in H3. lia.
Qed.

(** A successful parse leaves less than it was given. *)
Lemma parse_consumes f :
  (∀ s v rest, parse_value f s = Some (v, rest) → length rest < length s)
  ∧ (∀ acc s v rest, parse_elements f acc s = Some (v, rest) → length rest < length s)
  ∧ (∀ acc s v rest, parse_members f acc s = Some (v, rest) → length rest < length s).
Proof.
  induction f as [|f (IHv & IHe & IHm)]; [done|]. split; [|split].
  - intros s v rest. rewrite parse_value_S.
    destruct (skip_ws s) as [|c r] eqn:Hs; [done|]. apply skip_ws_cons in Hs.
    destruct (c =? c_lbrace)%N.
    { destruct (skip_ws r) as [|c1 r1] eqn:Hr; [done|]. apply skip_ws_cons in Hr.
      destruct (c1 =? c_rbrace)%N; [intros [= _ <-]; lia|].
      intros H%IHm. lia. }
    destruct (c =? c_lbracket)%N.
    { destruct (skip_ws r) as [|c1 r1] eqn:Hr; [done|]. apply skip_ws_cons in Hr.
      destruct (c1 =? c_rbracket)%N; [intros [= _ <-]; lia|].
      intros H%IHe. lia. }
    destruct (c =? c_quote)%N.
    { destruct (parse_chars r) as [[str rest']|] eqn:Hc; [|done].
      intros [= _ <-]. apply (parse_chars_shorter (length r)) in Hc; lia. }
    destruct ((c =? c_minus)%N || isDigit c).
    + intros H%parse_number_shorter. simpl in H. lia.
    + intros H%parse_keyword_shorter. simpl in H. lia.
  - intros acc s v rest. rewrite parse_elements_S.
    destruct (parse_value f s) as [[v0 rest0]|] eqn:Hv; [|done]. apply IHv in Hv.
    destruct (skip_ws rest0) as [|c r] eqn:Hs; [done|]. apply skip_ws_cons in Hs.
    destruct (c =? c_comma)%N; [intros H%IHe; lia|].
    destruct (c =? c_rbracket)%N; [|done]. intros [= _ <-]. lia.
  - intros acc s v rest. rewrite parse_members_S.
    destruct (skip_ws s) as [|c r] eqn:Hs; [done|]. apply skip_ws_cons in Hs.
    destruct (c =? c_quote)%N; [|done].
    destruct (parse_chars r) as [[key rest0]|] eqn:Hc; [|done].
    apply (parse_chars_shorter (length r)) in Hc; [|lia].
    destruct (skip_ws rest0) as [|c1 r1] eqn:Hs1; [done|]. apply skip_ws_cons in Hs1.
    destruct (c1 =? c_colon)%N; [|done].
    destruct (parse_value f r1) as [[v0 rest1]|] eqn:Hv; [|done]. apply IHv in Hv.
    destruct (skip_ws rest1) as [|c2 r2] eqn:Hs2; [done|]. apply skip_ws_cons in Hs2.
    destruct (c2 =? c_comma)%N; [intros H%IHm; lia|].
    destruct (c2 =? c_rbrace)%N; [|done]. intros [= _ <-]. lia.
Qed.

(** With the fuel of [JSON_parse] or more, the outcome is the same. *)
Lemma parse_fuel_stable f :
  (∀ s f', 2 * length s + 1 ≤ f → f ≤ f' → parse_value f' s = parse_value f s)
  ∧ (∀ acc s f', 2 * length s + 2 ≤ f → f ≤ f' →
       parse_elements f' acc s = parse_elements f acc s)
  ∧ (∀ acc s f', 2 * length s + 2 ≤ f → f ≤ f' →
       parse_members f' acc s = parse_members f acc s).
Proof.
  induction f as [|f (IHv & IHe & IHm)]; [repeat split; intros; lia|].
  destruct (parse_consumes f) as (Cv & _ & _).
  split; [|split].
  - intros s [|f'] Hf Hle; [lia|]. rewrite !parse_value_S.
    destruct (skip_ws s) as [|c r] eqn:Hs; [done|]. apply skip_ws_cons in Hs.
    destruct (c =? c_lbrace)%N.
    { destruct (skip_ws r) as [|c1 r1]; [done|].
      destruct (c1 =? c_rbrace)%N; [done|]. apply IHm; lia. }
    destruct (c =? c_lbracket)%N; [|done].
    destruct (skip_ws r) as [|c1 r1]; [done|].
    destruct (c1 =? c_rbracket)%N; [done|]. apply IHe; lia.
  - intros acc s [|f'] Hf Hle; [lia|]. rewrite !parse_elements_S.
    rewrite (IHv s f') by lia.
    destruct (parse_value f s) as [[v0 rest0]|] eqn:Hv; [|done]. apply Cv in Hv.
    destruct (skip_ws rest0) as [|c r] eqn:Hs; [done|]. apply skip_ws_cons in Hs.
    destruct (c =? c_comma)%N; [|done]. apply IHe; lia.
  - intros acc s [|f'] Hf Hle; [lia|]. rewrite !parse_members_S.
    destruct (skip_ws s) as [|c r] eqn:Hs; [done|]. apply skip_ws_cons in Hs.
    destruct (c =? c_quote)%N; [|done].
    destruct (parse_chars r) as [[key rest0]|] eqn:Hc; [|done].
    apply (parse_chars_shorter (length r)) in Hc; [|lia].
    destruct (skip_ws rest0) as [|c1 r1] eqn:Hs1; [done|]. apply skip_ws_cons in Hs1.
    destruct (c1 =? c_colon)%N; [|done].
    rewrite (IHv r1 f') by lia.
    destruct (parse_value f r1) as [[v0 rest1]|] eqn:Hv; [|done]. apply Cv in Hv.
    destruct (skip_ws rest1) as [|c2 r2] eqn:Hs2; [done|]. apply skip_ws_cons in Hs2.
    destruct (c2 =? c_comma)%N; [|done]. apply IHm; lia.
Qed.

Lemma JSON_parse_fuel text f :
  2 * length text + 1 ≤ f →
  JSON_parse text
  = match parse_value f text with
    | Some (v, rest) => match skip_ws rest with [] => Some v | _ :: _ => None end
    | None => None
    end.
Proof.
  intros Hf. unfold JSON_parse.
  destruct (parse_fuel_stable (2 * length text + 1)) as (Hv & _ & _).
  by rewrite (Hv text f).
Qed.

(** * Further properties of the planner *)

(** ** Letter case *)

Lemma toLowerUnit_idem c : toLowerUnit (toLowerUnit c) = toLowerUnit c.
Proof.
  unfold toLowerUnit, in_range.
  destruct (N.leb_spec 65 c), (N.leb_spec c 90), (N.leb_spec 192 c),
    (N.leb_spec c 214), (N.leb_spec 216 c), (N.leb_spec c 222); simpl;
    unit_cases; simpl; try reflexivity; lia.
Qed.

Lemma toLowerCase_idem s : toLowerCase (toLowerCase s) = toLowerCase s.
Proof.
  unfold toLowerCase. rewrite <- list_fmap_compose. apply list_fmap_ext.
  intros _ c _. apply toLowerUnit_idem.
Qed.

Lemma toLowerCase_app a b : toLowerCase (a ++ b) = toLowerCase a ++ toLowerCase b.
Proof. apply fmap_app. Qed.

Lemma includes_split sub s :
  includes sub s = true ↔ ∃ pre post, s = pre ++ sub ++ post.
Proof.
  split.
  - induction s as [|c s IH]; simpl.
    + rewrite orb_false_r. destruct sub; [|done]. intros _. by exists [], [].
    + intros [H|H]%orb_true_iff.
      * exists []. simpl. clear IH. revert H. generalize (c :: s). clear.
        induction sub as [|a sub IH]; intros l H; [by exists l|].
        destruct l as [|b l]; [done|]. simpl in H.
        apply andb_true_iff in H as [->%N.eqb_eq H].
        destruct (IH _ H) as [post ->]. by exists post.
      * destruct (IH H) as (pre & post & ->). by exists (c :: pre), post.
  - intros (pre & post & ->). apply includes_app.
Qed.

(** ** Intent classifier: matching by substring, without regard to case *)

(** X1: a request in which add, create
    or new occurs, in any letter case and at any place, also inside a
    longer word, is classified Create/Add new functionality, whatever
    other trigger words it holds; and the label of any request is that of
    its lower-cased form. *)
Theorem extractIntent_substring_any_case pre w post :
  toLowerCase w = lit "add" ∨ toLowerCase w = lit "create" ∨ toLowerCase w = lit "new" →
  extractIntent (pre ++ w ++ post) = lit "Create/Add new functionality"
  ∧ ∀ input, extractIntent (toLowerCase input) = extractIntent input.
Proof.
  intros H. split.
  - unfold extractIntent. rewrite !toLowerCase_app.
    destruct H as [->| [->| ->]]; rewrite includes_app; simpl;
      rewrite ?orb_true_r; reflexivity.
  - intros input. unfold extractIntent. by rewrite toLowerCase_idem.
Qed.

Lemma extractIntent_substring_any_case_witness :
  extractIntent (lit "Fix the bug in the PADDING of the header")
  = lit "Create/Add new functionality"
  ∧ ∀ input, extractIntent (toLowerCase input) = extractIntent input.
Proof.
  apply (extractIntent_substring_any_case (lit "Fix the bug in the P") (lit "ADD")
           (lit "ING of the header")).
  left. reflexivity.
Defined.

(** ** Keyword extraction: where the keywords come from *)

Lemma SplitOnRuns_pieces s pieces :
  SplitOnRuns s pieces →
  ∀ w, w ∈ pieces → unseparated w ∧ ∃ pre post, s = pre ++ w ++ post.
Proof.
  induction 1 as [piece Hp|piece run rest pieces Hp Hne Hrun Hrest _ IH]; intros w Hw.
  - apply list_elem_of_singleton in Hw as ->. split; [done|].
    exists [], []. by rewrite app_nil_r.
  - apply elem_of_cons in Hw as [->|Hw].
    + split; [done|]. by exists [], (run ++ rest).
    + destruct (IH w Hw) as (Hu & pre & post & ->). split; [done|].
      exists (piece ++ run ++ pre), post. by rewrite <- !app_assoc.
Qed.

(** A piece of a split stands between separators, or at an end. *)
Lemma SplitOnRuns_whole s pieces :
  SplitOnRuns s pieces →
  ∀ w, w ∈ pieces →
    ∃ pre post, s = pre ++ w ++ post
      ∧ (pre = [] ∨ ∃ pre' c, pre = pre' ++ [c] ∧ isSeparator c = true)
      ∧ (post = [] ∨ ∃ c post', post = c :: post' ∧ isSeparator c = true).
Proof.
  induction 1 as [piece Hp|piece run rest pieces Hp Hne Hrun Hrest _ IH]; intros w Hw.
  - apply list_elem_of_singleton in Hw as ->.
    exists [], []. rewrite app_nil_r. split; [done|]. split; by left.
  - destruct run as [|r0 run']; [done|].
    apply elem_of_cons in Hw as [->|Hw].
    + exists [], ((r0 :: run') ++ rest). split; [done|]. split; [by left|].
      right. exists r0, (run' ++ rest). split; [done|].
      by apply Forall_cons in Hrun as [? _].
    + destruct (IH w Hw) as (pre & post & -> & Hpre & Hpost).
      exists (piece ++ (r0 :: run') ++ pre), post.
      split; [by rewrite <- !app_assoc|]. split; [|done]. right.
      destruct Hpre as [->|(pre' & c & -> & Hc)].
      * destruct (exists_last (l := r0 :: run')) as (run0 & c & Hlast); [done|].
        exists (piece ++ run0), c. rewrite app_nil_r, Hlast, <- app_assoc.
        split; [done|]. rewrite Hlast in Hrun.
        apply Forall_app in Hrun as [_ Hc]. by apply Forall_cons in Hc as [? _].
      * exists (piece ++ (r0 :: run') ++ pre'), c. split; [|done].
        by rewrite <- !app_assoc.
Qed.

(** X2: every keyword is a whole word of the
    lowered request: it holds no separator and stands there between
    separators or at an end of the text, whatever the lowering of the
    engine. *)
Theorem extractKeywords_from_input lowerCase input w :
  w ∈ extractKeywords lowerCase input →
  unseparated w
  ∧ ∃ pre post,
      lowerCase input = pre ++ w ++ post
      ∧ (pre = [] ∨ ∃ pre' c, pre = pre' ++ [c] ∧ isSeparator c = true)
      ∧ (post = [] ∨ ∃ c post', post = c :: post' ∧ isSeparator c = true).
Proof.
  intros Hw. unfold extractKeywords in Hw. apply subseteq_take in Hw.
  rewrite filter_keepWord in Hw. apply list_elem_of_filter in Hw as [_ Hw].
  pose proof (split_separators_runs (lowerCase input)) as Hruns.
  split.
  - by destruct (SplitOnRuns_pieces _ _ Hruns w Hw).
  - by apply (SplitOnRuns_whole _ _ Hruns).
Qed.

Lemma extractKeywords_from_input_witness :
  unseparated (lit "error")
  ∧ ∃ pre post,
      toLowerCase (lit "Add ERROR-handling to the service") = pre ++ lit "error" ++ post
      ∧ (pre = [] ∨ ∃ pre' c, pre = pre' ++ [c] ∧ isSeparator c = true)
      ∧ (post = [] ∨ ∃ c post', post = c :: post' ∧ isSeparator c = true).
Proof.
  apply (extractKeywords_from_input toLowerCase
           (lit "Add ERROR-handling to the service") (lit "error")).
  apply (bool_decide_unpack _). vm_compute. reflexivity.
Defined.

(** ** Relevance filter: the cap and the empty cases *)

(** X3: with twenty or more referenced files the
    output is the first twenty of them, and no keyword match is kept; a
    request without a keyword gives the referenced files (cut at twenty);
    an output shorter than twenty holds every referenced file and every
    unreferenced file that matches a keyword; all of it whatever the
    lowering of the engine. *)
Theorem filterRelevantFiles_cap lowerCase userInput referenced allFiles :
  let out := filterRelevantFiles lowerCase userInput referenced allFiles in
  let matching :=
    filter (λ f, (f ∉ referenced)
                 ∧ hasKeyword lowerCase (extractKeywords lowerCase userInput) f = true)
      allFiles in
  (20 ≤ length referenced → out = take 20 referenced)
  ∧ (extractKeywords lowerCase userInput = [] → out = take 20 referenced)
  ∧ (length out < 20 → out = referenced ++ matching).
Proof.
  intros out matching. subst out matching.
  rewrite !filterRelevantFiles_unfold. split; [|split].
  - intros Hlen. rewrite take_app. replace (20 - length referenced) with 0 by lia.
    by rewrite take_0, app_nil_r.
  - intros ->. f_equal.
    assert (H : ∀ l : list jsstring,
              filter (λ f, (f ∉ referenced) ∧ hasKeyword lowerCase [] f = true) l = []).
    { induction l as [|f l IH]; [done|].
      rewrite filter_cons_False; [done|]. by intros [_ ?]. }
    by rewrite H, app_nil_r.
  - intros Hlen. rewrite length_take in Hlen. apply take_ge. lia.
Qed.

(** ** Plan parser: prose around the plan, and what it returns *)

Lemma parsePlanResponse_span pre mid post :
  c_lbrace ∉ pre → c_rbrace ∉ post →
  parsePlanResponse (pre ++ [c_lbrace] ++ mid ++ [c_rbrace] ++ post)
  = parsePlanResponse ([c_lbrace] ++ mid ++ [c_rbrace]).
Proof.
  intros Hpre Hpost. rewrite !parsePlanResponse_refines_spec. unfold parsePlan_spec.
  rewrite (proj2 (braceSpan_decompose _ ([c_lbrace] ++ mid ++ [c_rbrace])))
    by (by exists pre, mid, post).
  rewrite (proj2 (braceSpan_decompose ([c_lbrace] ++ mid ++ [c_rbrace])
                    ([c_lbrace] ++ mid ++ [c_rbrace]))); [done|].
  exists [], mid, []. rewrite app_nil_r. repeat split; by apply not_elem_of_nil.
Qed.

(** The text of a plan parses to the plan. *)
Lemma parsePlanResponse_plan_text p text :
  summary p ≠ [] →
  JSON_stringify (plan_to_json p) = Some text →
  JSON_parse text = Some (plan_to_json p)
  ∧ validPlanShape (plan_to_json p) = true.
Proof.
  intros Hsum Htext. split; [exact (JSON_parse_stringify _ _ (json_wf_plan p) Htext)|].
  unfold validPlanShape.
  change (member (lit "summary") (plan_to_json p)) with (Some (JStr (summary p))).
  change (member (lit "steps") (plan_to_json p))
    with (Some (JArr (map step_to_json (steps p)))).
  cbn [truthy isArray]. by rewrite (bool_decide_false _ Hsum).
Qed.

(** X4: text before the plan without an
    opening brace and text after it without a closing brace (prose, a
    Markdown fence) do not change the outcome; the text of a typed plan
    wrapped in such text parses to the plan. *)
Theorem parsePlanResponse_ignores_prose pre post :
  c_lbrace ∉ pre → c_rbrace ∉ post →
  (∀ mid,
     parsePlanResponse (pre ++ [c_lbrace] ++ mid ++ [c_rbrace] ++ post)
     = parsePlanResponse ([c_lbrace] ++ mid ++ [c_rbrace]))
  ∧ (∀ p, summary p ≠ [] →
       Forall (λ s, isSafeInteger (step s) = true) (steps p) →
       ∃ text, JSON_stringify (plan_to_json p) = Some text
               ∧ parsePlanResponse (pre ++ text ++ post) = Some (plan_to_json p)).
Proof.
  intros Hpre Hpost. split; [intros mid; by apply parsePlanResponse_span|].
  intros p Hsum Hsteps. destruct (stringify_plan p Hsteps) as (body & Htext).
  eexists. split; [exact Htext|].
  destruct (parsePlanResponse_plan_text p _ Hsum Htext) as [Hparse Hshape].
  change (pre ++ (c_lbrace :: body ++ [c_rbrace]) ++ post)
    with (pre ++ [c_lbrace] ++ (body ++ [c_rbrace]) ++ post).
  rewrite <- (app_assoc body). rewrite parsePlanResponse_span by done.
  rewrite parsePlanResponse_refines_spec. unfold parsePlan_spec.
  rewrite <- matchBraces_braceSpan. change ([c_lbrace] ++ body ++ [c_rbrace])
    with (c_lbrace :: body ++ [c_rbrace]).
  by rewrite matchBraces_enclosed, Hparse, Hshape.
Qed.

Lemma parsePlanResponse_ignores_prose_witness :
  ∃ text, JSON_stringify (plan_to_json samplePlan) = Some text
    ∧ parsePlanResponse (jlit "Here is the plan:
```json
" ++ text ++ jlit "
```
Tell me when to start.") = Some (plan_to_json samplePlan).
Proof.
  refine (proj2 (parsePlanResponse_ignores_prose _ _ _ _) samplePlan _ _).
  - apply (bool_decide_unpack _). vm_compute. reflexivity.
  - apply (bool_decide_unpack _). vm_compute. reflexivity.
  - discriminate.
  - repeat constructor.
Defined.

(** An object is read back from its text whatever follows it. *)
Lemma stringify_object_roundtrip fields t rest fuel :
  json_wf (JObj fields) →
  JSON_stringify (JObj fields) = Some t →
  2 * length t + 1 ≤ fuel →
  parse_value fuel (t ++ rest) = Some (JObj fields, rest).
Proof.
  intros Hwf Ht Hfuel. destruct fuel as [|f]; [lia|].
  rewrite JSON_stringify_obj in Ht.
  destruct (stringifyFields fields) as [parts|] eqn:Hparts; [|done].
  injection Ht as <-. rewrite parse_value_S.
  cbn [app]. rewrite <- ?app_assoc. cbn [app]. rewrite skip_ws_start by done.
  cbn [N.eqb Pos.eqb].
  destruct fields as [|[k x] r].
  { injection Hparts as <-. done. }
  apply stringifyFields_cons in Hparts as Hcons.
  destruct Hcons as (a & b & Ha & Hb & ->).
  assert (Hjoin : ∃ tail, join [c_comma] ((quoteJSON k ++ [c_colon] ++ a) :: b)
                          = c_quote :: tail)
    by (rewrite join_cons; destruct b; by eexists).
  destruct Hjoin as (tail & Hjoin). rewrite Hjoin.
  cbn [app]. rewrite skip_ws_start by done. cbn [N.eqb Pos.eqb].
  rewrite app_comm_cons, <- Hjoin. rewrite <- (app_nil_l ((k, x) :: r)).
  inversion Hwf as [| | | | |? Hdup Hall]; subst.
  apply parse_members_roundtrip; try done.
  + apply Forall_forall. intros y Hy. apply stringify_roundtrip.
    by apply (proj1 (Forall_forall _ _) Hall y Hy).
  + cbn [length] in Hfuel. rewrite length_app in Hfuel. cbn [length] in Hfuel. lia.
Qed.

Lemma skip_ws_keeps c s : c ∈ s → isJsonSpace c = false → skip_ws s ≠ [].
Proof.
  intros Hin Hc. induction s as [|x s IH]; [by apply elem_of_nil in Hin|].
  unfold skip_ws. simpl. destruct (isJsonSpace x) eqn:Hx; [|done].
  apply elem_of_cons in Hin as [->|Hin]; [congruence|]. by apply IH.
Qed.

Lemma elem_of_split_last c (s : jsstring) :
  c ∈ s → ∃ pre post, s = pre ++ c :: post ∧ c ∉ post.
Proof.
  intros Hin. destruct (lastIndexOf c s) as [j|] eqn:Hj.
  - apply lastIndexOf_split in Hj as (pre & post & Hs & Hpost & _). by exists pre, post.
  - by apply lastIndexOf_None_inv in Hj.
Qed.

(** X5: a closing brace anywhere after
    the plan makes the parser return null, although the plan alone
    parses: the span runs to the last closing brace of the response. *)
Theorem parsePlanResponse_trailing_brace p pre post :
  summary p ≠ [] →
  Forall (λ s, isSafeInteger (step s) = true) (steps p) →
  c_lbrace ∉ pre → c_rbrace ∈ post →
  ∃ text, JSON_stringify (plan_to_json p) = Some text
          ∧ parsePlanResponse text = Some (plan_to_json p)
          ∧ parsePlanResponse (pre ++ text ++ post) = None.
Proof.
  intros Hsum Hsteps Hpre Hpost. destruct (stringify_plan p Hsteps) as (body & Htext).
  eexists. split; [exact Htext|].
  destruct (parsePlanResponse_plan_text p _ Hsum Htext) as [Hparse Hshape].
  split.
  { unfold parsePlanResponse. rewrite matchBraces_enclosed, Hparse.
    unfold validPlanShape in Hshape. apply andb_true_iff in Hshape as [H1 H2].
    rewrite H1, H2, (isArray_truthy _ H2). reflexivity. }
  destruct (elem_of_split_last _ _ Hpost) as (p1 & p2 & -> & Hp2).
  rewrite parsePlanResponse_refines_spec. unfold parsePlan_spec.
  rewrite (proj2 (braceSpan_decompose _
             ((c_lbrace :: body ++ [c_rbrace]) ++ p1 ++ [c_rbrace]))).
  2:{ exists pre, (body ++ [c_rbrace] ++ p1), p2.
      split; [cbn [app]; by rewrite <- !app_assoc|].
      split; [done|]. split; [done|]. cbn [app]. by rewrite <- !app_assoc. }
  rewrite (JSON_parse_fuel _ _ (Nat.le_refl _)).
  rewrite (stringify_object_roundtrip _ _ _ _ (json_wf_plan p) Htext)
    by (rewrite length_app; lia).
  destruct (skip_ws (p1 ++ [c_rbrace])) eqn:Hws; [|done].
  exfalso. eapply (skip_ws_keeps c_rbrace); [|done|exact Hws].
  apply elem_of_app. right. by apply list_elem_of_singleton.
Qed.

Lemma parsePlanResponse_trailing_brace_witness :
  ∃ text, JSON_stringify (plan_to_json samplePlan) = Some text
    ∧ parsePlanResponse text = Some (plan_to_json samplePlan)
    ∧ parsePlanResponse (lit "Plan: " ++ text ++ lit " Then wrap the body in if (ok) { run(); }")
      = None.
Proof.
  apply (parsePlanResponse_trailing_brace samplePlan).
  - discriminate.
  - repeat constructor.
  - apply (bool_decide_unpack _). vm_compute. reflexivity.
  - apply (bool_decide_unpack _). vm_compute. reflexivity.
Defined.

(** What the parser builds has no repeated property name. *)
Lemma parse_number_JNum s v rest : parse_number s = Some (v, rest) → ∃ q, v = JNum q.
Proof.
  unfold parse_number. destruct (parse_sign s) as [neg s1].
  destruct (parse_int s1) as [[ids s2]|]; [|done].
  destruct (parse_frac s2) as [[fds s3]|]; [|done].
  destruct (parse_exp s3) as [[ex s4]|]; [|done].
  intros [= <- _]. by eexists.
Qed.

Lemma parse_keyword_wf s v rest : parse_keyword s = Some (v, rest) → json_wf v.
Proof.
  unfold parse_keyword.
  repeat (match goal with |- context [startsWith ?a ?b] => destruct (startsWith a b) end;
          [intros [= <- _]; constructor|]).
  done.
Qed.

Lemma obj_set_key_elem x k v acc :
  x ∈ map fst (obj_set k v acc) → x = k ∨ x ∈ map fst acc.
Proof.
  induction acc as [|[k' w] acc IH]; simpl.
  - intros ->%list_elem_of_singleton. by left.
  - destruct (str_eqb k' k); simpl; [by right|].
    intros [->|H]%elem_of_cons; [right; left|].
    destruct (IH H) as [->|Hx]; [by left|right; by right].
Qed.

Lemma obj_set_wf k v acc :
  json_wf (JObj acc) → json_wf v → json_wf (JObj (obj_set k v acc)).
Proof.
  intros Hacc Hv. inversion Hacc as [| | | | |? Hdup Hall]; subst.
  constructor.
  - clear Hall Hacc. induction acc as [|[k' w] acc IH]; simpl.
    + apply NoDup_singleton.
    + simpl in Hdup. apply NoDup_cons in Hdup as [Hk' Hdup].
      destruct (str_eqb k' k) eqn:Hk; simpl; [by apply NoDup_cons|].
      apply NoDup_cons. split; [|by apply IH].
      intros [->|Hin]%obj_set_key_elem; [|done].
      unfold str_eqb in Hk. by rewrite bool_decide_true in Hk.
  - clear Hdup Hacc. induction Hall as [|[k' w] acc Hw Hall IH]; simpl.
    + by repeat constructor.
    + destruct (str_eqb k' k); by constructor.
Qed.

(** Every value the parser returns is well formed; the members of an
    object make an object. *)
Lemma parse_wf f :
  (∀ s v rest, parse_value f s = Some (v, rest) → json_wf v)
  ∧ (∀ acc s v rest, parse_elements f acc s = Some (v, rest) →
       Forall json_wf acc → json_wf v)
  ∧ (∀ acc s v rest, parse_members f acc s = Some (v, rest) →
       json_wf (JObj acc) → json_wf v ∧ ∃ fields, v = JObj fields).
Proof.
  induction f as [|f (IHv & IHe & IHm)]; [done|]. split; [|split].
  - intros s v rest. rewrite parse_value_S.
    destruct (skip_ws s) as [|c r]; [done|].
    destruct (c =? c_lbrace)%N.
    { destruct (skip_ws r) as [|c1 r1]; [done|].
      destruct (c1 =? c_rbrace)%N.
      - intros [= <- _]. constructor; constructor.
      - intros H%IHm; [tauto|]. constructor; constructor. }
    destruct (c =? c_lbracket)%N.
    { destruct (skip_ws r) as [|c1 r1]; [done|].
      destruct (c1 =? c_rbracket)%N.
      - intros [= <- _]. constructor; constructor.
      - intros H%IHe; [done|constructor]. }
    destruct (c =? c_quote)%N.
    { destruct (parse_chars r) as [[str rest']|]; [|done].
      intros [= <- _]. constructor. }
    destruct ((c =? c_minus)%N || isDigit c).
    + intros (q & ->)%parse_number_JNum. constructor.
    + apply parse_keyword_wf.
  - intros acc s v rest. rewrite parse_elements_S.
    destruct (parse_value f s) as [[v0 rest0]|] eqn:Hv; [|done]. apply IHv in Hv.
    destruct (skip_ws rest0) as [|c r]; [done|]. intros H Hacc.
    assert (Hacc' : Forall json_wf (acc ++ [v0])).
    { apply Forall_app. split; [done|]. by repeat constructor. }
    destruct (c =? c_comma)%N; [by apply IHe in H|].
    destruct (c =? c_rbracket)%N; [|done]. injection H as <- _. by constructor.
  - intros acc s v rest. rewrite parse_members_S.
    destruct (skip_ws s) as [|c r]; [done|].
    destruct (c =? c_quote)%N; [|done].
    destruct (parse_chars r) as [[key rest0]|]; [|done].
    destruct (skip_ws rest0) as [|c1 r1]; [done|].
    destruct (c1 =? c_colon)%N; [|done].
    destruct (parse_value f r1) as [[v0 rest1]|] eqn:Hv; [|done]. apply IHv in Hv.
    destruct (skip_ws rest1) as [|c2 r2]; [done|]. intros H Hacc.
    pose proof (obj_set_wf key v0 acc Hacc Hv) as Hacc'.
    destruct (c2 =? c_comma)%N; [by apply IHm in H|].
    destruct (c2 =? c_rbrace)%N; [|done]. injection H as <- _.
    split; [done|by eexists].
Qed.

Lemma JSON_parse_wf text v : JSON_parse text = Some v → json_wf v.
Proof.
  unfold JSON_parse.
  destruct (parse_value _ text) as [[v0 rest]|] eqn:Hv; [|done].
  destruct (skip_ws rest); [|done]. intros [= <-].
  by apply (proj1 (parse_wf _)) in Hv.
Qed.

Lemma matchBraces_head s text :
  matchBraces s = Some text → ∃ body, text = c_lbrace :: body.
Proof.
  induction s as [|c r IH]; [done|]. simpl.
  destruct (N.eqb_spec c c_lbrace) as [->|_]; [|done].
  destruct (greedyToBrace r) as [t|]; [|done]. intros [= <-]. by eexists.
Qed.

(** A text that begins with a brace parses to an object. *)
Lemma JSON_parse_object body v :
  JSON_parse (c_lbrace :: body) = Some v → ∃ fields, v = JObj fields.
Proof.
  unfold JSON_parse. cbn [length Nat.mul Nat.add]. rewrite Nat.add_comm. cbn [Nat.add].
  rewrite parse_value_S, skip_ws_start by done. cbn [N.eqb Pos.eqb].
  destruct (skip_ws body) as [|c1 r1]; [done|].
  destruct (c1 =? c_rbrace)%N.
  { destruct (skip_ws r1); [|done]. intros [= <-]. by eexists. }
  destruct (parse_members _ [] body) as [[v0 rest]|] eqn:Hm; [|done].
  destruct (skip_ws rest); [|done]. intros [= <-].
  apply (proj2 (proj2 (parse_wf _))) in Hm as [_ H]; [done|].
  constructor; constructor.
Qed.

(** X6: what the parser returns is an
    object, without a repeated property name at any depth, whose
    [summary] is truthy and whose [steps] is an array. *)
Theorem parsePlanResponse_result_shape s v :
  parsePlanResponse s = Some v →
  json_wf v
  ∧ ∃ fields items,
      v = JObj fields
      ∧ truthy (lookupField (lit "summary") fields) = true
      ∧ lookupField (lit "steps") fields = Some (JArr items).
Proof.
  unfold parsePlanResponse.
  destruct (matchBraces s) as [text|] eqn:Hm; [|done].
  apply matchBraces_head in Hm as (body & ->).
  destruct (JSON_parse (c_lbrace :: body)) as [v0|] eqn:Hp; [|done].
  pose proof (JSON_parse_wf _ _ Hp) as Hwf.
  apply JSON_parse_object in Hp as (fields & ->).
  cbn [member].
  destruct (truthy (lookupField (lit "summary") fields)) eqn:Hsum; [|done].
  destruct (lookupField (lit "steps") fields) as [[| | | |items|]|] eqn:Hsteps;
    try (cbn; rewrite ?orb_true_r; done).
  cbn. intros [= <-]. split; [done|]. by exists fields, items.
Qed.

Lemma parsePlanResponse_result_shape_witness :
  json_wf (JObj [(lit "summary", JStr (lit "x")); (lit "steps", JArr [])])
  ∧ ∃ fields items,
      JObj [(lit "summary", JStr (lit "x")); (lit "steps", JArr [])] = JObj fields
      ∧ truthy (lookupField (lit "summary") fields) = true
      ∧ lookupField (lit "steps") fields = Some (JArr items).
Proof.
  apply (parsePlanResponse_result_shape
           (jlit "{'summary':'x','summary':'x','steps':[]}")).
  vm_compute. reflexivity.
Defined.

(** ** LLM client: the answer *)

Lemma geminiAnswer_text text :
  JSON_stringify (geminiAnswer text) = Some (geminiBody text).
Proof.
  unfold geminiAnswer, geminiBody. cbn -[quoteJSON lit jlit app join].
  generalize (quoteJSON text). intros quoted. vm_compute.
  fold (@app N). rewrite <- ?app_assoc. reflexivity.
Qed.

Lemma json_wf_geminiAnswer text : json_wf (geminiAnswer text).
Proof.
  unfold geminiAnswer.
  repeat first [ apply wf_str | apply wf_arr | apply wf_obj
               | apply NoDup_singleton
               | apply Forall_singleton
               | progress cbn [map fst snd] ].
Qed.

Section ClientAnswer.
Variable pf : Platform.

(** X7: when the client returns, the value is
    truthy, it made one request, to the address of the model with the
    credential, the status was in 200..299 and the value is the text of the
    first part of the first candidate of the parsed body; and for the body
    of an answer with a non-empty text it returns that text. *)
Theorem callOpenRouter_answer systemPrompt userPrompt model h :
  let prompt := systemPrompt ++ [c_lf; c_lf] ++ userPrompt in
  (∀ content h',
     callOpenRouter pf systemPrompt userPrompt model h = (inr content, h') →
     truthy (Some content) = true
     ∧ ∃ key status body data,
         apiKey pf = Some key ∧ key ≠ []
         ∧ h' = EvFetch (geminiUrl model key) prompt :: h
         ∧ fetch pf h (geminiUrl model key) prompt = Response status body
         ∧ responseOk status = true
         ∧ JSON_parse body = Some data
         ∧ extractContent data = Some content)
  ∧ (∀ key status text,
       apiKey pf = Some key → key ≠ [] → text ≠ [] → responseOk status = true →
       fetch pf h (geminiUrl model key) prompt = Response status (geminiBody text) →
       callOpenRouter pf systemPrompt userPrompt model h
       = (inr (JStr text), EvFetch (geminiUrl model key) prompt :: h)).
Proof.
  intros prompt. split.
  - intros content h'. unfold callOpenRouter.
    destruct (apiKey pf) as [[|k key]|] eqn:Hkey; try done.
    unfold call. fold (geminiUrl model (k :: key)). fold prompt.
    destruct (fetch pf h _ prompt) as [e|status body] eqn:Hfetch; [done|].
    unfold readResponse.
    destruct (responseOk status) eqn:Hok; [|done]. cbn [negb].
    destruct (JSON_parse body) as [data|] eqn:Hparse; [|done].
    assert (Hgen : ∀ r : thrown + json,
              match extractContent data with
              | Some c => if truthy (Some c) then inr c
                          else inl (ErrorObject (lit "No content in Gemini response"))
              | None => inl (ErrorObject (lit "No content in Gemini response"))
              end = r →
              (match r with inl e => inl (rethrow e) | inr c => inr c end,
               EvFetch (geminiUrl model (k :: key)) prompt :: h)
              = (@inr thrown json content, h') →
              truthy (Some content) = true
              ∧ h' = EvFetch (geminiUrl model (k :: key)) prompt :: h
              ∧ extractContent data = Some content).
    { intros r Hr Heq. destruct (extractContent data) as [c|]; [|by subst r].
      destruct (truthy (Some c)) eqn:Hc; [|by subst r].
      subst r. by injection Heq as <- <-. }
    intros Heq.
    assert (Hres : truthy (Some content) = true
              ∧ h' = EvFetch (geminiUrl model (k :: key)) prompt :: h
              ∧ extractContent data = Some content).
    { destruct data; try done; by eapply Hgen. }
    destruct Hres as (Ht & -> & Hc). split; [done|].
    exists (k :: key), status, body, data. by repeat split.
  - intros key status text Hkey Hne Htext Hok Hfetch.
    unfold callOpenRouter. rewrite Hkey. destruct key as [|k key]; [done|].
    unfold call. fold (geminiUrl model (k :: key)). fold prompt.
    rewrite Hfetch. unfold readResponse. rewrite Hok. cbn [negb].
    rewrite (JSON_parse_stringify _ _ (json_wf_geminiAnswer text) (geminiAnswer_text text)).
    change (extractContent (geminiAnswer text)) with (Some (JStr text)).
    cbn [geminiAnswer truthy]. by rewrite bool_decide_false.
Qed.

End ClientAnswer.

(** ** Plan executor: the calls it makes *)

Lemma callsOnly_ret {A} P (x : A) : callsOnly P (ret x).
Proof. intros h. by exists []. Qed.

Lemma callsOnly_throw {A} P e : callsOnly P (@throw A e).
Proof. intros h. by exists []. Qed.

Lemma callsOnly_call {A} (P : Event → Prop) ev (answer : history → thrown + A) :
  P ev → callsOnly P (call ev answer).
Proof. intros Hev h. exists [ev]. split; [done|]. by apply Forall_singleton. Qed.

Lemma callsOnly_bind {A B} P (m : Exec A) (k : A → Exec B) :
  callsOnly P m → (∀ x, callsOnly P (k x)) → callsOnly P (bind m k).
Proof.
  intros Hm Hk h. unfold bind. destruct (Hm h) as (n1 & H1 & HP1).
  destruct (m h) as [[e|x] h1]; simpl in H1; subst h1; [by exists n1|].
  destruct (Hk x (n1 ++ h)) as (n2 & H2 & HP2). exists (n2 ++ n1).
  rewrite H2, app_assoc. split; [done|]. by apply Forall_app.
Qed.

Lemma callsOnly_try_catch {A} P (m : Exec A) (handler : thrown → Exec A) :
  callsOnly P m → (∀ e, callsOnly P (handler e)) → callsOnly P (try_catch m handler).
Proof.
  intros Hm Hk h. unfold try_catch. destruct (Hm h) as (n1 & H1 & HP1).
  destruct (m h) as [[e|x] h1]; simpl in H1; subst h1; [|by exists n1].
  destruct (Hk e (n1 ++ h)) as (n2 & H2 & HP2). exists (n2 ++ n1).
  rewrite H2, app_assoc. split; [done|]. by apply Forall_app.
Qed.

Lemma callsOnly_mono {A} (P Q : Event → Prop) (m : Exec A) :
  (∀ ev, P ev → Q ev) → callsOnly P m → callsOnly Q m.
Proof.
  intros HPQ Hm h. destruct (Hm h) as (new & Hnew & HP). exists new.
  split; [done|]. by eapply Forall_impl.
Qed.

Section ExecutorCalls.
Variable pf : Platform.

Lemma callsOnly_trimmedClean P content : callsOnly P (trimmedClean pf content).
Proof. destruct content; first [apply callsOnly_ret|apply callsOnly_throw]. Qed.

(** The client sends at most a request, to the address of the model. *)
Lemma callsOnly_callOpenRouter (P : Event → Prop) sys user model :
  (∀ key prompt, apiKey pf = Some key → P (EvFetch (geminiUrl model key) prompt)) →
  callsOnly P (callOpenRouter pf sys user model).
Proof.
  intros HP. unfold callOpenRouter.
  destruct (apiKey pf) as [[|k key]|] eqn:Hkey; try apply callsOnly_throw.
  apply callsOnly_call. by apply HP.
Qed.

Lemma callsOnly_createFile listed path s rootDir :
  listed path →
  callsOnly (touchesOnly pf listed rootDir) (createFile pf path s rootDir).
Proof.
  intros Hpath. unfold createFile.
  apply callsOnly_bind; [by apply callsOnly_call|]. intros ctx.
  apply callsOnly_bind; [apply callsOnly_callOpenRouter; simpl; eauto|]. intros content.
  apply callsOnly_bind; [apply callsOnly_trimmedClean|]. intros clean.
  apply callsOnly_bind; [apply callsOnly_call; simpl; eauto|]. intros dirExists.
  apply callsOnly_bind; [|intros _; by apply callsOnly_call].
  destruct dirExists; [apply callsOnly_ret|]. apply callsOnly_call. simpl. eauto.
Qed.

Lemma callsOnly_modifyFile listed path s rootDir :
  listed path →
  callsOnly (touchesOnly pf listed rootDir) (modifyFile pf path s rootDir).
Proof.
  intros Hpath. unfold modifyFile.
  apply callsOnly_bind; [by apply callsOnly_call|]. intros current.
  apply callsOnly_bind; [by apply callsOnly_call|]. intros ctx.
  apply callsOnly_bind; [apply callsOnly_callOpenRouter; simpl; eauto|]. intros content.
  apply callsOnly_bind; [apply callsOnly_trimmedClean|]. intros clean.
  by apply callsOnly_call.
Qed.

Lemma callsOnly_processFiles (listed : jsstring → Prop) s rootDir paths :
  (∀ f, f ∈ paths → listed (rootDir ++ [c_slash] ++ f)) →
  callsOnly (touchesOnly pf listed rootDir) (processFiles pf s rootDir paths).
Proof.
  induction paths as [|f rest IH]; intros Hl; [apply callsOnly_ret|].
  assert (Hf : listed (rootDir ++ [c_slash] ++ f)) by (apply Hl; left).
  cbn [processFiles].
  apply callsOnly_bind; [apply callsOnly_call; simpl; eauto|]. intros fileExists.
  apply callsOnly_bind.
  - destruct fileExists; [by apply callsOnly_modifyFile|by apply callsOnly_createFile].
  - intros _. apply IH. intros g Hg. apply Hl. by right.
Qed.

Lemma callsOnly_executeStep (listed : jsstring → Prop) s rootDir :
  (∀ fs f, files s = Some fs → f ∈ fs → listed (rootDir ++ [c_slash] ++ f)) →
  callsOnly (touchesOnly pf listed rootDir) (executeStep pf s rootDir).
Proof.
  intros Hl. unfold executeStep.
  apply callsOnly_try_catch; [|intros e; apply callsOnly_ret].
  destruct (files s) as [[|f rest]|] eqn:Hfiles; try apply callsOnly_ret.
  apply callsOnly_bind; [|intros _; apply callsOnly_ret].
  apply callsOnly_processFiles. intros g Hg. by eapply Hl.
Qed.

Lemma callsOnly_runSteps (P : Event → Prop) rootDir continueOnError remaining :
  (∀ s, s ∈ remaining → callsOnly P (executeStep pf s rootDir)) →
  ∀ results, callsOnly P (runSteps pf rootDir continueOnError results remaining).
Proof.
  induction remaining as [|s rest IH]; intros Hs results; [apply callsOnly_ret|].
  cbn [runSteps]. apply callsOnly_bind; [apply Hs; left|]. intros result.
  assert (Hrest : ∀ s', s' ∈ rest → callsOnly P (executeStep pf s' rootDir))
    by (intros s' Hin; apply Hs; by right).
  destruct (success result); [by apply IH|].
  destruct continueOnError; cbn [negb]; [by apply IH|apply callsOnly_ret].
Qed.

Lemma writesCleaned_runSteps rootDir continueOnError : ∀ remaining results h,
  writesCleaned pf h (snd (runSteps pf rootDir continueOnError results remaining h)).
Proof.
  induction remaining as [|s rest IH]; intros results h; [apply writesCleaned_refl|].
  cbn [runSteps]. unfold bind.
  pose proof (writesCleaned_executeStep pf s rootDir h) as Hs.
  destruct (executeStep pf s rootDir h) as [[e|result] h1]; [done|]. simpl in Hs.
  destruct (success result); [eapply writesCleaned_trans; [exact Hs|apply IH]|].
  destruct continueOnError; cbn [negb]; [|done].
  eapply writesCleaned_trans; [exact Hs|apply IH].
Qed.

(** X8: whatever the platform answers,
    [executePlan] checks, reads and writes only paths [rootDir/file] for a
    file listed by a step of the plan, checks and creates only their
    directories, renders the tree of [rootDir] only and sends requests
    only to the address of the default model; every file written holds
    the cleaned form of a text the upstream returned in the run. *)
Theorem executePlan_touches_listed_files plan rootDir continueOnError h :
  ∃ new,
    snd (executePlan pf plan rootDir continueOnError h) = new ++ h
    ∧ Forall (touchesOnly pf (listedPath plan rootDir) rootDir) new
    ∧ ∀ p c, EvWrite p c ∈ new →
        listedPath plan rootDir p
        ∧ ∃ raw, llmReturned pf (new ++ h) raw ∧ c = cleanContent raw.
Proof.
  assert (Hcalls : callsOnly (touchesOnly pf (listedPath plan rootDir) rootDir)
                     (executePlan pf plan rootDir continueOnError)).
  { apply callsOnly_runSteps. intros s Hs. apply callsOnly_executeStep.
    intros fs f Hfs Hf. by exists s, fs, f. }
  destruct (Hcalls h) as (new & Hnew & HP). exists new. split; [done|]. split; [done|].
  intros p c Hin. split.
  - by apply (proj1 (Forall_forall _ _) HP _ Hin).
  - destruct (writesCleaned_runSteps rootDir continueOnError (steps plan)
                {| totalSteps := length (steps plan); successCount := 0;
                   failedSteps := [] |} h) as (new' & Hnew' & Hw).
    unfold executePlan in Hnew. rewrite Hnew in Hnew', Hw.
    apply app_inv_tail in Hnew' as <-. exact (Hw p c Hin).
Qed.

End ExecutorCalls.

(** ** Plan executor: outcomes *)

Section ExecutorOutcomes.
Variable pf : Platform.

Lemma callOpenRouter_no_key sys user model h :
  apiKey pf = None ∨ apiKey pf = Some [] →
  callOpenRouter pf sys user model h
  = (inl (ErrorObject (lit "GEMINI_API_KEY environment variable is not set")), h).
Proof. intros [Hk|Hk]; unfold callOpenRouter; by rewrite Hk. Qed.

Lemma executeStep_no_key s rootDir f rest h :
  apiKey pf = None ∨ apiKey pf = Some [] →
  files s = Some (f :: rest) →
  ∃ msg new,
    executeStep pf s rootDir h = (inr {| success := false; message := msg |}, new ++ h)
    ∧ length new ≤ 3
    ∧ Forall readOnlyEvent new
    ∧ (msg = lit "GEMINI_API_KEY environment variable is not set"
       ∨ ∃ e h1,
           (readFileSync pf h1 (rootDir ++ [c_slash] ++ f) = inl e
            ∨ getFileTreeString pf h1 rootDir = inl e)
           ∧ msg = errorText e).
Proof.
  intros Hkey Hfiles. unfold executeStep, try_catch. rewrite Hfiles.
  cbn [processFiles]. unfold bind at 1 2 3. unfold call at 1.
  set (full := rootDir ++ [c_slash] ++ f).
  destruct (existsSync pf h full).
  - unfold modifyFile, bind, call.
    destruct (readFileSync pf _ full) as [e|current] eqn:Hread.
    { exists (errorText e), [EvRead full; EvExists full].
      split; [done|]. split; [simpl; lia|]. split; [by repeat constructor|].
      right. eauto. }
    destruct (getFileTreeString pf _ rootDir) as [e|ctx] eqn:Htree.
    { exists (errorText e), [EvTree rootDir; EvRead full; EvExists full].
      split; [done|]. split; [simpl; lia|]. split; [by repeat constructor|].
      right. eauto. }
    rewrite callOpenRouter_no_key by done.
    exists (lit "GEMINI_API_KEY environment variable is not set"),
      [EvTree rootDir; EvRead full; EvExists full].
    split; [done|]. split; [simpl; lia|]. split; [by repeat constructor|]. by left.
  - unfold createFile, bind, call.
    destruct (getFileTreeString pf _ rootDir) as [e|ctx] eqn:Htree.
    { exists (errorText e), [EvTree rootDir; EvExists full].
      split; [done|]. split; [simpl; lia|]. split; [by repeat constructor|].
      right. eauto. }
    rewrite callOpenRouter_no_key by done.
    exists (lit "GEMINI_API_KEY environment variable is not set"),
      [EvTree rootDir; EvExists full].
    split; [done|]. split; [simpl; lia|]. split; [by repeat constructor|]. by left.
Qed.

(** X9: without a credential a step that
    lists a file fails after at most three calls, each a check, a read or
    the tree: no request is sent, no directory made, nothing written; the
    message is the configuration error unless the read or the tree failed
    first. *)
Theorem executeStep_without_credential s rootDir f rest h :
  apiKey pf = None ∨ apiKey pf = Some [] →
  files s = Some (f :: rest) →
  ∃ msg new,
    executeStep pf s rootDir h = (inr {| success := false; message := msg |}, new ++ h)
    ∧ length new ≤ 3
    ∧ Forall readOnlyEvent new
    ∧ (msg = lit "GEMINI_API_KEY environment variable is not set"
       ∨ ∃ e h1,
           (readFileSync pf h1 (rootDir ++ [c_slash] ++ f) = inl e
            ∨ getFileTreeString pf h1 rootDir = inl e)
           ∧ msg = errorText e).
Proof. apply executeStep_no_key. Qed.

Lemma executeStep_lists_nothing s rootDir h :
  listsFiles s = false →
  executeStep pf s rootDir h
  = (inr {| success := true;
            message := lit "No files to modify (documentation or verification step)" |},
     h).
Proof.
  unfold listsFiles, executeStep, try_catch. by destruct (files s) as [[|f rest]|].
Qed.

Lemma runSteps_without_credential rootDir :
  apiKey pf = None ∨ apiKey pf = Some [] →
  ∀ remaining results h,
  ∃ r new,
    runSteps pf rootDir true results remaining h = (inr r, new ++ h)
    ∧ Forall readOnlyEvent new
    ∧ totalSteps r = totalSteps results
    ∧ failedSteps r = failedSteps results ++ map step (List.filter listsFiles remaining)
    ∧ successCount r
      = successCount results + length (List.filter (λ s, negb (listsFiles s)) remaining).
Proof.
  intros Hkey. induction remaining as [|s rest IH]; intros results h.
  - exists results, []. simpl. rewrite app_nil_r. repeat split; [constructor|lia].
  - destruct (listsFiles s) eqn:Hs.
    + assert (∃ f fs, files s = Some (f :: fs)) as (f & fs & Hfiles).
      { unfold listsFiles in Hs. destruct (files s) as [[|f fs]|]; try done. eauto. }
      destruct (executeStep_no_key s rootDir f fs h Hkey Hfiles)
        as (msg & n1 & Hstep & _ & Hro & _).
      rewrite (runSteps_failure_continue pf _ _ _ _ _ _ _ Hstep eq_refl).
      edestruct IH as (r & n2 & -> & Hro2 & Ht & Hf & Hc).
      exists r, (n2 ++ n1). rewrite app_assoc. simpl in *. rewrite Hs. simpl.
      split; [done|]. split; [by apply Forall_app|]. split; [done|].
      split; [by rewrite Hf, <- app_assoc|done].
    + rewrite (runSteps_success pf _ _ _ _ _ _ _ _
                 (executeStep_lists_nothing s rootDir h Hs) eq_refl).
      edestruct IH as (r & n2 & -> & Hro2 & Ht & Hf & Hc).
      exists r, n2. simpl in *. rewrite Hs. simpl. repeat split; try done. lia.
Qed.

(** X10: without a credential, and going
    on after failures, the steps that fail are those that list a file,
    in plan order, the others succeed, and the run makes no call other
    than checks, reads and trees. *)
Theorem executePlan_without_credential plan rootDir h :
  apiKey pf = None ∨ apiKey pf = Some [] →
  ∃ r new,
    executePlan pf plan rootDir true h = (inr r, new ++ h)
    ∧ Forall readOnlyEvent new
    ∧ totalSteps r = length (steps plan)
    ∧ failedSteps r = map step (List.filter listsFiles (steps plan))
    ∧ successCount r = length (List.filter (λ s, negb (listsFiles s)) (steps plan)).
Proof.
  intros Hkey. unfold executePlan.
  edestruct (runSteps_without_credential rootDir Hkey (steps plan))
    as (r & new & -> & Hro & Ht & Hf & Hc).
  exists r, new. by repeat split.
Qed.

(** The loop over the files of a step, on two lists in a row. *)
Lemma processFiles_app s rootDir pre post h :
  processFiles pf s rootDir (pre ++ post) h
  = bind (processFiles pf s rootDir pre) (λ _, processFiles pf s rootDir post) h.
Proof.
  revert h. induction pre as [|f pre IH]; intros h; [done|].
  cbn [app processFiles]. rewrite !bind_assoc. unfold bind at 1 3.
  destruct (call _ _ h) as [[e|b] h1]; [done|].
  rewrite bind_assoc. unfold bind.
  destruct b.
  - destruct (modifyFile pf _ s rootDir h1) as [[e|[]] h2]; [done|].
    rewrite IH. reflexivity.
  - destruct (createFile pf _ s rootDir h1) as [[e|[]] h2]; [done|].
    rewrite IH. reflexivity.
Qed.

(** X11: when the files before [f] were
    processed and [f] fails, the step fails with the text of that error
    and ends there: the files after [f] are not touched, and what was
    written for the files before [f] stays written. *)
Theorem executeStep_stops_at_failure s rootDir pre f post h h1 e h2 :
  files s = Some (pre ++ f :: post) →
  processFiles pf s rootDir pre h = (inr tt, h1) →
  processFiles pf s rootDir [f] h1 = (inl e, h2) →
  executeStep pf s rootDir h
  = (inr {| success := false; message := errorText e |}, h2).
Proof.
  intros Hfiles Hpre Hf. unfold executeStep, try_catch. rewrite Hfiles.
  assert (Hall : processFiles pf s rootDir (pre ++ f :: post) h = (inl e, h2)).
  { rewrite processFiles_app. unfold bind. rewrite Hpre.
    change (f :: post) with ([f] ++ post). rewrite processFiles_app.
    unfold bind. by rewrite Hf. }
  destruct (pre ++ f :: post) as [|g l] eqn:Hl; [by destruct pre|].
  unfold bind. by rewrite Hall.
Qed.

(** Every step is tried when the loop goes on after a failure; without
    that, the loop ends at the first failure, which is the step after the
    successful ones. *)
Lemma runSteps_continue_accounting rootDir : ∀ remaining results h,
  ∃ r h',
    runSteps pf rootDir true results remaining h = (inr r, h')
    ∧ successCount r + length (failedSteps r)
      = successCount results + length (failedSteps results) + length remaining.
Proof.
  induction remaining as [|s rest IH]; intros results h.
  - exists results, h. split; [done|]. simpl. lia.
  - destruct (executeStep_returns pf s rootDir h) as (result & h1 & Hs).
    destruct (success result) eqn:Hok.
    + rewrite (runSteps_success pf _ _ _ _ _ _ _ _ Hs Hok).
      edestruct IH as (r & h' & -> & Hn). exists r, h'. split; [done|].
      rewrite Hn. simpl. lia.
    + rewrite (runSteps_failure_continue pf _ _ _ _ _ _ _ Hs Hok).
      edestruct IH as (r & h' & -> & Hn). exists r, h'. split; [done|].
      rewrite Hn. simpl. rewrite length_app. simpl. lia.
Qed.

Lemma runSteps_stop_accounting rootDir : ∀ remaining results h,
  ∃ r h',
    runSteps pf rootDir false results remaining h = (inr r, h')
    ∧ ((failedSteps r = failedSteps results
        ∧ successCount r = successCount results + length remaining)
       ∨ (∃ s, remaining !! (successCount r - successCount results) = Some s
               ∧ successCount results ≤ successCount r
               ∧ failedSteps r = failedSteps results ++ [step s])).
Proof.
  induction remaining as [|s rest IH]; intros results h.
  - exists results, h. split; [done|]. left. simpl. split; [done|lia].
  - destruct (executeStep_returns pf s rootDir h) as (result & h1 & Hs).
    destruct (success result) eqn:Hok.
    + rewrite (runSteps_success pf _ _ _ _ _ _ _ _ Hs Hok).
      edestruct IH as (r & h' & -> & [[Hf Hn]|(s' & Hl & Hle & Hf)]); exists r, h';
        (split; [done|]); simpl in *.
      * left. split; [done|lia].
      * right. exists s'. split; [|split; [lia|done]].
        replace (successCount r - successCount results)
          with (S (successCount r - S (successCount results))) by lia.
        done.
    + rewrite (runSteps_failure_stop pf _ _ _ _ _ _ _ Hs Hok).
      eexists _, _. split; [done|]. right. exists s. simpl.
      rewrite Nat.sub_diag. done.
Qed.

(** X12: going on after failures, every step is
    counted, [successCount + len(failedSteps) = totalSteps]; stopping at
    the first failure, either nothing failed and every step succeeded, or
    [failedSteps] holds one number, that of the step that follows the
    [successCount] successful ones. *)
Theorem executePlan_accounting plan rootDir h :
  (∃ r h',
     executePlan pf plan rootDir true h = (inr r, h')
     ∧ successCount r + length (failedSteps r) = length (steps plan))
  ∧ (∃ r h',
       executePlan pf plan rootDir false h = (inr r, h')
       ∧ ((failedSteps r = [] ∧ successCount r = length (steps plan))
          ∨ (∃ s, steps plan !! successCount r = Some s
                  ∧ failedSteps r = [step s]))).
Proof.
  unfold executePlan. split.
  - edestruct (runSteps_continue_accounting rootDir (steps plan)) as (r & h' & -> & Hn).
    exists r, h'. split; [done|]. rewrite Hn. simpl. lia.
  - edestruct (runSteps_stop_accounting rootDir (steps plan))
      as (r & h' & -> & [[Hf Hn]|(s & Hl & _ & Hf)]); exists r, h'; (split; [done|]);
      simpl in *.
    + by left.
    + right. exists s. by rewrite Nat.sub_0_r in Hl.
Qed.

Lemma runSteps_lists_nothing rootDir continueOnError : ∀ remaining results h,
  Forall (λ s, listsFiles s = false) remaining →
  runSteps pf rootDir continueOnError results remaining h
  = (inr {| totalSteps := totalSteps results;
            successCount := successCount results + length remaining;
            failedSteps := failedSteps results |}, h).
Proof.
  induction remaining as [|s rest IH]; intros results h Hall.
  - simpl. rewrite Nat.add_0_r. by destruct results.
  - apply Forall_cons in Hall as [Hs Hrest].
    rewrite (runSteps_success pf _ _ _ _ _ _ _ _
               (executeStep_lists_nothing s rootDir h Hs) eq_refl).
    rewrite IH by done. simpl. do 3 f_equal. lia.
Qed.

(** X13: a plan none of whose steps lists a
    file succeeds in every step and makes no call at all. *)
Theorem executePlan_lists_nothing plan rootDir continueOnError h :
  Forall (λ s, listsFiles s = false) (steps plan) →
  executePlan pf plan rootDir continueOnError h
  = (inr {| totalSteps := length (steps plan);
            successCount := length (steps plan);
            failedSteps := [] |}, h).
Proof. intros Hall. unfold executePlan. by rewrite runSteps_lists_nothing. Qed.

End ExecutorOutcomes.

(** ** Plan executor: a step on one file *)

Lemma includes_inside sub a b : includes sub (a ++ sub ++ b) = true.
Proof. apply includes_app. Qed.

Lemma includes_later sub a s : includes sub s = true → includes sub (a ++ s) = true.
Proof.
  intros (pre & post & ->)%includes_split. rewrite app_assoc. apply includes_app.
Qed.

Lemma createUserPrompt_mentions filePath s ctx :
  includes filePath (createUserPrompt filePath s ctx) = true
  ∧ includes (action s) (createUserPrompt filePath s ctx) = true
  ∧ includes (description s) (createUserPrompt filePath s ctx) = true
  ∧ includes (reasoning s) (createUserPrompt filePath s ctx) = true
  ∧ includes ctx (createUserPrompt filePath s ctx) = true.
Proof.
  unfold createUserPrompt.
  repeat split; repeat first [apply includes_inside | apply includes_later].
Qed.

Lemma modifyUserPrompt_mentions filePath s ctx current :
  includes filePath (modifyUserPrompt filePath s ctx current) = true
  ∧ includes (action s) (modifyUserPrompt filePath s ctx current) = true
  ∧ includes (description s) (modifyUserPrompt filePath s ctx current) = true
  ∧ includes (reasoning s) (modifyUserPrompt filePath s ctx current) = true
  ∧ includes ctx (modifyUserPrompt filePath s ctx current) = true
  ∧ includes current (modifyUserPrompt filePath s ctx current) = true.
Proof.
  unfold modifyUserPrompt.
  repeat split; repeat first [apply includes_inside | apply includes_later].
Qed.

Section ExecutorTraces.
Variable pf : Platform.

Lemma callOpenRouter_returns sys user model key h content :
  apiKey pf = Some key → key ≠ [] →
  readResponse pf (fetch pf h (geminiUrl model key) (sys ++ [c_lf; c_lf] ++ user))
  = inr content →
  callOpenRouter pf sys user model h
  = (inr content, EvFetch (geminiUrl model key) (sys ++ [c_lf; c_lf] ++ user) :: h).
Proof.
  intros Hkey Hne Hr. unfold callOpenRouter. rewrite Hkey.
  destruct key as [|k key]; [done|]. unfold call.
  fold (geminiUrl model (k :: key)). by rewrite Hr.
Qed.

(** X14: for a step on one file that
    does not exist, when every call succeeds: the calls are, in order,
    the check of the file, the tree, one request whose prompt holds the
    path, the action and the tree, the check of the directory, its
    creation when it is missing, and the write of the cleaned answer; the
    step reports success with the action. *)
Theorem executeStep_creates_missing_file s rootDir f h key ctx raw :
  let full := rootDir ++ [c_slash] ++ f in
  let h1 := EvTree rootDir :: EvExists full :: h in
  let prompt := createSystemPrompt ++ [c_lf; c_lf] ++ createUserPrompt full s ctx in
  let h2 := EvFetch (geminiUrl defaultModel key) prompt :: h1 in
  let dir := dirname pf full in
  let h3 := EvExists dir :: h2 in
  let h4 := if existsSync pf h2 dir then h3 else EvMkdir dir :: h3 in
  files s = Some [f] →
  existsSync pf h full = false →
  getFileTreeString pf (EvExists full :: h) rootDir = inr ctx →
  apiKey pf = Some key → key ≠ [] →
  readResponse pf (fetch pf h1 (geminiUrl defaultModel key) prompt) = inr (JStr raw) →
  (existsSync pf h2 dir = false → mkdirSync pf h3 dir = None) →
  writeFileSync pf h4 full (cleanContent raw) = None →
  executeStep pf s rootDir h
  = (inr {| success := true; message := lit "Successfully completed: " ++ action s |},
     EvWrite full (cleanContent raw) :: h4)
  ∧ includes full prompt = true
  ∧ includes (action s) prompt = true
  ∧ includes ctx prompt = true.
Proof.
  intros full h1 prompt h2 dir h3 h4 Hfiles Hexists Htree Hkey Hne Hresp Hmkdir Hwrite.
  split.
  - unfold executeStep, try_catch. rewrite Hfiles. cbn [processFiles].
    fold full. unfold bind at 1 2 3. unfold call at 1. rewrite Hexists.
    unfold createFile. unfold bind at 1. unfold call at 1. rewrite Htree.
    unfold bind at 1. fold h1.
    rewrite (callOpenRouter_returns _ _ _ key h1 (JStr raw) Hkey Hne Hresp).
    fold prompt h2. cbn [trimmedClean]. unfold bind at 1. unfold ret at 1.
    unfold bind at 1. unfold call at 1. fold dir h3.
    subst h4. destruct (existsSync pf h2 dir) eqn:Hdir.
    + unfold bind at 1. unfold ret at 1. unfold call. by rewrite Hwrite.
    + unfold bind at 1. unfold call at 1. rewrite (Hmkdir eq_refl). cbn [unit_answer].
      unfold call. by rewrite Hwrite.
  - destruct (createUserPrompt_mentions full s ctx) as (H1 & H2 & _ & _ & H3).
    subst prompt. repeat split; do 2 apply includes_later; done.
Qed.

(** X15: for a step on one file that
    exists, when every call succeeds: the file is read, the tree
    rendered, one request sent whose prompt holds the path, the action and
    the content read, and the cleaned answer written over the same path,
    without any check or creation of a directory. *)
Theorem executeStep_modifies_existing_file s rootDir f h key current ctx raw :
  let full := rootDir ++ [c_slash] ++ f in
  let h1 := EvTree rootDir :: EvRead full :: EvExists full :: h in
  let prompt :=
    modifySystemPrompt ++ [c_lf; c_lf] ++ modifyUserPrompt full s ctx current in
  let h2 := EvFetch (geminiUrl defaultModel key) prompt :: h1 in
  files s = Some [f] →
  existsSync pf h full = true →
  readFileSync pf (EvExists full :: h) full = inr current →
  getFileTreeString pf (EvRead full :: EvExists full :: h) rootDir = inr ctx →
  apiKey pf = Some key → key ≠ [] →
  readResponse pf (fetch pf h1 (geminiUrl defaultModel key) prompt) = inr (JStr raw) →
  writeFileSync pf h2 full (cleanContent raw) = None →
  executeStep pf s rootDir h
  = (inr {| success := true; message := lit "Successfully completed: " ++ action s |},
     EvWrite full (cleanContent raw) :: h2)
  ∧ includes full prompt = true
  ∧ includes (action s) prompt = true
  ∧ includes current prompt = true.
Proof.
  intros full h1 prompt h2 Hfiles Hexists Hread Htree Hkey Hne Hresp Hwrite.
  split.
  - unfold executeStep, try_catch. rewrite Hfiles. cbn [processFiles].
    fold full. unfold bind at 1 2 3. unfold call at 1. rewrite Hexists.
    unfold modifyFile. unfold bind at 1. unfold call at 1. rewrite Hread.
    unfold bind at 1. unfold call at 1. rewrite Htree.
    unfold bind at 1. fold h1.
    rewrite (callOpenRouter_returns _ _ _ key h1 (JStr raw) Hkey Hne Hresp).
    fold prompt h2. cbn [trimmedClean]. unfold bind at 1. unfold ret at 1.
    unfold call. by rewrite Hwrite.
  - destruct (modifyUserPrompt_mentions full s ctx current) as (H1 & H2 & _ & _ & _ & H3).
    subst prompt. repeat split; do 2 apply includes_later; done.
Qed.

End ExecutorTraces.

(** ** Runs on the simulated platform *)

Lemma executeStep_without_credential_witness :
  ∃ msg new,
    executeStep noKeyPlatform (fileStep 2 "src/a.ts") (lit "/w") []
    = (inr {| success := false; message := msg |}, new ++ [])
    ∧ length new ≤ 3
    ∧ Forall readOnlyEvent new
    ∧ (msg = lit "GEMINI_API_KEY environment variable is not set"
       ∨ ∃ e h1,
           (readFileSync noKeyPlatform h1 (lit "/w" ++ [c_slash] ++ lit "src/a.ts") = inl e
            ∨ getFileTreeString noKeyPlatform h1 (lit "/w") = inl e)
           ∧ msg = errorText e).
Proof.
  apply (executeStep_without_credential noKeyPlatform (fileStep 2 "src/a.ts") (lit "/w")
           (lit "src/a.ts") [] []).
  - left. reflexivity.
  - reflexivity.
Defined.

Lemma executePlan_without_credential_witness :
  ∃ r new,
    executePlan noKeyPlatform samplePlan (lit "/w") true [] = (inr r, new ++ [])
    ∧ Forall readOnlyEvent new
    ∧ totalSteps r = 3
    ∧ failedSteps r = [integer 2]
    ∧ successCount r = 2.
Proof.
  apply (executePlan_without_credential noKeyPlatform samplePlan (lit "/w") []).
  left. reflexivity.
Defined.

Lemma executeStep_stops_at_failure_witness :
  executeStep (replyPlatform (Response 200 (geminiBody (lit "let x = 1;"))))
    threeFileStep (lit "/w") []
  = (inr {| success := false; message := lit "ENOENT: no such file or directory" |},
     [EvRead (lit "/w/src"); EvExists (lit "/w/src");
      EvWrite (lit "/w/src/a.ts") (lit "let x = 1;"); EvExists (lit "/w/src");
      EvFetch (geminiUrl defaultModel (lit "k"))
        (createSystemPrompt ++ [c_lf; c_lf]
         ++ createUserPrompt (lit "/w/src/a.ts") threeFileStep (lit "File Tree"));
      EvTree (lit "/w"); EvExists (lit "/w/src/a.ts")]).
Proof.
  apply (executeStep_stops_at_failure
           (replyPlatform (Response 200 (geminiBody (lit "let x = 1;"))))
           threeFileStep (lit "/w") [lit "src/a.ts"] (lit "src") [lit "src/b.ts"] []
           [EvWrite (lit "/w/src/a.ts") (lit "let x = 1;"); EvExists (lit "/w/src");
            EvFetch (geminiUrl defaultModel (lit "k"))
              (createSystemPrompt ++ [c_lf; c_lf]
               ++ createUserPrompt (lit "/w/src/a.ts") threeFileStep (lit "File Tree"));
            EvTree (lit "/w"); EvExists (lit "/w/src/a.ts")]
           (ErrorObject (lit "ENOENT: no such file or directory"))).
  - reflexivity.
  - vm_compute. reflexivity.
  - vm_compute. reflexivity.
Defined.

Lemma executePlan_lists_nothing_witness :
  executePlan noKeyPlatform
    {| summary := lit "Review"; steps := [docStep 1; docStep 2];
       estimatedComplexity := low; prerequisites := []; risks := [] |}
    (lit "/w") false []
  = (inr {| totalSteps := 2; successCount := 2; failedSteps := [] |}, []).
Proof.
  apply (executePlan_lists_nothing noKeyPlatform
           {| summary := lit "Review"; steps := [docStep 1; docStep 2];
              estimatedComplexity := low; prerequisites := []; risks := [] |}
           (lit "/w") false []).
  repeat constructor.
Defined.

Lemma executeStep_creates_missing_file_witness :
  fst (executeStep (replyPlatform (Response 200 (geminiBody (lit " let x = 1; "))))
         (fileStep 2 "lib/a.ts") (lit "/w") [])
  = inr {| success := true; message := lit "Successfully completed: Write" |}
  ∧ take 2 (snd (executeStep (replyPlatform (Response 200 (geminiBody (lit " let x = 1; "))))
                   (fileStep 2 "lib/a.ts") (lit "/w") []))
    = [EvWrite (lit "/w/lib/a.ts") (lit "let x = 1;"); EvMkdir (lit "/w/lib")].
Proof.
  destruct (executeStep_creates_missing_file
              (replyPlatform (Response 200 (geminiBody (lit " let x = 1; "))))
              (fileStep 2 "lib/a.ts") (lit "/w") (lit "lib/a.ts") [] (lit "k")
              (lit "File Tree") (lit " let x = 1; ")) as [H _].
  - reflexivity.
  - vm_compute. reflexivity.
  - reflexivity.
  - reflexivity.
  - discriminate.
  - vm_compute. reflexivity.
  - intros _. reflexivity.
  - vm_compute. reflexivity.
  - rewrite H. split; vm_compute; reflexivity.
Defined.

Lemma executeStep_modifies_existing_file_witness :
  fst (executeStep (editPlatform (Response 200 (geminiBody (lit "let x = 1;"))))
         (fileStep 2 "src/a.ts") (lit "/w") [])
  = inr {| success := true; message := lit "Successfully completed: Write" |}
  ∧ take 2 (snd (executeStep (editPlatform (Response 200 (geminiBody (lit "let x = 1;"))))
                   (fileStep 2 "src/a.ts") (lit "/w") []))
    = [EvWrite (lit "/w/src/a.ts") (lit "let x = 1;");
       EvFetch (geminiUrl defaultModel (lit "k"))
         (modifySystemPrompt ++ [c_lf; c_lf]
          ++ modifyUserPrompt (lit "/w/src/a.ts") (fileStep 2 "src/a.ts")
               (lit "File Tree") (lit "let x = 0;"))].
Proof.
  destruct (executeStep_modifies_existing_file
              (editPlatform (Response 200 (geminiBody (lit "let x = 1;"))))
              (fileStep 2 "src/a.ts") (lit "/w") (lit "src/a.ts") [] (lit "k")
              (lit "let x = 0;") (lit "File Tree") (lit "let x = 1;")) as [H _].
  - reflexivity.
  - vm_compute. reflexivity.
  - vm_compute. reflexivity.
  - reflexivity.
  - reflexivity.
  - discriminate.
  - vm_compute. reflexivity.
  - vm_compute. reflexivity.
  - rewrite H. split; vm_compute; reflexivity.
Defined.

(** * The interactive front end (src/src/index.ts) *)

(** ** The line editor *)

Lemma keyHandler_cursor selectedFile st key st' :
  cursorPos st ≤ length (buffer st) →
  keyHandler selectedFile st key = Listening st' →
  cursorPos st' ≤ length (buffer st').
Proof.
  intros Hinv. unfold keyHandler.
  destruct (str_eqb key keyCtrlC); [done|].
  destruct (str_eqb key [c_cr] || str_eqb key [c_lf]); [done|].
  destruct (str_eqb key keyDelete || str_eqb key keyBackspace).
  { destruct (Nat.ltb_spec 0 (cursorPos st)); intros [= <-]; [|done]. simpl.
    rewrite length_app, length_take, length_drop. lia. }
  destruct (str_eqb key keyLeft).
  { intros [= <-]. simpl. destruct (0 <? cursorPos st)%nat; lia. }
  destruct (str_eqb key keyRight).
  { intros [= <-]. simpl. destruct (Nat.ltb_spec (cursorPos st) (length (buffer st))); lia. }
  destruct (str_eqb key [c_at]).
  { intros [= <-]. simpl. rewrite !length_app, length_take. simpl.
    rewrite length_app, length_drop. lia. }
  destruct (isRegularKey key) eqn:Hreg; intros [= <-]; [|done]. simpl.
  destruct key as [|c [|]]; try done.
  rewrite !length_app, length_take, length_drop. simpl. lia.
Qed.

Lemma keyHandler_printable selectedFile st key st' :
  Forall printable selectedFile →
  Forall printable (buffer st) →
  keyHandler selectedFile st key = Listening st' →
  Forall printable (buffer st').
Proof.
  intros Hsel Hbuf. unfold keyHandler.
  assert (Ht : ∀ n, Forall printable (take n (buffer st))) by (intros n; by apply Forall_take).
  assert (Hd : ∀ n, Forall printable (drop n (buffer st))) by (intros n; by apply Forall_drop).
  destruct (str_eqb key keyCtrlC); [done|].
  destruct (str_eqb key [c_cr] || str_eqb key [c_lf]); [done|].
  destruct (str_eqb key keyDelete || str_eqb key keyBackspace).
  { destruct (0 <? cursorPos st)%nat; intros [= <-]; [|done]. simpl.
    apply Forall_app. split; [apply Ht|apply Hd]. }
  destruct (str_eqb key keyLeft); [by intros [= <-]|].
  destruct (str_eqb key keyRight); [by intros [= <-]|].
  destruct (str_eqb key [c_at]).
  { intros [= <-]. simpl. apply Forall_app. split; [done|].
    apply Forall_cons. split; [unfold printable; lia|]. by apply Forall_app. }
  destruct (isRegularKey key) eqn:Hreg; intros [= <-]; [|done]. simpl.
  destruct key as [|c [|]]; try done. simpl in Hreg.
  apply andb_true_iff in Hreg as [H1%N.leb_le H2%N.leb_le].
  apply Forall_app. split; [done|]. apply Forall_cons. split; [done|]. done.
Qed.

Lemma handleKeys_invariant (P : LineState → Prop) keys :
  (∀ key selectedFile st st',
     (key, selectedFile) ∈ keys → P st →
     keyHandler selectedFile st key = Listening st' → P st') →
  ∀ st st', P st → handleKeys st keys = Listening st' → P st'.
Proof.
  induction keys as [|[key sel] rest IH]; intros Hstep st st' Hst.
  - by intros [= <-].
  - simpl. destruct (keyHandler sel st key) as [|line|st1] eqn:Hk; try done.
    apply IH; [|by eapply Hstep; [left| |]].
    intros k s a b Hin. apply Hstep. by right.
Qed.

Lemma handleKeys_resolved keys : ∀ st line,
  handleKeys st keys = Resolved line →
  ∃ before key selectedFile after st',
    keys = before ++ (key, selectedFile) :: after
    ∧ handleKeys st before = Listening st'
    ∧ keyHandler selectedFile st' key = Resolved line.
Proof.
  induction keys as [|[key sel] rest IH]; intros st line; [done|]. simpl.
  destruct (keyHandler sel st key) as [|line'|st1] eqn:Hk; [done| |].
  - intros [= ->]. by exists [], key, sel, rest, st.
  - intros (before & k & s & after & st' & -> & Hb & Hr)%IH.
    exists ((key, sel) :: before), k, s, after, st'. simpl. by rewrite Hk.
Qed.

Lemma keyHandler_resolved selectedFile st key line :
  keyHandler selectedFile st key = Resolved line → line = buffer st.
Proof.
  unfold keyHandler.
  repeat match goal with
         | |- context [if ?b then _ else _] => destruct b
         end; congruence.
Qed.

(** X17: whatever keys arrive, the cursor stays
    within the line, and the line holds only printable ASCII when the
    files picked at the prompt do: control characters and escape
    sequences never enter it. *)
Theorem smartInput_cursor_in_line keys :
  (∀ st, smartInput keys = Listening st →
     cursorPos st ≤ length (buffer st)
     ∧ (Forall (λ k, Forall printable k.2) keys → Forall printable (buffer st)))
  ∧ (∀ line, smartInput keys = Resolved line →
       Forall (λ k, Forall printable k.2) keys → Forall printable line).
Proof.
  assert (Hcur : ∀ before st, handleKeys {| buffer := []; cursorPos := 0 |} before
                              = Listening st → cursorPos st ≤ length (buffer st)).
  { intros before st.
    apply (handleKeys_invariant (λ st, cursorPos st ≤ length (buffer st))); [|done].
    intros key sel a b _. apply keyHandler_cursor. }
  assert (Hpr : ∀ before st, Forall (λ k, Forall printable k.2) before →
            handleKeys {| buffer := []; cursorPos := 0 |} before = Listening st →
            Forall printable (buffer st)).
  { intros before st Hsel.
    apply (handleKeys_invariant (λ st, Forall printable (buffer st))); [|constructor].
    intros key sel a b Hin. apply keyHandler_printable.
    by apply (proj1 (Forall_forall _ _) Hsel _ Hin). }
  split.
  - intros st Hst. split; [by eapply Hcur|]. intros Hsel. by eapply Hpr.
  - intros line Hline Hsel. unfold smartInput in Hline.
    apply handleKeys_resolved in Hline as (before & key & sel & after & st' & -> & Hb & Hr).
    apply keyHandler_resolved in Hr as ->. eapply Hpr; [|done].
    by apply Forall_app in Hsel as [Hsel _].
Qed.

Lemma isRegularKey_unit c :
  isRegularKey [c] = (c_space <=? c)%N && (c <=? 126)%N.
Proof. reflexivity. Qed.

(** A key that types a code unit reaches the last branch of the handler. *)
Lemma keyHandler_regular selectedFile st c :
  typable c = true →
  keyHandler selectedFile st [c]
  = Listening {| buffer := take (cursorPos st) (buffer st) ++ [c]
                           ++ drop (cursorPos st) (buffer st);
                 cursorPos := cursorPos st + 1 |}.
Proof.
  unfold typable. intros [[H1 H2]%andb_true_iff H3%negb_true_iff]%andb_true_iff.
  apply N.leb_le in H1 as H1', H2 as H2'. apply N.eqb_neq in H3.
  unfold keyHandler, str_eqb, keyCtrlC, keyDelete, keyBackspace, keyLeft, keyRight.
  rewrite !bool_decide_false by (intros [= ->]; lia || done).
  simpl. by rewrite H1, H2.
Qed.

Lemma keyHandler_backspace selectedFile st :
  keyHandler selectedFile st keyDelete
  = Listening (if (0 <? cursorPos st)%nat
               then {| buffer := take (cursorPos st - 1) (buffer st)
                                 ++ drop (cursorPos st) (buffer st);
                       cursorPos := cursorPos st - 1 |}
               else st)
  ∧ keyHandler selectedFile st keyBackspace = keyHandler selectedFile st keyDelete.
Proof.
  unfold keyHandler, str_eqb, keyCtrlC, keyDelete, keyBackspace. simpl.
  by destruct (0 <? cursorPos st)%nat.
Qed.

(** X18: with the cursor in the line, a key that
    types a code unit puts it at the cursor and moves the cursor by one,
    and Delete or Backspace right after it gives the state back; the left
    arrow followed by the right arrow gives the state back; a chunk of two
    or more code units other than the two arrows (a paste, another escape
    sequence) changes nothing. *)
Theorem keyHandler_editing_laws selectedFile st c :
  cursorPos st ≤ length (buffer st) →
  typable c = true →
  (∃ st1,
     keyHandler selectedFile st [c] = Listening st1
     ∧ buffer st1 !! cursorPos st = Some c
     ∧ length (buffer st1) = S (length (buffer st))
     ∧ cursorPos st1 = S (cursorPos st)
     ∧ keyHandler selectedFile st1 keyDelete = Listening st
     ∧ keyHandler selectedFile st1 keyBackspace = Listening st)
  ∧ (0 < cursorPos st →
     ∃ st1, keyHandler selectedFile st keyLeft = Listening st1
            ∧ keyHandler selectedFile st1 keyRight = Listening st)
  ∧ (∀ key, 2 ≤ length key → key ≠ keyLeft → key ≠ keyRight →
       keyHandler selectedFile st key = Listening st).
Proof.
  intros Hinv Hc. destruct st as [buf pos]. simpl in Hinv. split; [|split].
  - eexists. split; [by apply keyHandler_regular|]. cbn [buffer cursorPos].
    assert (Hlen : length (take pos buf) = pos) by (rewrite length_take; lia).
    split; [|split; [|split; [lia|]]].
    + rewrite lookup_app_r by lia. by rewrite Hlen, Nat.sub_diag.
    + rewrite !length_app, Hlen, length_drop. simpl. lia.
    + assert (Hback : keyHandler selectedFile
                {| buffer := take pos buf ++ [c] ++ drop pos buf; cursorPos := pos + 1 |}
                keyDelete = Listening {| buffer := buf; cursorPos := pos |}).
      { rewrite (proj1 (keyHandler_backspace _ _)). cbn [buffer cursorPos].
        destruct (Nat.ltb_spec 0 (pos + 1)); [|lia].
        replace (pos + 1 - 1) with pos by lia. do 2 f_equal.
        rewrite take_app_le, take_take by lia.
        replace (pos `min` pos) with pos by lia.
        replace (pos + 1) with (length (take pos buf ++ [c]))
          by (rewrite length_app, Hlen; simpl; lia).
        rewrite app_assoc, drop_app_length. apply take_drop. }
      split; [done|]. by rewrite (proj2 (keyHandler_backspace _ _)).
  - intros Hpos. simpl in Hpos. eexists. split; [reflexivity|].
    unfold keyHandler, str_eqb, keyCtrlC, keyDelete, keyBackspace, keyLeft, keyRight.
    rewrite !bool_decide_false by done. rewrite bool_decide_true by done.
    cbn [buffer cursorPos orb].
    destruct (Nat.ltb_spec 0 pos); [|lia].
    destruct (Nat.ltb_spec (pos - 1) (length buf)); [|lia].
    do 2 f_equal. lia.
  - intros key Hlen Hl Hr. unfold keyHandler, str_eqb.
    rewrite (bool_decide_false (key = keyLeft)), (bool_decide_false (key = keyRight))
      by done.
    destruct key as [|a [|b key]]; simpl in Hlen; try lia.
    rewrite !bool_decide_false by done. reflexivity.
Qed.

Lemma keyHandler_editing_laws_witness :
  keyHandler (lit "src/a.ts") {| buffer := lit "fix it"; cursorPos := 3 |}
    (lit "[200~pasted text")
  = Listening {| buffer := lit "fix it"; cursorPos := 3 |}.
Proof.
  destruct (keyHandler_editing_laws (lit "src/a.ts")
              {| buffer := lit "fix it"; cursorPos := 3 |} 120%N) as (_ & _ & H).
  - simpl. lia.
  - reflexivity.
  - apply H; [simpl; lia|discriminate|discriminate].
Defined.

(** Typing at the end of the line appends. *)
Lemma handleKeys_typed text : ∀ st rest,
  cursorPos st = length (buffer st) →
  Forall (λ c, typable c = true) text →
  handleKeys st (typed text ++ rest)
  = handleKeys {| buffer := buffer st ++ text;
                  cursorPos := length (buffer st) + length text |} rest.
Proof.
  induction text as [|c text IH]; intros st rest Hend Hall.
  - simpl. rewrite app_nil_r, Nat.add_0_r, <- Hend. by destruct st.
  - apply Forall_cons in Hall as [Hc Hall]. cbn [typed map app handleKeys].
    rewrite keyHandler_regular by done. fold (typed text). rewrite IH; [|cbn|done].
    + cbn [buffer cursorPos]. rewrite Hend, take_ge, drop_ge by lia.
      rewrite !length_app, app_nil_r, <- !app_assoc. simpl. do 2 f_equal. lia.
    + rewrite Hend, take_ge, drop_ge by lia. rewrite !length_app. simpl. lia.
Qed.

(** X19: typing a text of printable code
    units other than [@], a key for each, and then Enter resolves with that
    text; keys after Enter are not handled. *)
Theorem smartInput_returns_typed_text text after :
  Forall (λ c, typable c = true) text →
  smartInput (typed text ++ ([c_cr], []) :: after) = Resolved text.
Proof.
  intros Hall. unfold smartInput. by rewrite handleKeys_typed.
Qed.

Lemma smartInput_returns_typed_text_witness :
  smartInput (typed (lit "Add a login page") ++ ([c_cr], []) :: typed (lit "x"))
  = Resolved (lit "Add a login page").
Proof.
  apply (smartInput_returns_typed_text (lit "Add a login page") (typed (lit "x"))).
  apply (bool_decide_unpack _). vm_compute. reflexivity.
Defined.

(** ** File mentions *)

Lemma scanMentions_open m name rest :
  Forall (λ c, isWhiteSpace c = false) name →
  match rest with [] => True | c :: _ => isWhiteSpace c = true end →
  scanMentions (Some m) (name ++ rest) = (m ++ name) :: scanMentions None rest.
Proof.
  intros Hname Hrest. revert m.
  induction Hname as [|c name Hc _ IH]; intros m.
  - rewrite app_nil_r. destruct rest as [|c r]; [done|].
    change (isWhiteSpace c = true) in Hrest. cbn [app scanMentions]. rewrite Hrest.
    destruct (N.eqb_spec c c_at) as [->|_]; [done|reflexivity].
  - cbn [app scanMentions]. rewrite Hc, IH. by rewrite <- app_assoc.
Qed.

Lemma scanMentions_skip pre s :
  c_at ∉ pre → scanMentions None (pre ++ s) = scanMentions None s.
Proof.
  induction pre as [|c pre IH]; [done|].
  intros [Hc Hpre]%not_elem_of_cons. cbn [app scanMentions].
  destruct (N.eqb_spec c c_at) as [->|_]; [done|]. by apply IH.
Qed.

Lemma matchMentions_mention pre name post :
  c_at ∉ pre → name ≠ [] →
  Forall (λ c, isWhiteSpace c = false) name →
  match post with [] => True | c :: _ => isWhiteSpace c = true end →
  matchMentions (pre ++ [c_at] ++ name ++ post)
  = (c_at :: name) :: matchMentions post.
Proof.
  intros Hpre Hne Hname Hpost. unfold matchMentions.
  rewrite scanMentions_skip by done.
  destruct name as [|c name]; [done|]. apply Forall_cons in Hname as Hc.
  destruct Hc as [Hc Hrest]. cbn [app scanMentions N.eqb Pos.eqb]. rewrite Hc.
  by rewrite scanMentions_open.
Qed.

(** Every match is an [@] with a name after it, free of whitespace, and
    it occurs in the text. *)
Lemma scanMentions_shape s : ∀ cur m,
  m ∈ scanMentions cur s →
  (∃ m0 name post,
      cur = Some m0 ∧ m = m0 ++ name
      ∧ Forall (λ c, isWhiteSpace c = false) name ∧ s = name ++ post
      ∧ match post with [] => True | c :: _ => isWhiteSpace c = true end)
  ∨ (∃ pre name post,
       m = c_at :: name ∧ name ≠ []
       ∧ Forall (λ c, isWhiteSpace c = false) name
       ∧ s = pre ++ m ++ post).
Proof.
  induction s as [|c r IH]; intros cur m Hin.
  - destruct cur as [m0|]; cbn [scanMentions] in Hin; [|by apply elem_of_nil in Hin].
    apply list_elem_of_singleton in Hin as ->.
    left. exists m0, [], []. by rewrite app_nil_r.
  - assert (Hlater : m ∈ scanMentions None r →
              ∃ pre name post, m = c_at :: name ∧ name ≠ []
                ∧ Forall (λ c, isWhiteSpace c = false) name
                ∧ c :: r = pre ++ m ++ post).
    { intros Hm. destruct (IH None m Hm) as [(m0 & ? & ? & [=] & _)|H].
      destruct H as (pre & name & post & -> & Hne & Hname & ->).
      by exists (c :: pre), name, post. }
    destruct cur as [m0|]; cbn [scanMentions] in Hin.
    + destruct (isWhiteSpace c) eqn:Hc.
      * apply elem_of_cons in Hin as [->|Hin]; [|right; by apply Hlater].
        left. exists m0, [], (c :: r). by rewrite app_nil_r.
      * destruct (IH _ m Hin) as [(? & name & post & [= <-] & -> & Hname & -> & Hpost)
                                 |(pre & name & post & -> & Hne & Hname & ->)].
        -- left. exists m0, (c :: name), post. rewrite <- app_assoc.
           split; [done|]. split; [done|]. split; [by constructor|done].
        -- right. by exists (c :: pre), name, post.
    + right. destruct (N.eqb_spec c c_at) as [->|_]; [|by apply Hlater].
      destruct r as [|c' r']; [by apply elem_of_nil in Hin|].
      destruct (isWhiteSpace c') eqn:Hc'; [by apply Hlater|].
      destruct (IH _ m Hin) as [(? & name & post & [= <-] & -> & Hname & Heq & Hpost)
                               |(pre & name & post & -> & Hne & Hname & Heq)].
      * exists [], name, post. rewrite Heq. split; [done|]. split; [|done].
        intros ->. simpl in Heq. subst post. congruence.
      * exists (c_at :: pre), name, post. by rewrite Heq.
Qed.

(** X20: every referenced file is non-empty,
    free of whitespace and occurs in the line after an [@]; and the first
    [@] of a line, when a name without whitespace follows it up to
    whitespace or the end, gives that name as the first referenced file,
    the others being those of the rest of the line. *)
Theorem referencedFilesOf_mentions userInput :
  (∀ f, f ∈ referencedFilesOf userInput →
     f ≠ [] ∧ Forall (λ c, isWhiteSpace c = false) f
     ∧ includes (c_at :: f) userInput = true)
  ∧ (∀ pre name post,
       userInput = pre ++ [c_at] ++ name ++ post →
       (c_at ∉ pre) → name ≠ [] →
       Forall (λ c, isWhiteSpace c = false) name →
       match post with [] => True | c :: _ => isWhiteSpace c = true end →
       referencedFilesOf userInput = name :: referencedFilesOf post).
Proof.
  split.
  - intros f Hf. unfold referencedFilesOf in Hf.
    apply list_elem_of_fmap in Hf as (m & -> & Hm).
    destruct (scanMentions_shape _ _ _ Hm) as [(m0 & ? & ? & [=] & _)|H].
    destruct H as (pre & name & post & -> & Hne & Hname & ->). simpl.
    rewrite drop_0. split; [done|]. split; [done|].
    apply (includes_app (c_at :: name) pre post).
  - intros pre name post -> Hpre Hne Hname Hpost. unfold referencedFilesOf.
    by rewrite matchMentions_mention.
Qed.

(** X21: typing a text, picking a file at the
    [@] prompt, typing on and pressing Enter resolves with the text, the
    [@], the file and the rest; when the file is non-empty and without
    whitespace and the rest is empty or begins with whitespace, the files
    the loop extracts from that line are exactly that file. *)
Theorem smartInput_mention_roundtrip before file after :
  Forall (λ c, typable c = true) before →
  Forall (λ c, typable c = true) after →
  file ≠ [] →
  Forall (λ c, isWhiteSpace c = false) file →
  match after with [] => True | c :: _ => isWhiteSpace c = true end →
  smartInput (typed before ++ ([c_at], file) :: typed after ++ [([c_cr], [])])
  = Resolved (before ++ [c_at] ++ file ++ after)
  ∧ referencedFilesOf (before ++ [c_at] ++ file ++ after) = [file].
Proof.
  intros Hbefore Hafter Hne Hfile Hstart. split.
  - unfold smartInput. rewrite handleKeys_typed by done.
    cbn [handleKeys buffer cursorPos app length Nat.add].
    assert (Hat : keyHandler file {| buffer := before; cursorPos := length before |} [c_at]
                  = Listening {| buffer := before ++ [c_at] ++ file;
                                 cursorPos := length (before ++ [c_at] ++ file) |}).
    { unfold keyHandler, str_eqb, keyCtrlC, keyDelete, keyBackspace, keyLeft, keyRight.
      rewrite !bool_decide_false by done. rewrite bool_decide_true by done.
      cbn [orb buffer cursorPos]. rewrite take_ge, drop_ge by lia.
      rewrite app_nil_r, !length_app. simpl. do 2 f_equal. lia. }
    rewrite Hat, handleKeys_typed by done.
    cbn [handleKeys buffer cursorPos]. unfold keyHandler, str_eqb, keyCtrlC.
    rewrite bool_decide_false by done. rewrite bool_decide_true by done.
    cbn [orb buffer]. by rewrite <- !app_assoc.
  - assert (Hno : ∀ s, Forall (λ c, typable c = true) s → c_at ∉ s).
    { intros s Hs Hin. apply (proj1 (Forall_forall _ _) Hs) in Hin. done. }
    unfold referencedFilesOf. rewrite matchMentions_mention by auto.
    unfold matchMentions. rewrite <- (app_nil_r after).
    rewrite scanMentions_skip by auto. simpl. by rewrite drop_0.
Qed.

Lemma smartInput_mention_roundtrip_witness :
  smartInput (typed (lit "Fix the bug in ") ++ ([c_at], lit "src/index.ts")
              :: typed (lit " today") ++ [([c_cr], [])])
  = Resolved (lit "Fix the bug in @src/index.ts today")
  ∧ referencedFilesOf (lit "Fix the bug in @src/index.ts today") = [lit "src/index.ts"].
Proof.
  apply (smartInput_mention_roundtrip (lit "Fix the bug in ") (lit "src/index.ts")
           (lit " today")).
  - apply (bool_decide_unpack _). vm_compute. reflexivity.
  - apply (bool_decide_unpack _). vm_compute. reflexivity.
  - discriminate.
  - apply (bool_decide_unpack _). vm_compute. reflexivity.
  - reflexivity.
Defined.

(** ** The loop of the session *)

Lemma isWhiteSpace_lower c : isWhiteSpace c = true → toLowerUnit c = c.
Proof.
  intros H.
  assert (Hc : (c ≤ 13 ∨ c = 32 ∨ c = 160 ∨ 5760 ≤ c)%N).
  { unfold isWhiteSpace, in_range in H.
    rewrite !orb_true_iff, !andb_true_iff, !N.eqb_eq, !N.leb_le in H. lia. }
  unfold toLowerUnit.
  assert (Hup : in_range 65 90 c || in_range 192 214 c || in_range 216 222 c = false).
  { apply not_true_is_false. unfold in_range.
    rewrite !orb_true_iff, !andb_true_iff, !N.leb_le. lia. }
  by rewrite Hup.
Qed.

Lemma dropWhile_run {A} (f : A → bool) run x r :
  Forall (λ c, f c = true) run → f x = false →
  dropWhile f (run ++ x :: r) = x :: r.
Proof.
  intros Hrun Hx. induction Hrun as [|c run Hc _ IH]; simpl; [by rewrite Hx|].
  by rewrite Hc.
Qed.

Lemma dropWhile_all {A} (f : A → bool) run :
  Forall (λ c, f c = true) run → dropWhile f run = [].
Proof. induction 1 as [|c run Hc _ IH]; simpl; [done|]. by rewrite Hc. Qed.

Lemma trim_padded pad1 w pad2 :
  Forall (λ c, isWhiteSpace c = true) pad1 →
  Forall (λ c, isWhiteSpace c = true) pad2 →
  noEdgeWhitespace w →
  trim (pad1 ++ w ++ pad2) = w.
Proof.
  intros H1 H2 [Hhead Hlast]. unfold trim.
  destruct w as [|c w].
  { simpl. rewrite (dropWhile_all _ (pad1 ++ pad2)) by (by apply Forall_app). done. }
  rewrite <- app_comm_cons, dropWhile_run by auto.
  rewrite app_comm_cons.
  destruct (exists_last (l := c :: w)) as (w' & d & Hw); [done|]. rewrite Hw.
  rewrite <- app_assoc, !reverse_app, reverse_singleton, <- app_assoc. cbn [app].
  rewrite dropWhile_run; [| by apply Forall_reverse |].
  - by rewrite reverse_cons, reverse_involutive.
  - apply Hlast. rewrite Hw. apply last_snoc.
Qed.

(** X22: a line that is exit or quit in any
    letter case, with any whitespace around it, ends the session; a line
    of whitespace only is asked again for; every other line, one whose
    trimmed text is not empty and is neither exit nor quit when lowered,
    is planned as it was typed, untrimmed, with the files it mentions. *)
Theorem interpretInput_exit_and_blank :
  (∀ pad1 w pad2,
     Forall (λ c, isWhiteSpace c = true) pad1 →
     Forall (λ c, isWhiteSpace c = true) pad2 →
     toLowerCase w = lit "exit" ∨ toLowerCase w = lit "quit" →
     interpretInput (pad1 ++ w ++ pad2) = EndSession)
  ∧ (∀ blank, Forall (λ c, isWhiteSpace c = true) blank →
       interpretInput blank = AskAgain)
  ∧ (∀ userInput,
       trim userInput ≠ [] →
       toLowerCase (trim userInput) ≠ lit "exit" →
       toLowerCase (trim userInput) ≠ lit "quit" →
       interpretInput userInput = PlanRequest userInput (referencedFilesOf userInput))
  ∧ (∀ userInput,
       (interpretInput userInput = EndSession ↔
        toLowerCase (trim userInput) = lit "exit"
        ∨ toLowerCase (trim userInput) = lit "quit")
       ∧ (interpretInput userInput = AskAgain ↔ trim userInput = [])).
Proof.
  split; [|split; [|split]].
  - intros pad1 w pad2 H1 H2 Hw. unfold interpretInput.
    assert (Hedge : noEdgeWhitespace w).
    { assert (Hnone : Forall (λ c, isWhiteSpace c = false) w).
      { apply Forall_forall. intros c Hc.
        destruct (isWhiteSpace c) eqn:Hws; [|done]. exfalso.
        assert (Hin : c ∈ toLowerCase w).
        { rewrite <- (isWhiteSpace_lower c Hws). by apply list_elem_of_fmap_2. }
        destruct Hw as [Hw|Hw]; rewrite Hw in Hin;
          apply (proj1 (Forall_forall (λ c, isWhiteSpace c = false) _)) in Hin;
          try congruence; by repeat constructor. }
      split; intros c Hc; apply (proj1 (Forall_forall _ _) Hnone).
      - destruct w; [done|]. injection Hc as ->. left.
      - by apply last_Some_elem_of. }
    rewrite trim_padded by done.
    destruct Hw as [-> | ->]; reflexivity.
  - intros blank Hblank. unfold interpretInput.
    assert (Ht : trim blank = []).
    { unfold trim. by rewrite (dropWhile_all _ blank). }
    rewrite Ht. reflexivity.
  - intros userInput Hne Hexit Hquit. unfold interpretInput, str_eqb.
    by rewrite !bool_decide_false.
  - intros userInput. unfold interpretInput, str_eqb.
    destruct (bool_decide_reflect (toLowerCase (trim userInput) = lit "exit"))
      as [He|He].
    { split; [by split; [left|]|]. split; [done|]. intros Ht. by rewrite Ht in He. }
    destruct (bool_decide_reflect (toLowerCase (trim userInput) = lit "quit"))
      as [Hq|Hq].
    { split; [by split; [right|]|]. split; [done|]. intros Ht. by rewrite Ht in Hq. }
    cbn [orb]. destruct (bool_decide_reflect (trim userInput = [])) as [Ht|Ht].
    + split; [|done]. split; [done|]. by intros [|].
    + split; [|done]. split; [done|]. by intros [|].
Qed.

(** ** Fence removal on a fenced block *)

Lemma removeClosingFence_block s :
  removeClosingFence (s ++ [c_lf] ++ fence) = s.
Proof.
  unfold removeClosingFence, endsWith.
  change (s ++ [c_lf] ++ fence) with (s ++ c_lf :: fence).
  rewrite reverse_app, startsWith_app, length_app. simpl.
  replace (length s + 4 - 4) with (length s) by lia.
  apply take_app_length.
Qed.

Lemma noEdgeWhitespace_fenced mid :
  noEdgeWhitespace (fence ++ mid ++ fence).
Proof.
  split; intros c.
  - by intros [= <-].
  - rewrite !app_assoc. unfold fence at 2.
    change [c_backtick; c_backtick; c_backtick] with ([c_backtick; c_backtick] ++ [c_backtick]).
    rewrite app_assoc, last_snoc. by intros [= <-].
Qed.

(** X16: of an answer that is one fenced block,
    with any whitespace around it, the code between the fences is kept as
    it is when the language tag is made of word characters (or is empty);
    when the tag holds any other character (c++, objective-c) only the
    closing fence is removed and the opening fence stays in what is
    written. *)
Theorem cleanContent_fenced_block pad1 lang code pad2 :
  Forall (λ c, isWhiteSpace c = true) pad1 →
  Forall (λ c, isWhiteSpace c = true) pad2 →
  let answer := pad1 ++ (fence ++ (lang ++ [c_lf] ++ code ++ [c_lf]) ++ fence) ++ pad2 in
  (Forall (λ c, isWordChar c = true) lang → cleanContent answer = code)
  ∧ (∀ word c rest,
       lang = word ++ c :: rest →
       Forall (λ c, isWordChar c = true) word →
       isWordChar c = false → c ≠ c_lf →
       cleanContent answer = fence ++ lang ++ [c_lf] ++ code).
Proof.
  intros H1 H2 answer. subst answer. unfold cleanContent.
  rewrite trim_padded by (done || apply noEdgeWhitespace_fenced).
  rewrite startsWith_app. split.
  - intros Hlang. unfold removeOpeningFence. rewrite startsWith_app.
    change (drop 3 (fence ++ ?x)) with x.
    rewrite <- !app_assoc. cbn [app].
    rewrite dropWhile_run by done. cbn [N.eqb Pos.eqb].
    apply (removeClosingFence_block code).
  - intros word c rest -> Hword Hc Hlf. unfold removeOpeningFence.
    rewrite startsWith_app.
    change (drop 3 (fence ++ ?x)) with x.
    rewrite <- !app_assoc. cbn [app].
    rewrite dropWhile_run by done.
    destruct (N.eqb_spec c c_lf) as [|_]; [done|].
    pose proof (removeClosingFence_block (fence ++ word ++ c :: rest ++ c_lf :: code))
      as Hclose.
    rewrite <- !app_assoc in Hclose. cbn [app] in Hclose.
    rewrite <- !app_assoc in Hclose. exact Hclose.
Qed.

Lemma cleanContent_fenced_block_witness :
  cleanContent (lit "
```ts
  const a = 1;
```
") = lit "  const a = 1;"
  ∧ cleanContent (lit "```c++
int a = 1;
```") = lit "```c++
int a = 1;".
Proof.
  destruct (cleanContent_fenced_block [c_lf] (lit "ts") (lit "  const a = 1;") [c_lf])
    as [H _]; [by repeat constructor|by repeat constructor|].
  destruct (cleanContent_fenced_block [] (lit "c++") (lit "int a = 1;") [])
    as [_ H']; [constructor|constructor|].
  split.
  - apply H. by repeat constructor.
  - apply (H' (lit "c") 43%N (lit "+")); [done|by repeat constructor|done|done].
Defined.

(** * The work tree (src/src/context.ts) *)

(** ** The order of [sort] *)

Lemma str_leb_refl a : str_leb a a = true.
Proof.
  induction a as [|x a IH]; [done|]. simpl.
  by rewrite N.eqb_refl, IH, orb_true_r.
Qed.

Lemma str_leb_total a b : str_leb a b = true ∨ str_leb b a = true.
Proof.
  revert b. induction a as [|x a IH]; intros [|y b]; simpl; auto.
  destruct (N.ltb_spec x y), (N.ltb_spec y x), (N.eqb_spec x y), (N.eqb_spec y x);
    simpl; auto; lia.
Qed.

Lemma str_leb_trans a b c :
  str_leb a b = true → str_leb b c = true → str_leb a c = true.
Proof.
  revert b c. induction a as [|x a IH]; intros [|y b] [|z c]; simpl; try done.
  destruct (N.ltb_spec x y), (N.ltb_spec y z), (N.ltb_spec x z),
    (N.eqb_spec x y), (N.eqb_spec y z), (N.eqb_spec x z); simpl; try done; try lia.
  apply IH.
Qed.

Lemma str_leb_antisym a b : str_leb a b = true → str_leb b a = true → a = b.
Proof.
  revert b. induction a as [|x a IH]; intros [|y b]; simpl; try done.
  destruct (N.ltb_spec x y), (N.ltb_spec y x), (N.eqb_spec x y), (N.eqb_spec y x);
    simpl; try done; try lia.
  intros H1 H2. subst. f_equal. by apply IH.
Qed.

#[local] Instance str_le_total : Total str_le.
Proof. intros a b. apply str_leb_total. Qed.

#[local] Instance str_le_trans : Transitive str_le.
Proof. intros a b c. apply str_leb_trans. Qed.

#[local] Instance str_le_antisym : AntiSymm (=) str_le.
Proof. intros a b. apply str_leb_antisym. Qed.

(** ** The loop over the kept entries *)

Lemma forEachKept_flat_map {B} (f : jsstring → Node → list B) entries :
  forEachKept (λ _, f) entries
  = flat_map (λ e, f (fst e) (snd e)) (List.filter (λ e, keepsItem (fst e)) entries).
Proof.
  unfold forEachKept. generalize (length (List.filter (λ e, keepsItem (fst e)) entries)).
  intros count. generalize 0.
  induction entries as [|[item child] rest IH]; intros index; [done|].
  cbn [eachKept List.filter fst]. destruct (keepsItem item); simpl; by rewrite IH.
Qed.


(** ** [getFileList] *)




(** ** What the filter drops does not count *)

Lemma eachKept_ext {B} (body body' : bool → jsstring → Node → list B) count entries :
  (∀ b item child, (item, child) ∈ entries → keepsItem item = true →
     body b item child = body' b item child) →
  ∀ index, eachKept body count index entries = eachKept body' count index entries.
Proof.
  induction entries as [|[item child] rest IH]; intros Hext index; [done|].
  cbn [eachKept]. destruct (keepsItem item) eqn:Hk.
  - rewrite (Hext _ item child) by (done || left). rewrite IH; [done|].
    intros b i c Hin. apply Hext. by right.
  - apply IH. intros b i c Hin. apply Hext. by right.
Qed.

Lemma forEachKept_ext {B} (body body' : bool → jsstring → Node → list B) entries :
  (∀ b item child, (item, child) ∈ entries → keepsItem item = true →
     body b item child = body' b item child) →
  forEachKept body entries = forEachKept body' entries.
Proof. intros Hext. unfold forEachKept. by apply eachKept_ext. Qed.

(** The loop on a list that was filtered and mapped already. *)
Lemma eachKept_mapped {B} (body : bool → jsstring → Node → list B) (g : Node → Node)
    count entries : ∀ index,
  eachKept body count index
    (forEachKept (λ _ item child, [(item, g child)]) entries)
  = eachKept (λ b item child, body b item (g child)) count index entries.
Proof.
  rewrite forEachKept_flat_map.
  induction entries as [|[item child] rest IH]; intros index; [done|].
  cbn [List.filter fst eachKept]. destruct (keepsItem item) eqn:Hk; [|apply IH].
  cbn [flat_map fst snd app eachKept]. rewrite Hk. by rewrite IH.
Qed.

Lemma filter_kept_mapped (g : Node → Node) entries :
  length (List.filter (λ e, keepsItem (fst e))
            (forEachKept (λ _ item child, [(item, g child)]) entries))
  = length (List.filter (λ e, keepsItem (fst e)) entries).
Proof.
  rewrite forEachKept_flat_map.
  induction entries as [|[item child] rest IH]; [done|].
  cbn [List.filter fst]. destruct (keepsItem item) eqn:Hk; [|apply IH].
  cbn [flat_map fst snd app List.filter length]. rewrite Hk. simpl. by rewrite IH.
Qed.

Lemma forEachKept_mapped {B} (body : bool → jsstring → Node → list B) (g : Node → Node)
    entries :
  forEachKept body (forEachKept (λ _ item child, [(item, g child)]) entries)
  = forEachKept (λ b item child, body b item (g child)) entries.
Proof.
  unfold forEachKept at 1 3. rewrite filter_kept_mapped. apply eachKept_mapped.
Qed.

Lemma scanItem_prune n : ∀ path, scanItem path (pruneNode n) = scanItem path n.
Proof.
  induction n as [|entries IH] using Node_nested_ind; intros path; [done|].
  cbn [pruneNode scanItem]. rewrite forEachKept_mapped. apply forEachKept_ext.
  intros _ item child Hin _. apply (proj1 (Forall_forall _ _) IH _ Hin).
Qed.

Lemma treeItem_prune n : ∀ prefix isLast item,
  treeItem prefix isLast item (pruneNode n) = treeItem prefix isLast item n.
Proof.
  induction n as [|entries IH] using Node_nested_ind; intros prefix isLast item; [done|].
  cbn [pruneNode treeItem]. f_equal. rewrite forEachKept_mapped. apply forEachKept_ext.
  intros b name child Hin _. apply (proj1 (Forall_forall _ _) IH _ Hin).
Qed.

Lemma treeObject_prune n : ∀ path item,
  treeObject path item (pruneNode n) = treeObject path item n.
Proof.
  induction n as [|entries IH] using Node_nested_ind; intros path item; [done|].
  cbn [pruneNode treeObject]. rewrite forEachKept_mapped.
  erewrite forEachKept_ext; [reflexivity|].
  intros b name child Hin _. cbn beta. f_equal.
  apply (proj1 (Forall_forall _ _) IH _ Hin).
Qed.

Lemma context_of_pruned rootDir root :
  getFileList (pruneHidden root) = getFileList root
  ∧ fileTreeString rootDir (pruneHidden root) = fileTreeString rootDir root
  ∧ getFileTree (pruneHidden root) = getFileTree root.
Proof.
  unfold getFileList, fileTreeString, getFileTree, scanDir, buildTreeString, pruneHidden.
  rewrite !forEachKept_mapped. split; [|split].
  - f_equal. apply forEachKept_ext. intros _ item child _ _. apply scanItem_prune.
  - do 6 f_equal. apply forEachKept_ext. intros b item child _ _. apply treeItem_prune.
  - apply forEachKept_ext. intros _ item child _ _. f_equal. apply treeObject_prune.
Qed.

(** X24: two work trees that differ only
    in or below entries the filter drops give the same file list, the
    same tree text and the same tree objects. *)
Theorem context_ignores_hidden_entries rootDir root root' :
  pruneHidden root = pruneHidden root' →
  getFileList root = getFileList root'
  ∧ fileTreeString rootDir root = fileTreeString rootDir root'
  ∧ getFileTree root = getFileTree root'.
Proof.
  intros Heq.
  destruct (context_of_pruned rootDir root) as (H1 & H2 & H3).
  destruct (context_of_pruned rootDir root') as (H1' & H2' & H3').
  rewrite <- H1, <- H2, <- H3, <- H1', <- H2', <- H3', Heq. done.
Qed.

Lemma context_ignores_hidden_entries_witness :
  getFileList sampleTree = getFileList sampleTreeBare
  ∧ fileTreeString (lit "/w") sampleTree = fileTreeString (lit "/w") sampleTreeBare
  ∧ getFileTree sampleTree = getFileTree sampleTreeBare.
Proof.
  apply (context_ignores_hidden_entries (lit "/w") sampleTree sampleTreeBare).
  vm_compute. reflexivity.
Defined.

(** The list is in the order of the code units: upper case first. *)
Example getFileList_sample :
  getFileList sampleTree = [lit "README.md"; lit "src/api.ts"; lit "src/index.ts"].
Proof. vm_compute. reflexivity. Qed.

Example fileTreeString_sample :
  fileTreeString (lit "/w") sampleTreeBare
  = lit "File Tree (/w)" ++ [c_lf] ++ replicate 50 61%N ++ [c_lf]
    ++ connectorMiddle ++ folderIcon ++ lit " src" ++ [c_lf]
    ++ prefixMiddle ++ connectorMiddle ++ pageIcon ++ lit " index.ts" ++ [c_lf]
    ++ prefixMiddle ++ connectorLast ++ pageIcon ++ lit " api.ts" ++ [c_lf]
    ++ connectorLast ++ pageIcon ++ lit " README.md" ++ [c_lf].
Proof. vm_compute. reflexivity. Qed.

(** ** [getAllFiles] and [searchFiles] *)



(** ** Prompts of the planner *)

Lemma includes_self s : includes s s = true.
Proof. rewrite <- (app_nil_r s) at 2. apply (includes_app s [] []). Qed.

Lemma includes_join sep part parts :
  part ∈ parts → includes part (join sep parts) = true.
Proof.
  induction parts as [|p rest IH]; [by intros ?%elem_of_nil|].
  rewrite join_cons. intros [Heq|Hin]%elem_of_cons.
  - subst p. destruct rest; [apply includes_self|apply (includes_app part [])].
  - destruct rest as [|q rest]; [by apply elem_of_nil in Hin|].
    do 2 apply includes_later. by apply IH.
Qed.

Lemma includes_bulletList f files :
  f ∈ files → includes (lit "- " ++ f) (bulletList files) = true.
Proof.
  intros Hin. apply includes_join. apply list_elem_of_fmap. by exists f.
Qed.

Lemma includes_within sub a s b :
  includes sub s = true → includes sub (a ++ s ++ b) = true.
Proof.
  intros (pre & post & ->)%includes_split.
  rewrite <- !app_assoc, (app_assoc a pre). apply includes_app.
Qed.

(** A part of the system prompt occurs in it. *)
Lemma planSystemPrompt_includes sub fileTree fileContext relevantFilesContext :
  includes sub fileTree = true ∨ includes sub fileContext = true
  ∨ includes sub relevantFilesContext = true →
  includes sub (planSystemPrompt fileTree fileContext relevantFilesContext) = true.
Proof.
  unfold planSystemPrompt. intros [H|[H|H]].
  - by apply includes_within.
  - do 3 apply includes_later. by apply (includes_within sub []).
  - do 4 apply includes_later. by apply (includes_within sub []).
Qed.

(** X26: called on the working directory, as
    [index.ts] calls it, and whatever the lowering of the engine: the user
    prompt holds the request as it was typed and the label of its intent;
    the system prompt holds the tree text and a line [- file] for every
    referenced file and for every relevant file; entries of the work tree
    that the filter drops do not change the prompts. *)
Theorem generatePlanPrompts_contents lowerCase root cwd userInput referencedFiles :
  let prompts := generatePlanPrompts lowerCase root cwd userInput referencedFiles in
  includes userInput (userPrompt prompts) = true
  ∧ includes (extractIntent userInput) (userPrompt prompts) = true
  ∧ includes (fileTreeString cwd root) (systemPrompt prompts) = true
  ∧ (∀ f, f ∈ referencedFiles
          ∨ f ∈ filterRelevantFiles lowerCase userInput referencedFiles
                  (getFileList root) →
       includes (lit "- " ++ f) (systemPrompt prompts) = true)
  ∧ (∀ root', pruneHidden root' = pruneHidden root →
       generatePlanPrompts lowerCase root' cwd userInput referencedFiles = prompts).
Proof.
  intros prompts. subst prompts. unfold generatePlanPrompts.
  cbn [systemPrompt userPrompt]. split; [|split; [|split; [|split]]].
  - unfold planUserPrompt. apply includes_app.
  - unfold planUserPrompt. do 3 apply includes_later.
    apply (includes_app (extractIntent userInput) []).
  - apply planSystemPrompt_includes. left. apply includes_self.
  - intros f [Hf|Hf]; apply planSystemPrompt_includes; right; [left|right].
    + destruct referencedFiles as [|r rest]; [by apply elem_of_nil in Hf|].
      do 3 apply includes_later. by apply includes_bulletList.
    + destruct (filterRelevantFiles _ _ _) as [|r rest]; [by apply elem_of_nil in Hf|].
      do 3 apply includes_later. by apply includes_bulletList.
  - intros root' Heq.
    destruct (context_of_pruned cwd root) as (H1 & H2 & _).
    destruct (context_of_pruned cwd root') as (H1' & H2' & _).
    rewrite <- H1, <- H2, <- H1', <- H2', Heq. reflexivity.
Qed.

(** * Stored configuration and login (src/unnamed/part_000, src/src/api.ts) *)

Section ConfigFacts.
Variable pf : Platform.
Variables configDir configFile : jsstring.
Variable envApiUrl : option jsstring.

(** What [ensureConfigDir] does from [h]. *)
Lemma ensureConfigDir_outcome h :
  ensureConfigDir pf configDir h
  = if existsSync pf h configDir then (inr tt, EvExists configDir :: h)
    else (unit_answer (mkdirSync pf (EvExists configDir :: h) configDir),
          EvMkdir configDir :: EvExists configDir :: h).
Proof.
  unfold ensureConfigDir, bind, call. by destruct (existsSync pf h configDir).
Qed.

(** X27: when the configuration
    directory exists or can be made, [readConfig] returns and writes
    nothing: it returns the empty object when the file is missing, when
    reading it throws and when its content is not JSON, and the parsed
    content when the file is read and its content is JSON. *)
Theorem readConfig_never_fails_on_content h :
  (existsSync pf h configDir = false →
   mkdirSync pf (EvExists configDir :: h) configDir = None) →
  let h1 := if existsSync pf h configDir then EvExists configDir :: h
            else EvMkdir configDir :: EvExists configDir :: h in
  let h2 := EvExists configFile :: h1 in
  (existsSync pf h1 configFile = false →
   readConfig pf configDir configFile h = (inr (JObj []), h2))
  ∧ (existsSync pf h1 configFile = true →
     (∀ data config,
        readFileSync pf h2 configFile = inr data → JSON_parse data = Some config →
        readConfig pf configDir configFile h = (inr config, EvRead configFile :: h2))
     ∧ (∀ data,
          readFileSync pf h2 configFile = inr data → JSON_parse data = None →
          readConfig pf configDir configFile h
          = (inr (JObj []), EvRead configFile :: h2))
     ∧ (∀ e,
          readFileSync pf h2 configFile = inl e →
          readConfig pf configDir configFile h
          = (inr (JObj []), EvRead configFile :: h2)))
  ∧ ∃ config new,
      readConfig pf configDir configFile h = (inr config, new ++ h)
      ∧ Forall (λ ev, ¬ isWrite ev) new.
Proof.
  intros Hdir h1 h2.
  assert (Hh1 : ∃ n1, h1 = n1 ++ h ∧ Forall (λ ev, ¬ isWrite ev) n1).
  { subst h1. destruct (existsSync pf h configDir).
    - exists [EvExists configDir]. split; [done|]. repeat constructor. by intros [].
    - exists [EvMkdir configDir; EvExists configDir]. split; [done|].
      repeat constructor; by intros []. }
  assert (Hrun : ensureConfigDir pf configDir h = (inr tt, h1)).
  { rewrite ensureConfigDir_outcome. subst h1.
    destruct (existsSync pf h configDir); [done|]. by rewrite Hdir. }
  assert (Hout : readConfig pf configDir configFile h
                 = if existsSync pf h1 configFile
                   then (inr match readFileSync pf h2 configFile with
                             | inr data => default (JObj []) (JSON_parse data)
                             | inl _ => JObj []
                             end, EvRead configFile :: h2)
                   else (inr (JObj []), h2)).
  { unfold readConfig, bind. rewrite Hrun. unfold call, try_catch. fold h2.
    destruct (existsSync pf h1 configFile); cbn [negb]; [|done].
    destruct (readFileSync pf h2 configFile) as [e|data]; [done|].
    by destruct (JSON_parse data). }
  rewrite Hout. destruct Hh1 as (n1 & Hn1 & Hw1).
  split; [|split].
  - by intros ->.
  - intros ->. split; [|split].
    + by intros data config -> ->.
    + by intros data -> ->.
    + by intros e ->.
  - destruct (existsSync pf h1 configFile).
    + eexists _, (EvRead configFile :: EvExists configFile :: n1).
      split; [subst h2; by rewrite Hn1|].
      repeat constructor; try by intros []. done.
    + exists (JObj []), (EvExists configFile :: n1). subst h2. rewrite Hn1.
      split; [done|]. repeat constructor; try by intros []. done.
Qed.

(** X28: on a configuration that is [null] the
    lookups throw a TypeError; on any other the token is [authToken] when
    that is truthy and [null] otherwise, [isAuthenticated] tells whether
    [authToken] is truthy, and the address is [apiUrl] when truthy, else
    the environment variable when it is set and not empty, else
    [http://localhost:3000]. *)
Theorem stored_config_lookup h config h1 :
  readConfig pf configDir configFile h = (inr config, h1) →
  (config = JNull →
   getAuthToken pf configDir configFile h
   = (inl (ErrorObject (typeErrorMessage pf (lit "authToken"))), h1)
   ∧ isAuthenticated pf configDir configFile h
     = (inl (ErrorObject (typeErrorMessage pf (lit "authToken"))), h1)
   ∧ getApiUrl pf configDir configFile envApiUrl h
     = (inl (ErrorObject (typeErrorMessage pf (lit "apiUrl"))), h1))
  ∧ (config ≠ JNull →
     let token := member (lit "authToken") config in
     let apiUrl := member (lit "apiUrl") config in
     getAuthToken pf configDir configFile h
     = (inr (if truthy token then default JNull token else JNull), h1)
     ∧ isAuthenticated pf configDir configFile h = (inr (truthy token), h1)
     ∧ getApiUrl pf configDir configFile envApiUrl h
       = (inr (if truthy apiUrl then default JNull apiUrl
               else match envApiUrl with
                    | Some (c :: url) => JStr (c :: url)
                    | _ => JStr (lit "http://localhost:3000")
                    end), h1)).
Proof.
  intros Hread. split.
  - intros ->. unfold isAuthenticated, getAuthToken, getApiUrl, bind.
    by rewrite Hread.
  - intros Hnull token apiUrl.
    assert (Hprop : ∀ name,
              configProperty pf name config h1 = (inr (member name config), h1))
      by (intros name; by destruct config).
    unfold isAuthenticated, getAuthToken, getApiUrl, bind.
    rewrite Hread, !Hprop. fold token apiUrl. unfold ret, orElse.
    split; [|split].
    + by destruct (truthy token).
    + destruct (truthy token) eqn:Ht; [|done].
      destruct token as [[]|]; try done.
    + destruct (truthy apiUrl) eqn:Hu; [by rewrite Hu|].
      by destruct envApiUrl as [[|c url]|].
Qed.

End ConfigFacts.

Section PollFacts.
Variable pf : Platform.

Lemma pollLoop_S url later h :
  pollLoop pf url (S later) h
  = match pollAnswer (fetch pf h url []) with
    | Some token => (inr token, EvFetch url [] :: h)
    | None => pollLoop pf url later (EvFetch url [] :: h)
    end.
Proof.
  cbn [pollLoop]. unfold bind, call. by destruct (pollAnswer _).
Qed.

Lemma replicate_shift {A} n (x : A) l : replicate n x ++ x :: l = replicate (S n) x ++ l.
Proof. induction n as [|n IH]; [done|]. simpl. by rewrite IH. Qed.

Lemma pollLoop_authenticated url : ∀ n remaining h t,
  n < remaining →
  (∀ i, i < n → pollAnswer (fetch pf (replicate i (EvFetch url []) ++ h) url []) = None) →
  pollAnswer (fetch pf (replicate n (EvFetch url []) ++ h) url []) = Some t →
  pollLoop pf url remaining h = (inr t, replicate (S n) (EvFetch url []) ++ h).
Proof.
  induction n as [|n IH]; intros remaining h t Hlt Hnone Hsome;
    (destruct remaining as [|later]; [lia|]); rewrite pollLoop_S.
  - simpl in Hsome. by rewrite Hsome.
  - pose proof (Hnone 0 ltac:(lia)) as H0. simpl in H0. rewrite H0.
    rewrite (IH later (EvFetch url [] :: h) t); [|lia| |].
    + by rewrite replicate_shift.
    + intros i Hi. rewrite replicate_shift. apply Hnone. lia.
    + by rewrite replicate_shift.
Qed.

Lemma pollLoop_timeout url : ∀ remaining h,
  (∀ i, i < remaining →
     pollAnswer (fetch pf (replicate i (EvFetch url []) ++ h) url []) = None) →
  pollLoop pf url remaining h
  = (inl (ErrorObject (lit "Authentication timeout - magic link was not clicked")),
     replicate remaining (EvFetch url []) ++ h).
Proof.
  induction remaining as [|later IH]; intros h Hnone; [done|].
  pose proof (Hnone 0 ltac:(lia)) as H0. simpl in H0.
  rewrite pollLoop_S, H0. rewrite IH; [by rewrite replicate_shift|].
  intros i Hi. rewrite replicate_shift. apply Hnone. lia.
Qed.

Lemma pollAnswer_truthy outcome t : pollAnswer outcome = Some t → truthy (Some t) = true.
Proof.
  destruct outcome as [e|status body]; [done|]. simpl.
  destruct (JSON_parse body) as [data|]; [|done].
  assert (H : (if truthy (member (lit "authenticated") data)
                  && truthy (member (lit "token") data)
               then member (lit "token") data else None) = Some t →
              truthy (Some t) = true).
  { destruct (truthy (member (lit "authenticated") data)); [|done].
    destruct (truthy (member (lit "token") data)) eqn:Ht; [|done].
    cbn [andb]. intros Hm. by rewrite Hm in Ht. }
  by destruct data.
Qed.

(** X29: [pollForAuth] returns the token
    of the first poll whose body parses to a value with truthy
    [authenticated] and [token], after exactly that many requests, all to
    [apiUrl/api/auth/poll/token]; when none of the first [maxAttempts]
    polls does, it throws the timeout error after [maxAttempts] requests;
    a rejected request counts as a failed poll and the status of a
    response is not looked at. *)
Theorem pollForAuth_first_authenticated apiUrl token maxAttempts h :
  let url := apiUrl ++ lit "/api/auth/poll/" ++ token in
  let after i := replicate i (EvFetch url []) ++ h in
  let answer i := pollAnswer (fetch pf (after i) url []) in
  (∀ n t, n < maxAttempts → (∀ i, i < n → answer i = None) → answer n = Some t →
     pollForAuth pf apiUrl token maxAttempts h = (inr t, after (S n))
     ∧ truthy (Some t) = true)
  ∧ ((∀ i, i < maxAttempts → answer i = None) →
     pollForAuth pf apiUrl token maxAttempts h
     = (inl (ErrorObject (lit "Authentication timeout - magic link was not clicked")),
        after maxAttempts))
  ∧ (∀ e, pollAnswer (Rejected e) = None)
  ∧ (∀ status status' body,
       pollAnswer (Response status body) = pollAnswer (Response status' body)).
Proof.
  intros url after answer. split; [|split; [|split]].
  - intros n t Hlt Hnone Hsome. split; [|by eapply pollAnswer_truthy].
    by apply pollLoop_authenticated.
  - intros Hnone. by apply pollLoop_timeout.
  - done.
  - done.
Qed.

End PollFacts.

(** An upstream that never confirms: sixty polls, then the timeout. *)
Example pollForAuth_timeout_example :
  ∃ h',
    pollForAuth
      (simPlatform None ∅ ∅ (Response 200 (jlit "{'authenticated':false}")))
      (lit "http://localhost:3000") (lit "t1") 60 []
    = (inl (ErrorObject (lit "Authentication timeout - magic link was not clicked")), h')
    ∧ length h' = 60.
Proof. eexists. split; [vm_compute; reflexivity|reflexivity]. Qed.

Lemma readConfig_never_fails_on_content_witness :
  readConfig configPlatform (lit "/home/u/.codebanger")
    (lit "/home/u/.codebanger/config.json") []
  = (inr (JObj [(lit "authToken", JStr (lit "abc"));
                (lit "email", JStr (lit "a@b.c"));
                (lit "apiUrl", JStr [])]),
     [EvRead (lit "/home/u/.codebanger/config.json");
      EvExists (lit "/home/u/.codebanger/config.json");
      EvExists (lit "/home/u/.codebanger")]).
Proof.
  destruct (readConfig_never_fails_on_content configPlatform (lit "/home/u/.codebanger")
              (lit "/home/u/.codebanger/config.json") []) as (_ & H & _).
  - intros H. vm_compute in H. discriminate.
  - destruct H as (Hparsed & _); [vm_compute; reflexivity|].
    rewrite (Hparsed (jlit "{'authToken':'abc','email':'a@b.c','apiUrl':''}")
               (JObj [(lit "authToken", JStr (lit "abc"));
                      (lit "email", JStr (lit "a@b.c"));
                      (lit "apiUrl", JStr [])]));
      vm_compute; reflexivity.
Defined.

Lemma stored_config_lookup_witness :
  getAuthToken configPlatform (lit "/home/u/.codebanger")
    (lit "/home/u/.codebanger/config.json") []
  = (inr (JStr (lit "abc")),
     [EvRead (lit "/home/u/.codebanger/config.json");
      EvExists (lit "/home/u/.codebanger/config.json");
      EvExists (lit "/home/u/.codebanger")])
  ∧ fst (getApiUrl configPlatform (lit "/home/u/.codebanger")
           (lit "/home/u/.codebanger/config.json") (Some []) [])
    = inr (JStr (lit "http://localhost:3000")).
Proof.
  destruct (stored_config_lookup configPlatform (lit "/home/u/.codebanger")
              (lit "/home/u/.codebanger/config.json") (Some []) []
              (JObj [(lit "authToken", JStr (lit "abc"));
                     (lit "email", JStr (lit "a@b.c"));
                     (lit "apiUrl", JStr [])])
              [EvRead (lit "/home/u/.codebanger/config.json");
               EvExists (lit "/home/u/.codebanger/config.json");
               EvExists (lit "/home/u/.codebanger")]) as [_ H].
  - vm_compute. reflexivity.
  - destruct H as (Htoken & _ & Hurl); [discriminate|].
    split; [exact Htoken|]. by rewrite Hurl.
Defined.

(** * Writing the configuration *)

Lemma skip_ws_app ws s :
  Forall (λ c, isJsonSpace c = true) ws → skip_ws (ws ++ s) = skip_ws s.
Proof.
  induction 1 as [|c ws Hc _ IH]; [done|].
  unfold skip_ws in *. cbn [app dropWhile]. by rewrite Hc.
Qed.

Lemma parse_value_ws f ws s :
  Forall (λ c, isJsonSpace c = true) ws → parse_value f (ws ++ s) = parse_value f s.
Proof. intros H. destruct f; [done|]. by rewrite !parse_value_S, skip_ws_app. Qed.

Lemma parse_members_ws f acc ws s :
  Forall (λ c, isJsonSpace c = true) ws →
  parse_members f acc (ws ++ s) = parse_members f acc s.
Proof. intros H. destruct f; [done|]. by rewrite !parse_members_S, skip_ws_app. Qed.

Lemma parse_elements_ws f acc ws s :
  Forall (λ c, isJsonSpace c = true) ws →
  parse_elements f acc (ws ++ s) = parse_elements f acc s.
Proof. intros H. destruct f; [done|]. by rewrite !parse_elements_S, parse_value_ws. Qed.

Lemma takeDigits_end ds rest :
  Forall (λ c, isDigit c = true) ds →
  numberEnd rest →
  takeDigits (ds ++ rest) = (map digitOf ds, rest).
Proof.
  intros Hds Hrest. induction Hds as [|c ds Hc _ IH]; simpl.
  - destruct rest as [|c r]; [done|].
    simpl in Hrest. unfold isDigit, in_range.
    destruct Hrest as [->|[->|[->| ->]]]; done.
  - by rewrite Hc, IH.
Qed.

Lemma parse_frac_end rest : numberEnd rest → parse_frac rest = Some ([], rest).
Proof. destruct rest as [|c r]; [done|]. by intros [->|[->|[->| ->]]]. Qed.

Lemma parse_exp_end rest : numberEnd rest → parse_exp rest = Some (0%Z, rest).
Proof. destruct rest as [|c r]; [done|]. by intros [->|[->|[->| ->]]]. Qed.

Lemma parse_number_digits_end (neg : bool) ds c0 rest :
  head ds = Some c0 → c0 ≠ 48%N →
  Forall (λ c, isDigit c = true) ds →
  numberEnd rest →
  parse_number ((if neg then [c_minus] else @nil N) ++ ds ++ rest)
  = Some (JNum (decimalValue neg (digitsValue (map digitOf ds)) 0), rest).
Proof.
  intros Hhead Hnz Hds Hrest. unfold parse_number.
  assert (Hsign : parse_sign ((if neg then [c_minus] else @nil N) ++ ds ++ rest)
                  = (neg, ds ++ rest)).
  { destruct neg; [done|]. destruct ds as [|c ds']; [done|].
    injection Hhead as ->. simpl. apply Forall_cons in Hds as [Hc _].
    unfold isDigit, in_range in Hc.
    destruct (N.eqb_spec c0 c_minus) as [->|]; done. }
  rewrite Hsign.
  assert (Hint : parse_int (ds ++ rest) = Some (map digitOf ds, rest)).
  { destruct ds as [|c ds'] eqn:Heq; [done|]. injection Hhead as ->.
    unfold parse_int. rewrite <- app_comm_cons.
    destruct (N.eqb_spec c0 48) as [|_]; [done|].
    pose proof Hds as Hds'. apply Forall_cons in Hds' as [-> _].
    rewrite app_comm_cons. by rewrite takeDigits_end. }
  rewrite Hint, parse_frac_end, parse_exp_end by done.
  by rewrite app_nil_r.
Qed.

(** The digits of a whole number are read back before a line feed as
    well. *)
Lemma parse_number_whole z rest :
  numberEnd rest →
  parse_number (Z_to_string z ++ rest) = Some (JNum (inject_Z z), rest).
Proof.
  intros Hrest. destruct z as [|p|p].
  - simpl. unfold parse_number. simpl.
    rewrite parse_frac_end, parse_exp_end by done. done.
  - simpl. destruct (N_to_string_spec (Npos p)) as (ds & c0 & -> & Hh & Hds & Hv & Hnz & _).
    pose proof (parse_number_digits_end false ds c0 rest Hh (Hnz ltac:(done)) Hds Hrest) as H.
    cbn [app] in H. by rewrite H, Hv, decimalValue_integer.
  - simpl. destruct (N_to_string_spec (Npos p)) as (ds & c0 & -> & Hh & Hds & Hv & Hnz & _).
    pose proof (parse_number_digits_end true ds c0 rest Hh (Hnz ltac:(done)) Hds Hrest) as H.
    cbn [app] in H. cbn [app]. by rewrite H, Hv, decimalValue_integer.
Qed.

Lemma storable_whole_number z : storable wholeNumberText (JNum (inject_Z z)).
Proof.
  constructor.
  - intros rest Hrest. by apply parse_number_whole.
  - apply Z_to_string_head.
Qed.

Section IndentedText.
Variable numberText : Q → jsstring.

Lemma stringifyIndented_arr indent x r :
  stringifyIndented numberText indent (JArr (x :: r))
  = [c_lbracket; c_lf] ++ (indent ++ gap)
    ++ join ([c_comma; c_lf] ++ (indent ++ gap))
         (map (stringifyIndented numberText (indent ++ gap)) (x :: r))
    ++ [c_lf] ++ indent ++ [c_rbracket].
Proof. reflexivity. Qed.

Lemma stringifyIndented_obj indent kx r :
  stringifyIndented numberText indent (JObj (kx :: r))
  = [c_lbrace; c_lf] ++ (indent ++ gap)
    ++ join ([c_comma; c_lf] ++ (indent ++ gap))
         (map (λ kv, quoteJSON (fst kv) ++ [c_colon; c_space]
                     ++ stringifyIndented numberText (indent ++ gap) (snd kv)) (kx :: r))
    ++ [c_lf] ++ indent ++ [c_rbrace].
Proof. reflexivity. Qed.

Lemma stringifyIndented_head indent v :
  storable numberText v →
  ∃ c t, stringifyIndented numberText indent v = c :: t ∧ valueStart c.
Proof.
  destruct v as [|[]|q|s|items|fields]; intros Hv.
  - by eexists _, _.
  - by eexists _, _.
  - by eexists _, _.
  - inversion Hv as [| |? _ (c & t & Heq & Hc)| | |]; subst.
    exists c, t. split; [done|]. unfold valueStart, isJsonSpace.
    destruct Hc as [->|Hc]; [done|]. unfold isDigit, in_range in Hc.
    apply andb_true_iff in Hc as [H1 H2]. apply N.leb_le in H1, H2.
    repeat split; unit_cases; simpl; try done; lia.
  - by eexists _, _.
  - destruct items; by eexists _, _.
  - destruct fields; by eexists _, _.
Qed.

Lemma indentation_gap indent :
  Forall (λ c, isJsonSpace c = true) indent →
  Forall (λ c, isJsonSpace c = true) (indent ++ gap).
Proof. intros H. apply Forall_app. split; [done|]. by repeat constructor. Qed.

Lemma skip_ws_closing indent c rest :
  Forall (λ c, isJsonSpace c = true) indent →
  isJsonSpace c = false →
  skip_ws (c_lf :: indent ++ c :: rest) = c :: rest.
Proof.
  intros Hi Hc. change (c_lf :: indent ++ c :: rest) with ([c_lf] ++ indent ++ c :: rest).
  rewrite !skip_ws_app by (done || by repeat constructor). by apply skip_ws_start.
Qed.

Lemma indented_next (a inner more tail : jsstring) :
  (a ++ ([c_comma; c_lf] ++ inner) ++ more) ++ tail
  = a ++ c_comma :: (c_lf :: inner) ++ (more ++ tail).
Proof. by rewrite <- !app_assoc. Qed.

Lemma parse_elements_indented items :
  Forall (readsBackIndented numberText) items → items ≠ [] →
  ∀ indent acc rest fuel,
    Forall (λ c, isJsonSpace c = true) indent →
    let parts := map (stringifyIndented numberText (indent ++ gap)) items in
    let sep := [c_comma; c_lf] ++ (indent ++ gap) in
    2 * length (join sep parts) + 2 ≤ fuel →
    parse_elements fuel acc (join sep parts ++ c_lf :: indent ++ c_rbracket :: rest)
    = Some (JArr (acc ++ items), rest).
Proof.
  induction 1 as [|x r Hx _ IH]; [done|].
  intros _ indent acc rest fuel Hindent parts sep Hfuel. subst parts sep.
  destruct fuel as [|f]; [lia|]. rewrite parse_elements_S. cbn [map] in *.
  rewrite join_cons. rewrite join_cons in Hfuel.
  pose proof (indentation_gap indent Hindent) as Hinner.
  destruct r as [|y r'].
  - cbn [map] in *. rewrite (Hx (indent ++ gap) _ f) by (simpl; auto; lia).
    by rewrite skip_ws_closing.
  - set (tl := map (stringifyIndented numberText (indent ++ gap)) (y :: r')) in *.
    assert (Htl : tl = stringifyIndented numberText (indent ++ gap) y
                       :: map (stringifyIndented numberText (indent ++ gap)) r') by done.
    rewrite Htl in *. rewrite <- Htl in *.
    rewrite indented_next.
    rewrite !length_app in Hfuel. cbn [length] in Hfuel.
    rewrite (Hx (indent ++ gap) _ f) by (simpl; auto; lia).
    rewrite skip_ws_start by done. cbn [N.eqb Pos.eqb].
    rewrite parse_elements_ws by (by constructor).
    subst tl. rewrite (IH ltac:(done) indent (acc ++ [x]) rest f Hindent).
    + by rewrite <- app_assoc.
    + cbn zeta. simpl in *. lia.
Qed.

End IndentedText.

Section IndentedObjects.
Variable numberText : Q → jsstring.

Lemma member_text_indented k a tail :
  (quoteJSON k ++ [c_colon; c_space] ++ a) ++ tail
  = c_quote :: quoteUnits k ++ c_quote :: c_colon :: [c_space] ++ (a ++ tail).
Proof. unfold quoteJSON. by rewrite <- !app_assoc. Qed.

Lemma member_next k a inner more tail :
  ((quoteJSON k ++ [c_colon; c_space] ++ a) ++ ([c_comma; c_lf] ++ inner) ++ more) ++ tail
  = c_quote :: quoteUnits k ++ c_quote :: c_colon
    :: [c_space] ++ (a ++ c_comma :: (c_lf :: inner) ++ (more ++ tail)).
Proof. unfold quoteJSON. by rewrite <- !app_assoc. Qed.

Lemma member_length_indented k a :
  length (quoteJSON k ++ [c_colon; c_space] ++ a)
  = length (quoteUnits k) + length a + 4.
Proof. unfold quoteJSON. rewrite !length_app. simpl. lia. Qed.

Lemma parse_members_indented fields :
  Forall (λ kv, readsBackIndented numberText (snd kv)) fields → fields ≠ [] →
  ∀ indent acc rest fuel,
    Forall (λ c, isJsonSpace c = true) indent →
    NoDup (map fst (acc ++ fields)) →
    let parts :=
      map (λ kv, quoteJSON (fst kv) ++ [c_colon; c_space]
                 ++ stringifyIndented numberText (indent ++ gap) (snd kv)) fields in
    let sep := [c_comma; c_lf] ++ (indent ++ gap) in
    2 * length (join sep parts) + 2 ≤ fuel →
    parse_members fuel acc (join sep parts ++ c_lf :: indent ++ c_rbrace :: rest)
    = Some (JObj (acc ++ fields), rest).
Proof.
  induction 1 as [|[k x] r Hx _ IH]; [done|].
  intros _ indent acc rest fuel Hindent Hdup parts sep Hfuel. subst parts sep.
  destruct fuel as [|f]; [lia|]. rewrite parse_members_S. cbn [map fst snd] in *.
  pose proof (indentation_gap indent Hindent) as Hinner.
  assert (Hfresh : k ∉ map fst acc).
  { rewrite map_app in Hdup. apply NoDup_app in Hdup as (_ & Hdis & _).
    intros Hin. apply (Hdis k Hin). left. }
  destruct r as [|y r'].
  - cbn [map join] in *. rewrite member_text_indented, skip_ws_start by done.
    cbn [N.eqb Pos.eqb].
    rewrite parse_chars_quoteUnits, skip_ws_start by done. cbn [N.eqb Pos.eqb].
    rewrite parse_value_ws by (by repeat constructor).
    rewrite member_length_indented in Hfuel.
    rewrite (Hx (indent ++ gap) _ f) by (simpl; auto; lia).
    rewrite skip_ws_closing by done. cbn [N.eqb Pos.eqb].
    by rewrite obj_set_fresh.
  - match goal with
    | |- context [join ?sep (?m :: map ?g (y :: r'))] =>
        set (tl := map g (y :: r')) in *;
        assert (Htl : join sep (m :: tl) = m ++ sep ++ join sep tl) by done
    end.
    rewrite Htl in *. clear Htl.
    rewrite member_next, skip_ws_start by done. cbn [N.eqb Pos.eqb].
    rewrite parse_chars_quoteUnits, skip_ws_start by done. cbn [N.eqb Pos.eqb].
    rewrite parse_value_ws by (by repeat constructor).
    rewrite length_app, member_length_indented, length_app in Hfuel.
    rewrite (Hx (indent ++ gap) _ f) by (simpl; auto; lia).
    rewrite skip_ws_start by done. cbn [N.eqb Pos.eqb].
    rewrite parse_members_ws by (by constructor).
    rewrite obj_set_fresh by done.
    subst tl. rewrite (IH ltac:(done) indent (acc ++ [(k, x)]) rest f Hindent).
    + by rewrite <- app_assoc.
    + by rewrite <- app_assoc.
    + cbn zeta. simpl in *. lia.
Qed.

Lemma array_text (inner items indent rest : jsstring) :
  ([c_lbracket; c_lf] ++ inner ++ items ++ [c_lf] ++ indent ++ [c_rbracket]) ++ rest
  = c_lbracket :: (c_lf :: inner) ++ (items ++ c_lf :: indent ++ c_rbracket :: rest).
Proof. repeat (progress (cbn [app]; rewrite <- ?app_assoc)). done. Qed.

Lemma object_text (inner items indent rest : jsstring) :
  ([c_lbrace; c_lf] ++ inner ++ items ++ [c_lf] ++ indent ++ [c_rbrace]) ++ rest
  = c_lbrace :: (c_lf :: inner) ++ (items ++ c_lf :: indent ++ c_rbrace :: rest).
Proof. repeat (progress (cbn [app]; rewrite <- ?app_assoc)). done. Qed.

Lemma join_head sep (c : N) t parts :
  ∃ tail, join sep ((c :: t) :: parts) = c :: tail.
Proof. rewrite join_cons. destruct parts; by eexists. Qed.

Lemma skip_ws_member sep k a parts more :
  ∃ tail, skip_ws (join sep ((quoteJSON k ++ a) :: parts) ++ more) = c_quote :: tail.
Proof.
  rewrite join_cons.
  destruct parts; eexists; unfold quoteJSON; cbn [app]; by rewrite skip_ws_start.
Qed.

(** Every storable value is read back from its indented text. *)
Lemma stringifyIndented_readsBack v :
  storable numberText v → readsBackIndented numberText v.
Proof.
  induction v as [|b|q|s|items IH|fields IH] using json_nested_ind;
    intros Hv indent rest fuel Hindent Hrest Hfuel;
    (destruct fuel as [|f]; [lia|]).
  - done.
  - by destruct b.
  - inversion Hv as [| |? Hread (c & t & Heq & Hc)| | |]; subst.
    cbn [stringifyIndented]. rewrite <- Hread by done.
    rewrite Heq. by apply parse_value_number.
  - cbn [stringifyIndented]. rewrite parse_value_S, quoteJSON_app.
    rewrite skip_ws_start by done.
    cbn [N.eqb Pos.eqb]. by rewrite parse_chars_quoteUnits.
  - destruct items as [|x r]; [done|].
    pose proof (indentation_gap indent Hindent) as Hinner.
    inversion Hv as [| | | |? Hall|]; subst.
    rewrite stringifyIndented_arr in *. rewrite array_text, parse_value_S.
    rewrite skip_ws_start by done. cbn [N.eqb Pos.eqb].
    rewrite skip_ws_app by (by constructor).
    apply Forall_cons in Hall as Hall'. destruct Hall' as [Hx _].
    destruct (stringifyIndented_head numberText (indent ++ gap) x Hx) as (c & t & Heq & Hc).
    cbn [map] in *. rewrite Heq in *.
    destruct (join_head ([c_comma; c_lf] ++ indent ++ gap) c t
                (map (stringifyIndented numberText (indent ++ gap)) r)) as (tail & HJ).
    assert (Hs : ∀ more,
      skip_ws (join ([c_comma; c_lf] ++ indent ++ gap)
                 ((c :: t) :: map (stringifyIndented numberText (indent ++ gap)) r)
               ++ more) = c :: tail ++ more).
    { intros more. rewrite HJ. by apply skip_ws_valueStart. }
    rewrite Hs. destruct Hc as (_ & Hc & _).
    destruct (N.eqb_spec c c_rbracket) as [|_]; [done|].
    rewrite parse_elements_ws by (by constructor).
    rewrite <- Heq in *.
    apply (parse_elements_indented numberText (x :: r)); try done.
    + apply Forall_forall. intros y Hy.
      by apply (proj1 (Forall_forall _ _) IH y Hy), (proj1 (Forall_forall _ _) Hall y Hy).
    + cbn zeta. cbn [map]. rewrite !length_app in Hfuel. cbn [length] in Hfuel.
      simpl in *. lia.
  - destruct fields as [|[k x] r]; [done|].
    pose proof (indentation_gap indent Hindent) as Hinner.
    inversion Hv as [| | | | |? Hdup Hall]; subst.
    rewrite stringifyIndented_obj in *. rewrite object_text, parse_value_S.
    rewrite skip_ws_start by done. cbn [N.eqb Pos.eqb].
    rewrite skip_ws_app by (by constructor).
    cbn [map fst snd] in *.
    match goal with
    | |- context [skip_ws (join ?sep ((quoteJSON k ++ ?a) :: map ?g r) ++ ?more)] =>
        destruct (skip_ws_member sep k a (map g r) more) as (tail & Hs)
    end.
    rewrite Hs. cbn [N.eqb Pos.eqb].
    rewrite parse_members_ws by (by constructor).
    apply (parse_members_indented ((k, x) :: r)); try done.
    + apply Forall_forall. intros y Hy.
      by apply (proj1 (Forall_forall _ _) IH y Hy), (proj1 (Forall_forall _ _) Hall y Hy).
    + cbn zeta. cbn [map fst snd]. rewrite !length_app in Hfuel. cbn [length] in Hfuel.
      simpl in *. lia.
Qed.

Lemma JSON_parse_indented v :
  storable numberText v → JSON_parse (stringifyIndented numberText [] v) = Some v.
Proof.
  intros Hv. unfold JSON_parse.
  rewrite <- (app_nil_r (stringifyIndented numberText [] v)) at 2.
  by rewrite (stringifyIndented_readsBack v Hv [] [] _).
Qed.

End IndentedObjects.

Lemma lookupField_obj_set k v fields : lookupField k (obj_set k v fields) = Some v.
Proof.
  induction fields as [|[k' w] fields IH]; simpl.
  - unfold str_eqb. by rewrite bool_decide_true.
  - destruct (str_eqb k' k) eqn:Hk; simpl; by rewrite Hk.
Qed.

Lemma lookupField_obj_set_other k name v fields :
  name ≠ k → lookupField name (obj_set k v fields) = lookupField name fields.
Proof.
  intros Hname. induction fields as [|[k' w] fields IH]; simpl.
  - unfold str_eqb. by rewrite bool_decide_false.
  - destruct (str_eqb k' k) eqn:Hk; simpl.
    + unfold str_eqb in *. apply bool_decide_eq_true in Hk as ->.
      by rewrite !bool_decide_false.
    + by rewrite IH.
Qed.

Lemma lookupField_removed k name fields :
  lookupField name (List.filter (λ kv, negb (str_eqb (fst kv) k)) fields)
  = if str_eqb name k then None else lookupField name fields.
Proof.
  induction fields as [|[k' w] fields IH]; cbn [List.filter lookupField fst].
  - by destruct (str_eqb name k).
  - unfold str_eqb in *.
    destruct (bool_decide_reflect (k' = k)) as [Hk|Hk]; cbn [negb lookupField];
      unfold str_eqb; rewrite IH;
      destruct (bool_decide_reflect (k' = name)), (bool_decide_reflect (name = k));
      congruence.
Qed.

Lemma elem_of_removed (p : jsstring * json → bool) x fields :
  x ∈ map fst (List.filter p fields) → x ∈ map fst fields.
Proof.
  induction fields as [|kv fields IH]; simpl; [done|].
  destruct (p kv); simpl.
  - intros [->|H]%elem_of_cons; [left|right; by apply IH].
  - intros H. right. by apply IH.
Qed.

Section StorableValues.
Variable numberText : Q → jsstring.

Lemma storable_obj_set k v fields :
  storable numberText (JObj fields) → storable numberText v →
  storable numberText (JObj (obj_set k v fields)).
Proof.
  intros Hacc Hv. inversion Hacc as [| | | | |? Hdup Hall]; subst.
  constructor.
  - clear Hall Hacc. induction fields as [|[k' w] acc IH]; simpl.
    + apply NoDup_singleton.
    + simpl in Hdup. apply NoDup_cons in Hdup as [Hk' Hdup].
      destruct (str_eqb k' k) eqn:Hk; simpl; [by apply NoDup_cons|].
      apply NoDup_cons. split; [|by apply IH].
      intros [->|Hin]%obj_set_key_elem; [|done].
      unfold str_eqb in Hk. by rewrite bool_decide_true in Hk.
  - clear Hdup Hacc. induction Hall as [|[k' w] acc Hw Hall IH]; simpl.
    + by repeat constructor.
    + destruct (str_eqb k' k); by constructor.
Qed.

Lemma storable_removed p fields :
  storable numberText (JObj fields) →
  storable numberText (JObj (List.filter p fields)).
Proof.
  intros Hacc. inversion Hacc as [| | | | |? Hdup Hall]; subst.
  constructor.
  - clear Hall Hacc. induction fields as [|kv acc IH]; simpl; [constructor|].
    simpl in Hdup. apply NoDup_cons in Hdup as [Hk Hdup].
    destruct (p kv); simpl; [|by apply IH].
    apply NoDup_cons. split; [|by apply IH].
    intros Hin. by apply Hk, (elem_of_removed p).
  - clear Hdup Hacc. induction Hall as [|kv acc Hw Hall IH]; simpl; [constructor|].
    destruct (p kv); [by constructor|done].
Qed.

End StorableValues.

Section ConfigWriteFacts.
Variable pf : Platform.
Variables configDir configFile : jsstring.
Variable numberText : Q → jsstring.

(** What [writeConfig] does from [h]. *)
Lemma writeConfig_outcome config h :
  writeConfig pf configDir configFile numberText config h
  = match ensureConfigDir pf configDir h with
    | (inr _, h1) =>
        (unit_answer (writeFileSync pf h1 configFile
                        (stringifyIndented numberText [] config)),
         EvWrite configFile (stringifyIndented numberText [] config) :: h1)
    | (inl e, h1) => (inl e, h1)
    end.
Proof.
  unfold writeConfig, bind, try_catch, call, throw.
  destruct (ensureConfigDir pf configDir h) as [[e|[]] h1]; [done|].
  by destruct (writeFileSync pf h1 configFile _).
Qed.

Lemma writeConfig_returns config h h2 :
  writeConfig pf configDir configFile numberText config h = (inr tt, h2) →
  head h2 = Some (EvWrite configFile (stringifyIndented numberText [] config)).
Proof.
  rewrite writeConfig_outcome.
  destruct (ensureConfigDir pf configDir h) as [[e|[]] h1]; [done|].
  by intros [= _ <-].
Qed.

(** X30: when the stored configuration is an object whose values can be
    written, [saveAuthToken] writes, whenever it returns, a text to the
    configuration file that [JSON.parse] reads as the configuration with
    [authToken] and [email] set to the new values and every other
    property as it was; [clearAuthToken] likewise writes the
    configuration without these two properties. *)
Theorem stored_login_roundtrip h fields h1 token email :
  readConfig pf configDir configFile h = (inr (JObj fields), h1) →
  storable numberText (JObj fields) →
  (∃ text saved,
     JSON_parse text = Some saved
     ∧ member (lit "authToken") saved = Some (JStr token)
     ∧ member (lit "email") saved = Some (JStr email)
     ∧ (∀ name, name ≠ lit "authToken" → name ≠ lit "email" →
          member name saved = member name (JObj fields))
     ∧ ∀ h2, saveAuthToken pf configDir configFile numberText token email h
             = (inr tt, h2) →
             head h2 = Some (EvWrite configFile text))
  ∧ (∃ text saved,
       JSON_parse text = Some saved
       ∧ member (lit "authToken") saved = None
       ∧ member (lit "email") saved = None
       ∧ (∀ name, name ≠ lit "authToken" → name ≠ lit "email" →
            member name saved = member name (JObj fields))
       ∧ ∀ h2, clearAuthToken pf configDir configFile numberText h = (inr tt, h2) →
               head h2 = Some (EvWrite configFile text)).
Proof.
  intros Hread Hfields. split.
  - set (saved := JObj (obj_set (lit "email") (JStr email)
                          (obj_set (lit "authToken") (JStr token) fields))).
    exists (stringifyIndented numberText [] saved), saved.
    split; [|split; [|split; [|split]]].
    + apply JSON_parse_indented. subst saved.
      do 2 (apply storable_obj_set; [|constructor]). done.
    + subst saved. simpl. rewrite lookupField_obj_set_other by done.
      apply lookupField_obj_set.
    + subst saved. simpl. apply lookupField_obj_set.
    + intros name Ha He. subst saved. simpl.
      by rewrite !lookupField_obj_set_other.
    + intros h2. unfold saveAuthToken, bind. rewrite Hread. simpl.
      apply writeConfig_returns.
  - set (saved := JObj (List.filter (λ kv, negb (str_eqb (fst kv) (lit "email")))
                          (List.filter (λ kv, negb (str_eqb (fst kv) (lit "authToken")))
                             fields))).
    exists (stringifyIndented numberText [] saved), saved.
    split; [|split; [|split; [|split]]].
    + apply JSON_parse_indented. subst saved. by do 2 apply storable_removed.
    + subst saved. simpl. by rewrite !lookupField_removed.
    + subst saved. simpl. by rewrite lookupField_removed.
    + intros name Ha He. subst saved. simpl. rewrite !lookupField_removed.
      unfold str_eqb. by rewrite !bool_decide_false.
    + intros h2. unfold clearAuthToken, bind. rewrite Hread. simpl.
      apply writeConfig_returns.
Qed.

End ConfigWriteFacts.

Lemma stored_login_roundtrip_witness :
  ∃ text saved,
    head (snd (saveAuthToken numberedPlatform (lit "/home/u/.codebanger")
                 (lit "/home/u/.codebanger/config.json") wholeNumberText
                 (lit "tok") (lit "me@b.c") []))
    = Some (EvWrite (lit "/home/u/.codebanger/config.json") text)
    ∧ JSON_parse text = Some saved
    ∧ member (lit "authToken") saved = Some (JStr (lit "tok"))
    ∧ member (lit "email") saved = Some (JStr (lit "me@b.c"))
    ∧ member (lit "retries") saved = Some (JNum (inject_Z 3)).
Proof.
  destruct (stored_login_roundtrip numberedPlatform (lit "/home/u/.codebanger")
              (lit "/home/u/.codebanger/config.json") wholeNumberText []
              [(lit "apiUrl", JStr (lit "http://h"));
               (lit "retries", JNum (inject_Z 3));
               (lit "email", JStr (lit "old@b.c"))]
              [EvRead (lit "/home/u/.codebanger/config.json");
               EvExists (lit "/home/u/.codebanger/config.json");
               EvExists (lit "/home/u/.codebanger")]
              (lit "tok") (lit "me@b.c"))
    as [(text & saved & Hparse & Htoken & Hemail & Hother & Hret) _].
  - vm_compute. reflexivity.
  - constructor.
    + apply (bool_decide_unpack _). vm_compute. reflexivity.
    + repeat (apply Forall_cons; split); simpl;
        [constructor|apply storable_whole_number|constructor|constructor].
  - exists text, saved. split; [|split; [done|split; [done|split; [done|]]]].
    + apply Hret. vm_compute. reflexivity.
    + by rewrite Hother.
Defined.
